(** * Search and filter engine of the feature showcase: a shallow embedding

    The development follows the JavaScript sources:
    - [Utils.fuzzySearch], [Utils.removeDuplicates]   (js/utils/utils.js)
    - [DataService] (constructor, loading, lookups, [searchFeatures],
      [calculateFuzzyScore], [filterFeatures], [sortFeatures],
      [getSearchSuggestions])                   (the data service)
    - [DocumentService] ([searchDocuments], [getAdjacentDocuments])
                                                (js/utils/utils.js)
    - [DocumentSearch] (the search history, [performSearch] with its
      cache, [navigateSuggestions])             (js/components/documentSearch.js)
    - the search and filter handlers of the application (js/app.js) and
      [SearchComponent.navigateSuggestions]     (js/components/search.js)

    Modelling conventions.
    - A JavaScript string is a [string] whose characters are code units in
      the Latin-1 range; [toLowerCase] and [trim] are the restrictions of
      the JavaScript functions to that range.
    - A JavaScript number is a rational ([Q]).  Where only the sign or the
      range of a score matters, the arithmetic is exact; where the value
      itself decides (the order of the results, one fuzzy score against
      another), it is the arithmetic of the code: every operation rounds
      to the nearest IEEE 754 double, ties to even ([Double],
      [UtilsDouble], [DataServiceDouble]).
    - An object used as a dictionary (the localized texts of a record, the
      service's cache, the browser's local storage) is a [gmap]; an object
      used as a struct (a feature, a category, a filter state) is a record
      with the fields of the catalog schema that the code reads, an absent
      key being [None].
    - [Array.prototype.sort] is the stable sort the language prescribes,
      written as an insertion sort; [forEach] with [push] is a left fold.
    - A method that reads [this] takes the service as an argument; where a
      statement is about what a call does to the service or whether it
      throws, the call is run through [DataService.invoke].

    The definitions come first, the properties after them. *)

From Stdlib Require Import Ascii String Sorted QArith Qminmax Qround Qpower Lqa.
From stdpp Require Import gmap strings pretty list fin_maps.

Local Open Scope string_scope.
Local Open Scope nat_scope.
Local Open Scope list_scope.

(** ** JavaScript strings *)

Module JsString.

Definition chars (s : string) : list ascii := list_ascii_of_string s.
Definition ofChars (l : list ascii) : string := string_of_list_ascii l.

(** [s.length] *)
Definition length (s : string) : nat := List.length (chars s).

(** One code unit of [String.prototype.toLowerCase]: A-Z and the
    upper-case letters of Latin-1 (all of 0xC0-0xDE but the
    multiplication sign 0xD7) move up by 32. *)
Definition lowerChar (c : ascii) : ascii :=
  let n := nat_of_ascii c in
  if ((65 <=? n) && (n <=? 90)) || ((192 <=? n) && (n <=? 222) && negb (n =? 215))
  then ascii_of_nat (n + 32) else c.

Definition toLowerCase (s : string) : string := ofChars (lowerChar <$> chars s).

(** White space and line terminators removed by [String.prototype.trim]:
    TAB, LF, VT, FF, CR, SP and NBSP. *)
Definition isWhiteSpace (c : ascii) : bool :=
  let n := nat_of_ascii c in
  (n =? 9) || (n =? 10) || (n =? 11) || (n =? 12) || (n =? 13) || (n =? 32) || (n =? 160).

Fixpoint dropSpace (l : list ascii) : list ascii :=
  match l with
  | [] => []
  | c :: l' => if isWhiteSpace c then dropSpace l' else l
  end.

(** [s.trim()] *)
Definition trim (s : string) : string :=
  ofChars (rev (dropSpace (rev (dropSpace (chars s))))).

(** [needle] starts [hay] *)
Fixpoint startsWith (hay needle : list ascii) {struct needle} : bool :=
  match needle, hay with
  | [], _ => true
  | _ :: _, [] => false
  | a :: needle', b :: hay' => if decide (a = b) then startsWith hay' needle' else false
  end.

Fixpoint includesChars (hay needle : list ascii) : bool :=
  startsWith hay needle ||
  match hay with
  | [] => false
  | _ :: hay' => includesChars hay' needle
  end.

(** [hay.includes(needle)] *)
Definition includes (hay needle : string) : bool := includesChars (chars hay) (chars needle).

(** A string is truthy when it is not empty. *)
Definition truthy (s : string) : bool := negb (String.eqb s "").

(** [needle] occurs in [hay] as a contiguous block. *)
Definition Substring (needle hay : string) : Prop :=
  ∃ before after : list ascii, chars hay = before ++ chars needle ++ after.

(** The characters of [needle] occur in [hay] in order, not necessarily
    next to each other. *)
Definition Subsequence (needle hay : string) : Prop :=
  chars needle `sublist_of` chars hay.

(** Every character of [s] is white space (so is the empty string). *)
Definition Blank (s : string) : Prop :=
  Forall (λ c, isWhiteSpace c = true) (chars s).

End JsString.


(** ** Utils.fuzzySearch *)

Module Utils.

Local Open Scope Q_scope.

(** The matching loop of [fuzzySearch]: [rest] is the part of the
    haystack from index [i] on; the loop stops when the haystack or the
    needle is used up. *)
Fixpoint fuzzyLoop (needle rest : list ascii) (score needleIndex : nat) : nat * nat :=
  match rest with
  | [] => (score, needleIndex)
  | c :: rest' =>
      if (needleIndex <? List.length needle)%nat then
        if decide (needle !! needleIndex = Some c)
        then fuzzyLoop needle rest' (S score) (S needleIndex)
        else fuzzyLoop needle rest' score needleIndex
      else (score, needleIndex)
  end.

Definition ofNat (n : nat) : Q := inject_Z (Z.of_nat n).

(** The value of the [includes] branch of [fuzzySearch] for a needle of
    [n] characters in a haystack of [h] characters. *)
Definition containsScore (h n : nat) : Q :=
  (8 # 10) - (ofNat h - ofNat n) / ofNat h * (3 # 10).

Definition fuzzySearch (needle haystack : string) : Q :=
  if negb (JsString.truthy needle) || negb (JsString.truthy haystack) then 0
  else
    let needle := JsString.toLowerCase needle in
    let haystack := JsString.toLowerCase haystack in
    if String.eqb haystack needle then 1
    else if JsString.includes haystack needle then
      (8 # 10)
      - (ofNat (JsString.length haystack) - ofNat (JsString.length needle))
        / ofNat (JsString.length haystack) * (3 # 10)
    else
      let '(score, needleIndex) :=
        fuzzyLoop (JsString.chars needle) (JsString.chars haystack) 0 0 in
      if (needleIndex =? JsString.length needle)%nat
      then ofNat score / ofNat (JsString.length needle) * (6 # 10)
      else 0.

End Utils.

(** ** Arrays *)

Module JsArray.

Local Open Scope Q_scope.

Section Sort.
Context {A : Type}.

(** [Array.prototype.sort(compare)].  The language fixes the result for
    a consistent comparator: the elements in ascending comparator
    order, elements that compare equal keeping their relative order
    (the sort is stable).  It is modelled by the insertion sort that
    produces this result: [compare x y > 0] sends [x] behind [y]. *)
Fixpoint insertBy (compare : A → A → Q) (x : A) (sorted : list A) : list A :=
  match sorted with
  | [] => [x]
  | y :: sorted' =>
      if Qlt_le_dec 0 (compare x y)
      then y :: insertBy compare x sorted'
      else x :: y :: sorted'
  end.

Fixpoint sort (compare : A → A → Q) (l : list A) : list A :=
  match l with
  | [] => []
  | x :: l' => insertBy compare x (sort compare l')
  end.

(** [l.forEach(x => { if (keep x) acc.push(make x) })] *)
Definition pushEach {B : Type} (keep : A → bool) (make : A → B) (l : list A) : list B :=
  fold_left (λ acc x, if keep x then acc ++ [make x] else acc) l [].

(** The elements of [l] with their indices, counted from [n]. *)
Fixpoint indexFrom (n : nat) (l : list A) : list (nat * A) :=
  match l with
  | [] => []
  | x :: l' => (n, x) :: indexFrom (S n) l'
  end.

(** The comparator that puts the larger key first, on elements that
    carry their positions. *)
Definition descending (key : A → Q) (x y : nat * A) : Q := key (snd y) - key (snd x).

(** An element at position [p] ranks before one at position [r]: its
    key is larger, or the keys are equal and [p] comes first. *)
Definition rankedBefore (key : A → Q) (x y : nat * A) : Prop :=
  key (snd y) < key (snd x) ∨ (key (snd x) == key (snd y) ∧ (fst x < fst y)%nat).

End Sort.

End JsArray.

(** ** Outcome of a call *)

Inductive JsError :=
  | Error (message : string)   (* [throw new Error(message)] *)
  | Rejected                   (* a rejected [fetch] or [response.json()] *)
  | NotReadyError.             (* named by the specification; nothing in the
                                  sources constructs it *)

Inductive Completion (A : Type) :=
  | Normal (value : A)
  | Throw (error : JsError).
Arguments Normal {A} value.
Arguments Throw {A} error.

(** What [fetch(url)] followed by [response.json()] gives: a rejection, a
    response that is not [ok], or the parsed document, of which the code
    reads one field ([data.features], [data.categories]). *)
Inductive Fetched (A : Type) :=
  | FetchRejected
  | FetchStatus (status : nat)
  | FetchJson (field : option (list A)).
Arguments FetchRejected {A}.
Arguments FetchStatus {A} status.
Arguments FetchJson {A} field.

(** ** Records of the catalog *)

Module Feature.
Record t := {
  id : string;
  category : string;
  tags : option (list string);
  title : gmap string string;
  description : gmap string string;
  details : gmap string string;
  examples : option (list string);
  version : option string;
  status : string
}.
End Feature.

Module Category.
Record t := {
  id : string;
  name : gmap string string
}.
End Category.

(** The object [{...feature, searchScore: score}]. *)
Module Scored.
Record t := {
  feature : Feature.t;
  searchScore : Q
}.
End Scored.

(** The filter state handed to [filterFeatures]; the filter component
    sends [category], [status] and [sort]. *)
Module Filters.
Record t := {
  category : option string;
  status : option string;
  tags : option (list string);
  version : option string;
  sort : option string
}.
End Filters.

(** ** DataService *)

Module DataService.

Local Open Scope Q_scope.

(** [this.cache] holds the two loaded arrays under their keys; the map
    is split by the type of the value. *)
Record t := {
  features : list Feature.t;
  categories : list Category.t;
  featureCache : gmap string (list Feature.t);
  categoryCache : gmap string (list Category.t);
  initialized : bool
}.

Definition constructor : t :=
  {| features := []; categories := []; featureCache := ∅; categoryCache := ∅;
     initialized := false |}.

Definition setFeatures (fs : list Feature.t) (this : t) : t :=
  {| features := fs; categories := categories this;
     featureCache := featureCache this; categoryCache := categoryCache this;
     initialized := initialized this |}.

Definition setCategories (cs : list Category.t) (this : t) : t :=
  {| features := features this; categories := cs;
     featureCache := featureCache this; categoryCache := categoryCache this;
     initialized := initialized this |}.

Definition cacheFeatures (key : string) (fs : list Feature.t) (this : t) : t :=
  {| features := features this; categories := categories this;
     featureCache := <[key := fs]> (featureCache this); categoryCache := categoryCache this;
     initialized := initialized this |}.

Definition cacheCategories (key : string) (cs : list Category.t) (this : t) : t :=
  {| features := features this; categories := categories this;
     featureCache := featureCache this; categoryCache := <[key := cs]> (categoryCache this);
     initialized := initialized this |}.

Definition setInitialized (b : bool) (this : t) : t :=
  {| features := features this; categories := categories this;
     featureCache := featureCache this; categoryCache := categoryCache this;
     initialized := b |}.

(** A method call: the outcome and the service afterwards. *)
Definition method (A : Type) : Type := t → Completion A * t.

(** A method that assigns no field of [this] and has no [throw]. *)
Definition invoke {A : Type} (body : t → A) : method A :=
  λ this, (Normal (body this), this).

Definition loadFeatures (response : Fetched Feature.t) : method (list Feature.t) :=
  λ this,
    let cacheKey := "features-data" in
    match featureCache this !! cacheKey with
    | Some cached => (Normal cached, setFeatures cached this)
    | None =>
        match response with
        | FetchRejected => (Throw Rejected, this)
        | FetchStatus status =>
            (Throw (Error ("Failed to load features: " +:+ pretty status)), this)
        | FetchJson field =>
            let fs := default [] field in
            (Normal fs, cacheFeatures cacheKey fs (setFeatures fs this))
        end
    end.

Definition loadCategories (response : Fetched Category.t) : method (list Category.t) :=
  λ this,
    let cacheKey := "categories-data" in
    match categoryCache this !! cacheKey with
    | Some cached => (Normal cached, setCategories cached this)
    | None =>
        match response with
        | FetchRejected => (Throw Rejected, this)
        | FetchStatus status =>
            (Throw (Error ("Failed to load categories: " +:+ pretty status)), this)
        | FetchJson field =>
            let cs := default [] field in
            (Normal cs, cacheCategories cacheKey cs (setCategories cs this))
        end
    end.

(** [init]: both loads are started; [initialized] is set only when both
    succeed, and a failure is thrown on (of two failures, the one of the
    features). *)
Definition init (forFeatures : Fetched Feature.t) (forCategories : Fetched Category.t)
  : method unit :=
  λ this,
    if initialized this then (Normal (), this)
    else
      let '(r1, this) := loadFeatures forFeatures this in
      let '(r2, this) := loadCategories forCategories this in
      match r1, r2 with
      | Normal _, Normal _ => (Normal (), setInitialized true this)
      | Throw e, _ => (Throw e, this)
      | Normal _, Throw e => (Throw e, this)
      end.

Definition getAllFeatures (this : t) : list Feature.t := features this.

Definition getCategoryById (this : t) (id : string) : option Category.t :=
  List.find (λ category, bool_decide (Category.id category = id)) (categories this).

(** [a || b] on a possibly missing string *)
Definition orElse (a : option string) (b : string) : string :=
  match a with
  | Some s => if JsString.truthy s then s else b
  | None => b
  end.

(** [field[language] || field.en || ''] *)
Definition localized (field : gmap string string) (language : string) : string :=
  orElse (field !! language) (orElse (field !! "en") "").

Definition calculateFuzzyScore (searchTerm title description : string) (tags : list string) : Q :=
  let titleScore := Utils.fuzzySearch searchTerm title * 30 in
  let descScore := Utils.fuzzySearch searchTerm description * 20 in
  let tagScore :=
    fold_left (λ tagScore tag, Qmax tagScore (Utils.fuzzySearch searchTerm tag * 25)) tags 0 in
  let fuzzyScore := titleScore + descScore + tagScore in
  if Qlt_le_dec 10 fuzzyScore then fuzzyScore else 0.

(** The steps of the scoring loop of [searchFeatures], each taking the
    running [score] to its next value, under the comment the source puts
    above it. *)

(** Title match (highest priority) *)
Definition titleMatch (searchTerm title : string) (score : Q) : Q :=
  if JsString.includes (JsString.toLowerCase title) searchTerm then
    let score := score + 100 in
    if String.eqb (JsString.toLowerCase title) searchTerm then score + 50 else score
  else score.

(** Description match *)
Definition descriptionMatch (searchTerm description : string) (score : Q) : Q :=
  if JsString.includes (JsString.toLowerCase description) searchTerm
  then score + 80 else score.

(** Tags match *)
Definition tagsMatch (searchTerm : string) (tags : list string) (score : Q) : Q :=
  fold_left (λ score tag,
    if JsString.includes (JsString.toLowerCase tag) searchTerm then
      let score := score + 60 in
      if String.eqb (JsString.toLowerCase tag) searchTerm then score + 20 else score
    else score) tags score.

(** Examples match *)
Definition examplesMatch (searchTerm : string) (examples : list string) (score : Q) : Q :=
  fold_left (λ score example,
    if JsString.includes (JsString.toLowerCase example) searchTerm
    then score + 40 else score) examples score.

(** Details match (lower priority) *)
Definition detailsMatch (searchTerm details : string) (score : Q) : Q :=
  if JsString.includes (JsString.toLowerCase details) searchTerm
  then score + 20 else score.

(** Category match *)
Definition categoryMatch (this : t) (searchTerm : string) (feature : Feature.t) (score : Q) : Q :=
  match getCategoryById this (Feature.category feature) with
  | Some category =>
      let categoryName := JsString.toLowerCase (Category.id category) in
      if JsString.includes categoryName searchTerm then score + 30 else score
  | None => score
  end.

(** The body of the loop, up to the final value of [score]. *)
Definition scoreFeature (this : t) (searchTerm language : string) (feature : Feature.t) : Q :=
  let score := 0 in
  let title := localized (Feature.title feature) language in
  let description := localized (Feature.description feature) language in
  let details := localized (Feature.details feature) language in
  let tags := default [] (Feature.tags feature) in
  let examples := default [] (Feature.examples feature) in
  let score := titleMatch searchTerm title score in
  let score := descriptionMatch searchTerm description score in
  let score := tagsMatch searchTerm tags score in
  let score := examplesMatch searchTerm examples score in
  let score := detailsMatch searchTerm details score in
  let score := categoryMatch this searchTerm feature score in
  let fuzzyScore := calculateFuzzyScore searchTerm title description tags in
  score + fuzzyScore.

Definition byScoreDescending (a b : Scored.t) : Q :=
  Scored.searchScore b - Scored.searchScore a.

(** [score > 0], the test that admits a record to [searchResults]. *)
Definition positive (scorer : string → string → Feature.t → Q)
    (searchTerm language : string) (feature : Feature.t) : bool :=
  if Qlt_le_dec 0 (scorer searchTerm language feature) then true else false.

(** [{...feature, searchScore: score}], the object pushed for it. *)
Definition scored (scorer : string → string → Feature.t → Q)
    (searchTerm language : string) (feature : Feature.t) : Scored.t :=
  {| Scored.feature := feature; Scored.searchScore := scorer searchTerm language feature |}.

(** [searchFeatures] with the scoring body as a parameter. *)
Definition searchFeaturesWith (scorer : string → string → Feature.t → Q)
    (features : list Feature.t) (query language : string) : list Feature.t :=
  if negb (JsString.truthy query) || String.eqb (JsString.trim query) "" then features
  else
    let searchTerm := JsString.trim (JsString.toLowerCase query) in
    let searchResults :=
      JsArray.pushEach (positive scorer searchTerm language) (scored scorer searchTerm language)
        features in
    Scored.feature <$> JsArray.sort byScoreDescending searchResults.

(** The sorted array of [searchFeatures] before the scores are dropped,
    each scored record with the index it had in [features]. *)
Definition rankedWith (scorer : string → string → Feature.t → Q)
    (features : list Feature.t) (query language : string) : list (nat * Scored.t) :=
  let searchTerm := JsString.trim (JsString.toLowerCase query) in
  JsArray.sort (JsArray.descending Scored.searchScore)
    (JsArray.pushEach
       (λ x, positive scorer searchTerm language (snd x))
       (λ x, (fst x, scored scorer searchTerm language (snd x)))
       (JsArray.indexFrom 0 features)).

Definition searchFeatures (this : t) (features : list Feature.t) (query language : string)
  : list Feature.t :=
  searchFeaturesWith (scoreFeature this) features query language.

(** The score of a record against a query, as [searchFeatures] computes it. *)
Definition totalScore (this : t) (query language : string) (feature : Feature.t) : Q :=
  scoreFeature this (JsString.trim (JsString.toLowerCase query)) language feature.

(** [filters.x && filters.x !== 'all'] *)
Definition selected (facet : option string) : bool :=
  match facet with
  | Some value => JsString.truthy value && negb (String.eqb value "all")
  | None => false
  end.

Definition hasAnyTag (wanted : list string) (feature : Feature.t) : bool :=
  existsb (λ tag,
    match Feature.tags feature with
    | Some own => bool_decide (tag ∈ own)
    | None => false
    end) wanted.

Definition filterFeatures (features : list Feature.t) (filters : Filters.t) : list Feature.t :=
  let filtered := features in
  let filtered :=
    if selected (Filters.category filters)
    then filter (λ feature, Some (Feature.category feature) = Filters.category filters) filtered
    else filtered in
  let filtered :=
    if selected (Filters.status filters)
    then filter (λ feature, Some (Feature.status feature) = Filters.status filters) filtered
    else filtered in
  let filtered :=
    match Filters.tags filters with
    | Some wanted =>
        if (0 <? List.length wanted)%nat
        then filter (λ feature, hasAnyTag wanted feature = true) filtered
        else filtered
    | None => filtered
    end in
  let filtered :=
    if selected (Filters.version filters)
    then filter (λ feature, Feature.version feature = Filters.version filters) filtered
    else filtered in
  filtered.

End DataService.

(** ** DocumentSearch: the search history *)

Module DocumentSearch.

(** What a key of the browser's local storage holds: the JSON text of an
    array of strings, or text that [JSON.parse] rejects. *)
Inductive Stored :=
  | Json (terms : list string)
  | Garbage.

Record Storage := {
  items : gmap string Stored;
  writable : bool   (* [false]: [setItem] throws *)
}.

Record t := {
  searchHistory : list string;
  maxHistorySize : nat;
  localStorage : Storage
}.

Definition setHistory (h : list string) (this : t) : t :=
  {| searchHistory := h; maxHistorySize := maxHistorySize this;
     localStorage := localStorage this |}.

Definition loadSearchHistory (this : t) : t :=
  match items (localStorage this) !! "docs-search-history" with
  | Some (Json terms) => setHistory terms this
  | Some Garbage => setHistory [] this
  | None => this
  end.

(** The constructor, then [init] as far as the history goes. *)
Definition constructor (storage : Storage) : t :=
  loadSearchHistory
    {| searchHistory := []; maxHistorySize := 10; localStorage := storage |}.

Definition saveSearchHistory (this : t) : t :=
  if writable (localStorage this) then
    {| searchHistory := searchHistory this; maxHistorySize := maxHistorySize this;
       localStorage :=
         {| items := <["docs-search-history" := Json (searchHistory this)]>
                       (items (localStorage this));
            writable := true |} |}
  else this.

Definition addToSearchHistory (query : string) (this : t) : t :=
  let this := setHistory (filter (λ term, term ≠ query) (searchHistory this)) this in
  let this := setHistory (query :: searchHistory this) this in
  let this :=
    if (maxHistorySize this <? List.length (searchHistory this))%nat
    then setHistory (take (maxHistorySize this) (searchHistory this)) this
    else this in
  saveSearchHistory this.

Definition emptyStorage : Storage := {| items := ∅; writable := true |}.

End DocumentSearch.

(** ** Facets, stated apart from the code *)

Module Facet.

(** A facet that narrows nothing: absent, empty, or "all". *)
Definition wildcard (facet : option string) : Prop :=
  facet = None ∨ facet = Some "" ∨ facet = Some "all".

(** The record's field equals the facet value, unless the facet is a
    wildcard. *)
Definition holds (facet value : option string) : Prop :=
  wildcard facet ∨ value = facet.

(** The tags facet: absent, empty, or sharing a tag with the record. *)
Definition tagsHold (wanted own : option (list string)) : Prop :=
  wanted = None ∨ wanted = Some [] ∨ Exists (λ tag, tag ∈ default [] own) (default [] wanted).

(** All four facets, category, status, tags and version, at once. *)
Definition passes (filters : Filters.t) (feature : Feature.t) : Prop :=
  holds (Filters.category filters) (Some (Feature.category feature)) ∧
  holds (Filters.status filters) (Some (Feature.status feature)) ∧
  tagsHold (Filters.tags filters) (Feature.tags feature) ∧
  holds (Filters.version filters) (Feature.version feature).

#[global] Instance passes_dec filters feature : Decision (passes filters feature).
Proof. unfold passes, holds, tagsHold, wildcard. apply _. Defined.

(** The reading under which only category and status are facets and
    only "all" is a wildcard. *)
Definition passesCategoryStatus (filters : Filters.t) (feature : Feature.t) : Prop :=
  (∀ c, Filters.category filters = Some c → c ≠ "all" → Feature.category feature = c) ∧
  (∀ s, Filters.status filters = Some s → s ≠ "all" → Feature.status feature = s).

End Facet.

(** ** A small catalog *)

Module Scenario.

Definition feature (id category status title : string) (tags : list string) : Feature.t :=
  {| Feature.id := id; Feature.category := category; Feature.tags := Some tags;
     Feature.title := {[ "en" := title ]};
     Feature.description := {[ "en" := "" ]};
     Feature.details := {[ "en" := "" ]};
     Feature.examples := None; Feature.version := Some "2025.1";
     Feature.status := status |}.

Definition slash : Feature.t := feature "1" "core" "stable" "Slash Commands" [].
Definition background : Feature.t := feature "2" "core" "beta" "Background Commands" [].
Definition tagged : Feature.t := feature "3" "tools" "new" "Hooks" ["automation"].
Definition memory : Feature.t := feature "4" "core" "new" "Memory" [].
Definition slashCli : Feature.t := feature "5" "core" "stable" "Slash Commands" ["cli"].

Definition store : list Feature.t := [slash; background].

(** A service whose features have arrived and whose categories have not. *)
Definition halfLoaded : Completion unit * DataService.t :=
  DataService.init (FetchJson (Some store)) FetchRejected DataService.constructor.

Definition loaded : DataService.t :=
  snd (DataService.init (FetchJson (Some store))
         (FetchJson (Some [ {| Category.id := "core"; Category.name := ∅ |} ]))
         DataService.constructor).

Definition facets (category status : option string) : Filters.t :=
  {| Filters.category := category; Filters.status := status;
     Filters.tags := None; Filters.version := None; Filters.sort := Some "name" |}.

Definition byVersion (version : string) : Filters.t :=
  {| Filters.category := Some "all"; Filters.status := Some "all";
     Filters.tags := None; Filters.version := Some version; Filters.sort := Some "name" |}.

Definition byTags (tags : list string) : Filters.t :=
  {| Filters.category := Some "all"; Filters.status := Some "all";
     Filters.tags := Some tags; Filters.version := None; Filters.sort := Some "name" |}.

End Scenario.

(** ** DataService: lookups and the cache *)

Module DataServiceQueries.

Definition getFeaturesByCategory (this : DataService.t) (categoryId : string)
  : list Feature.t :=
  filter (λ feature, Feature.category feature = categoryId) (DataService.features this).

(** [this.cache.clear()] *)
Definition clearCache (this : DataService.t) : DataService.t :=
  {| DataService.features := DataService.features this;
     DataService.categories := DataService.categories this;
     DataService.featureCache := ∅; DataService.categoryCache := ∅;
     DataService.initialized := DataService.initialized this |}.

(** The filter state that names one category and nothing else. *)
Definition onlyCategory (categoryId : string) : Filters.t :=
  {| Filters.category := Some categoryId; Filters.status := None;
     Filters.tags := None; Filters.version := None; Filters.sort := None |}.

End DataServiceQueries.

(** ** The application: what the grid shows *)

Module App.

(** The fields of the application that the search and filter handlers
    touch, with the state they read from its two components:
    [searchComponent.currentQuery] and [filterComponent.filters]. *)
Record t := {
  dataService : DataService.t;
  features : list Feature.t;
  filteredFeatures : list Feature.t;
  currentLanguage : string;
  currentQuery : string;
  filters : Filters.t
}.

Definition setFiltered (l : list Feature.t) (app : t) : t :=
  {| dataService := dataService app; features := features app; filteredFeatures := l;
     currentLanguage := currentLanguage app; currentQuery := currentQuery app;
     filters := filters app |}.

Definition present {A : Type} (field : option A) : nat :=
  match field with Some _ => 1 | None => 0 end.

(** [Object.keys(filters).length] *)
Definition keys (filters : Filters.t) : nat :=
  present (Filters.category filters) + present (Filters.status filters)
  + present (Filters.tags filters) + present (Filters.version filters)
  + present (Filters.sort filters).

Definition applyCurrentFilters (app : t) : t :=
  let currentFilters := filters app in
  if (0 <? keys currentFilters)%nat
  then setFiltered (DataService.filterFeatures (filteredFeatures app) currentFilters) app
  else app.

Definition handleSearch (query : string) (app : t) : t :=
  let app :=
    if negb (JsString.truthy (JsString.trim query))
    then setFiltered (features app) app
    else setFiltered
           (DataService.searchFeatures (dataService app) (features app) query
              (currentLanguage app)) app in
  applyCurrentFilters app.

Definition handleFilter (filters : Filters.t) (app : t) : t :=
  let app := setFiltered (DataService.filterFeatures (features app) filters) app in
  let currentSearchQuery := currentQuery app in
  if JsString.truthy currentSearchQuery
  then setFiltered
         (DataService.searchFeatures (dataService app) (filteredFeatures app)
            currentSearchQuery (currentLanguage app)) app
  else app.

End App.

(** ** Sets, which keep the order of insertion *)

Module JsSet.

(** [s.add(x)] on the array of the elements in insertion order *)
Definition add {A : Type} `{EqDecision A} (x : A) (s : list A) : list A :=
  if decide (x ∈ s) then s else s ++ [x].

End JsSet.

(** ** DataService: suggestions and sorting *)

Module DataServiceViews.

Local Open Scope Q_scope.

(** [[titleEn, titleZh]] *)
Definition titlesOf (feature : Feature.t) : list string :=
  let titleEn := DataService.orElse (Feature.title feature !! "en") "" in
  let titleZh := DataService.orElse (Feature.title feature !! "zh") "" in
  [titleEn; titleZh].

Definition collect (queryLower : string) (suggestions : list string) (text : string)
  : list string :=
  if JsString.includes (JsString.toLowerCase text) queryLower
  then JsSet.add text suggestions else suggestions.

Definition shorterFirst (a b : string) : Q :=
  Utils.ofNat (JsString.length a) - Utils.ofNat (JsString.length b).

(** The suggestions before they are cut at the limit. *)
Definition allSuggestions (this : DataService.t) (query : string) : list string :=
  let suggestions := [] in
  let queryLower := JsString.toLowerCase query in
  let suggestions :=
    fold_left (λ suggestions feature,
      fold_left (collect queryLower) (titlesOf feature) suggestions)
      (DataService.features this) suggestions in
  let suggestions :=
    fold_left (λ suggestions feature,
      match Feature.tags feature with
      | Some tags => fold_left (collect queryLower) tags suggestions
      | None => suggestions
      end) (DataService.features this) suggestions in
  JsArray.sort shorterFirst
    (filter (λ suggestion, JsString.toLowerCase suggestion ≠ queryLower) suggestions).

Definition getSearchSuggestions (this : DataService.t) (query : string) (limit : nat)
  : list string :=
  if negb (JsString.truthy query) || (JsString.length query <? 2)%nat then []
  else take limit (allSuggestions this query).

(** A text that the suggestions draw on: a title or a tag of a record of
    the store. *)
Definition Offered (this : DataService.t) (text : string) : Prop :=
  ∃ feature, feature ∈ DataService.features this ∧
    (text ∈ titlesOf feature ∨ text ∈ default [] (Feature.tags feature)).

(** The names that every object inherits from [Object.prototype]: a
    lookup of one of them in an object literal finds the inherited
    member. *)
Definition objectPrototypeKeys : list string :=
  ["constructor"; "__proto__"; "hasOwnProperty"; "isPrototypeOf";
   "propertyIsEnumerable"; "toLocaleString"; "toString"; "valueOf";
   "__defineGetter__"; "__defineSetter__"; "__lookupGetter__"; "__lookupSetter__"].

(** [statusOrder[status] ?? 3] *)
Inductive StatusRank :=
  | Ranked (n : Z)
  | Inherited (key : string).

Definition statusRank (status : string) : StatusRank :=
  if String.eqb status "new" then Ranked 0
  else if String.eqb status "beta" then Ranked 1
  else if String.eqb status "stable" then Ranked 2
  else if bool_decide (status ∈ objectPrototypeKeys) then Inherited status
  else Ranked 3.

(** The place of a record in the order of the statuses: 0 for "new", 1
    for "beta", 2 for "stable", 3 for any other status. *)
Definition rankOf (feature : Feature.t) : Z :=
  match statusRank (Feature.status feature) with
  | Ranked n => n
  | Inherited _ => 3
  end.

#[global] Instance StatusRank_eq_dec : EqDecision StatusRank.
Proof. solve_decision. Defined.

Section Sorting.
(** [a.localeCompare(b)], which depends on the locale of the browser. *)
Variable localeCompare : string → string → Q.

Definition byName (language : string) (a b : Feature.t) : Q :=
  localeCompare
    (JsString.toLowerCase (DataService.localized (Feature.title a) language))
    (JsString.toLowerCase (DataService.localized (Feature.title b) language)).

(** The comparator of [sortFeatures]; a difference that is not a number
    counts as 0. *)
Definition compareFeatures (sortBy language : string) (a b : Feature.t) : Q :=
  if String.eqb sortBy "name" then byName language a b
  else if String.eqb sortBy "category" then
    let catA := Feature.category a in
    let catB := Feature.category b in
    if negb (String.eqb catA catB) then localeCompare catA catB
    else byName language a b
  else if String.eqb sortBy "status" then
    let statusA := statusRank (Feature.status a) in
    let statusB := statusRank (Feature.status b) in
    if decide (statusA ≠ statusB) then
      match statusA, statusB with
      | Ranked m, Ranked n => inject_Z (m - n)
      | _, _ => 0
      end
    else byName language a b
  else if String.eqb sortBy "version" then
    localeCompare (default "" (Feature.version b)) (default "" (Feature.version a))
  else 0.

Definition sortFeatures (features : list Feature.t) (sortBy language : string)
  : list Feature.t :=
  let sorted := features in
  JsArray.sort (compareFeatures sortBy language) sorted.

End Sorting.

End DataServiceViews.

(** ** Keyboard navigation over the suggestions *)

Module SuggestionKeys.

(** [DocumentSearch.navigateSuggestions]: the index that becomes active,
    given the number of suggestions and the index that is active, if any;
    with no suggestion nothing changes. *)
Definition navigateSuggestions (direction : string) (suggestions : nat)
    (activeSuggestion : option nat) : option nat :=
  if (suggestions =? 0)%nat then activeSuggestion
  else
    let nextIndex :=
      match activeSuggestion with
      | Some currentIndex =>
          if String.eqb direction "down"
          then if (currentIndex <? suggestions - 1)%nat then (currentIndex + 1)%nat else 0%nat
          else if (0 <? currentIndex)%nat then (currentIndex - 1)%nat
               else (suggestions - 1)%nat
      | None => 0%nat
      end in
    Some nextIndex.

(** [SearchComponent.navigateSuggestions]: the new [selectedSuggestion],
    -1 standing for none. *)
Definition navigateSelected (direction : Z) (suggestions : nat) (selectedSuggestion : Z) : Z :=
  let maxIndex := (Z.of_nat suggestions - 1)%Z in
  let selectedSuggestion := (selectedSuggestion + direction)%Z in
  if (selectedSuggestion <? 0)%Z then maxIndex
  else if (maxIndex <? selectedSuggestion)%Z then 0%Z
  else selectedSuggestion.

End SuggestionKeys.

(** ** Utils.removeDuplicates *)

Module UtilsArray.

Section ByKey.
Context {A K : Type} `{EqDecision K}.

(** The filter of [removeDuplicates] with its set [seen]. *)
Fixpoint unseen (key : A → K) (seen : list K) (array : list A) : list A :=
  match array with
  | [] => []
  | item :: array' =>
      let val := key item in
      if decide (val ∈ seen) then unseen key seen array'
      else item :: unseen key (JsSet.add val seen) array'
  end.

(** [removeDuplicates(array, key)] for a key that is a property name or a
    function; the key [null] is the identity on an array of strings or
    numbers. *)
Definition removeDuplicates (array : list A) (key : A → K) : list A :=
  let seen := [] in
  unseen key seen array.

End ByKey.

End UtilsArray.

(** ** DataService.searchFeatures: literal matches *)

Module DataServiceMatches.

(** The search term occurs in one of the texts of the record that
    [searchFeatures] looks at, upper and lower case taken as one. *)
Definition Mentions (this : DataService.t) (searchTerm language : string)
    (feature : Feature.t) : Prop :=
  let mentioned text := JsString.includes (JsString.toLowerCase text) searchTerm = true in
  mentioned (DataService.localized (Feature.title feature) language)
  ∨ mentioned (DataService.localized (Feature.description feature) language)
  ∨ (∃ tag, tag ∈ default [] (Feature.tags feature) ∧ mentioned tag)
  ∨ (∃ example, example ∈ default [] (Feature.examples feature) ∧ mentioned example)
  ∨ mentioned (DataService.localized (Feature.details feature) language)
  ∨ (∃ category, DataService.getCategoryById this (Feature.category feature) = Some category
                 ∧ mentioned (Category.id category)).

(** The value of [calculateFuzzyScore] for the record. *)
Definition fuzzyScore (searchTerm language : string) (feature : Feature.t) : Q :=
  DataService.calculateFuzzyScore searchTerm
    (DataService.localized (Feature.title feature) language)
    (DataService.localized (Feature.description feature) language)
    (default [] (Feature.tags feature)).

End DataServiceMatches.

(** ** DocumentService *)

Module Document.

(** A document of [documents.json], with the fields that the service
    reads: [overview] and [sections] are those of [content] (a section
    is given by its [content]), [tags] is [metadata.tags]. *)
Record t := {
  id : string;
  category : string;
  priority : option Q;
  title : gmap string string;
  description : gmap string string;
  overview : gmap string string;
  sections : option (list (gmap string string));
  tags : option (list string)
}.

End Document.

(** The object [{...doc, searchScore: score}]. *)
Module ScoredDocument.
Record t := {
  document : Document.t;
  searchScore : Q
}.
End ScoredDocument.

Module DocumentService.

Local Open Scope Q_scope.

#[global] Instance Qeq_decision (p q : Q) : Decision (p == q) := Qeq_dec p q.

(** The two arrays of the service; of a category the methods below read
    [id] and [name]. *)
Record t := {
  documents : list Document.t;
  categories : list Category.t
}.

Definition getDocumentById (this : t) (id : string) : option Document.t :=
  List.find (λ doc, bool_decide (Document.id doc = id)) (documents this).

Definition getDocumentsByCategory (this : t) (categoryId : string) : list Document.t :=
  filter (λ doc, Document.category doc = categoryId) (documents this).

Definition getCategoryById (this : t) (id : string) : option Category.t :=
  List.find (λ category, bool_decide (Category.id category = id)) (categories this).

(** The steps of the scoring loop of [searchDocuments] that differ from
    those of [DataService.searchFeatures]. *)

(** Overview match *)
Definition overviewMatch (searchTerm overview : string) (score : Q) : Q :=
  if JsString.includes (JsString.toLowerCase overview) searchTerm
  then score + 60 else score.

(** Tags match *)
Definition tagsMatch (searchTerm : string) (tags : list string) (score : Q) : Q :=
  fold_left (λ score tag,
    if JsString.includes (JsString.toLowerCase tag) searchTerm then
      let score := score + 40 in
      if String.eqb (JsString.toLowerCase tag) searchTerm then score + 20 else score
    else score) tags score.

(** Search in sections content *)
Definition sectionsMatch (searchTerm language : string)
    (sections : option (list (gmap string string))) (score : Q) : Q :=
  match sections with
  | Some sections =>
      fold_left (λ score section,
        let sectionContent := DataService.localized section language in
        if JsString.includes (JsString.toLowerCase sectionContent) searchTerm
        then score + 30 else score) sections score
  | None => score
  end.

(** Category match *)
Definition categoryMatch (this : t) (searchTerm language : string) (doc : Document.t)
    (score : Q) : Q :=
  match getCategoryById this (Document.category doc) with
  | Some category =>
      let categoryName := DataService.localized (Category.name category) language in
      if JsString.includes (JsString.toLowerCase categoryName) searchTerm
      then score + 20 else score
  | None => score
  end.

(** The body of the loop, up to the final value of [score]. *)
Definition scoreDocument (this : t) (searchTerm language : string) (doc : Document.t) : Q :=
  let score := 0 in
  let title := DataService.localized (Document.title doc) language in
  let description := DataService.localized (Document.description doc) language in
  let overview := DataService.localized (Document.overview doc) language in
  let tags := default [] (Document.tags doc) in
  let score := DataService.titleMatch searchTerm title score in
  let score := DataService.descriptionMatch searchTerm description score in
  let score := overviewMatch searchTerm overview score in
  let score := tagsMatch searchTerm tags score in
  let score := sectionsMatch searchTerm language (Document.sections doc) score in
  let score := categoryMatch this searchTerm language doc score in
  score.

Definition byScoreDescending (a b : ScoredDocument.t) : Q :=
  ScoredDocument.searchScore b - ScoredDocument.searchScore a.

Definition searchDocuments (this : t) (query language : string) : list Document.t :=
  if negb (JsString.truthy query) || String.eqb (JsString.trim query) "" then documents this
  else
    let searchTerm := JsString.trim (JsString.toLowerCase query) in
    let searchResults :=
      JsArray.pushEach
        (λ doc, if Qlt_le_dec 0 (scoreDocument this searchTerm language doc)
                then true else false)
        (λ doc, {| ScoredDocument.document := doc;
                   ScoredDocument.searchScore := scoreDocument this searchTerm language doc |})
        (documents this) in
    ScoredDocument.document <$> JsArray.sort byScoreDescending searchResults.

(** The score of a document against a query, as [searchDocuments]
    computes it. *)
Definition totalScore (this : t) (query language : string) (doc : Document.t) : Q :=
  scoreDocument this (JsString.trim (JsString.toLowerCase query)) language doc.

(** The search term occurs in one of the texts of the document that
    [searchDocuments] looks at, upper and lower case taken as one. *)
Definition Mentions (this : t) (searchTerm language : string) (doc : Document.t) : Prop :=
  let mentioned text := JsString.includes (JsString.toLowerCase text) searchTerm = true in
  mentioned (DataService.localized (Document.title doc) language)
  ∨ mentioned (DataService.localized (Document.description doc) language)
  ∨ mentioned (DataService.localized (Document.overview doc) language)
  ∨ (∃ tag, tag ∈ default [] (Document.tags doc) ∧ mentioned tag)
  ∨ (∃ section, section ∈ default [] (Document.sections doc)
                ∧ mentioned (DataService.localized section language))
  ∨ (∃ category, getCategoryById this (Document.category doc) = Some category
                 ∧ mentioned (DataService.localized (Category.name category) language)).

(** [a.priority || 999] *)
Definition priorityOr (doc : Document.t) : Q :=
  match Document.priority doc with
  | Some priority => if Qeq_bool priority 0 then 999 else priority
  | None => 999
  end.

Definition byPriority (a b : Document.t) : Q := priorityOr a - priorityOr b.

(** [l.findIndex(f)], -1 when no element passes. *)
Fixpoint findIndexFrom {A : Type} (f : A → bool) (i : Z) (l : list A) : Z :=
  match l with
  | [] => (-1)%Z
  | x :: l' => if f x then i else findIndexFrom f (i + 1)%Z l'
  end.

Definition findIndex {A : Type} (f : A → bool) (l : list A) : Z := findIndexFrom f 0%Z l.

(** [l[i]] *)
Definition at_ {A : Type} (l : list A) (i : Z) : option A :=
  if (i <? 0)%Z then None else l !! Z.to_nat i.

Record Adjacent := {
  prev : option Document.t;
  next : option Document.t
}.

Definition getAdjacentDocuments (this : t) (currentDocId : string) : Adjacent :=
  match getDocumentById this currentDocId with
  | None => {| prev := None; next := None |}
  | Some currentDoc =>
      let categoryDocs :=
        JsArray.sort byPriority (getDocumentsByCategory this (Document.category currentDoc)) in
      let currentIndex :=
        findIndex (λ doc, bool_decide (Document.id doc = currentDocId)) categoryDocs in
      {| prev := if (0 <? currentIndex)%Z then at_ categoryDocs (currentIndex - 1)%Z else None;
         next := if (currentIndex <? Z.of_nat (List.length categoryDocs) - 1)%Z
                 then at_ categoryDocs (currentIndex + 1)%Z else None |}
  end.

End DocumentService.

(** ** DocumentSearch: the cache of results *)

Module DocumentSearchCache.

(** The component with the fields that [performSearch] and [setLanguage]
    touch; [history] holds [searchHistory], [maxHistorySize] and the
    local storage. *)
Record t := {
  documentService : DocumentService.t;
  currentLanguage : string;
  searchCache : gmap string (list Document.t);
  history : DocumentSearch.t
}.

Definition constructor (documentService : DocumentService.t)
    (storage : DocumentSearch.Storage) : t :=
  {| documentService := documentService; currentLanguage := "en"; searchCache := ∅;
     history := DocumentSearch.constructor storage |}.

Definition setLanguage (language : string) (this : t) : t :=
  {| documentService := documentService this; currentLanguage := language;
     searchCache := ∅; history := history this |}.

Definition cacheKeyOf (query language : string) : string := query +:+ "-" +:+ language.

(** [performSearch]: the results handed to [displaySearchResults], if the
    query is not ignored, and the component afterwards. *)
Definition performSearch (query : string) (this : t) : option (list Document.t) * t :=
  if negb (JsString.truthy query) || (JsString.length query <? 2)%nat then (None, this)
  else
    let cacheKey := cacheKeyOf query (currentLanguage this) in
    match searchCache this !! cacheKey with
    | Some results => (Some results, this)
    | None =>
        let results :=
          DocumentService.searchDocuments (documentService this) query
            (currentLanguage this) in
        let this :=
          {| documentService := documentService this;
             currentLanguage := currentLanguage this;
             searchCache := <[cacheKey := results]> (searchCache this);
             history := history this |} in
        let this :=
          {| documentService := documentService this;
             currentLanguage := currentLanguage this;
             searchCache := searchCache this;
             history := DocumentSearch.addToSearchHistory query (history this) |} in
        (Some results, this)
    end.

(** [clearSearchHistory] *)
Definition clearSearchHistory (this : t) : t :=
  {| documentService := documentService this; currentLanguage := currentLanguage this;
     searchCache := searchCache this;
     history :=
       DocumentSearch.saveSearchHistory (DocumentSearch.setHistory [] (history this)) |}.

(** A call from outside the component. *)
Inductive Call :=
  | PerformSearch (query : string)
  | SetLanguage (language : string)
  | ClearSearchHistory.

Definition call (this : t) (c : Call) : t :=
  match c with
  | PerformSearch query => snd (performSearch query this)
  | SetLanguage language => setLanguage language this
  | ClearSearchHistory => clearSearchHistory this
  end.

(** The component after a sequence of calls. *)
Definition after (calls : list Call) (this : t) : t := fold_left call calls this.

End DocumentSearchCache.

(** ** Numbers as doubles *)

Module Double.

Local Open Scope Q_scope.

(** A finite IEEE 754 double is the rational it denotes, and an operation
    on doubles is the exact operation followed by the rounding to the
    nearest double, ties to the even significand.  The significand has 53
    bits; the exponent is not bounded: the scores are far from overflow
    and underflow. *)

(** [2^e] *)
Definition pow2 (e : Z) : Q := Qpower 2 e.

(** The integer nearest to [y], the even one of two that are equally
    near. *)
Definition nearestEven (y : Q) : Z :=
  let f := Qfloor y in
  match Qcompare (y - inject_Z f) (1 # 2) with
  | Lt => f
  | Gt => (f + 1)%Z
  | Eq => if Z.even f then f else (f + 1)%Z
  end.

(** The exponent of the last place of the double nearest to [x > 0]: the
    [e] with 2^52 <= x / 2^e < 2^53. *)
Definition exponent (x : Q) : Z :=
  let e := (Z.log2 (Qnum x) - Z.log2 (Zpos (Qden x)) - 52)%Z in
  if Qle_bool (pow2 52) (x / pow2 e) then e else (e - 1)%Z.

Definition roundPositive (x : Q) : Q :=
  let e := exponent x in
  inject_Z (nearestEven (x / pow2 e)) * pow2 e.

(** The double nearest to [x]. *)
Definition round (x : Q) : Q :=
  let x := Qred x in
  match Qnum x with
  | Z0 => 0
  | Zpos _ => roundPositive x
  | Zneg _ => - roundPositive (- x)
  end.

Definition add (x y : Q) : Q := round (x + y).
Definition sub (x y : Q) : Q := round (x - y).
Definition mul (x y : Q) : Q := round (x * y).
Definition div (x y : Q) : Q := round (x / y).

End Double.

(** ** Utils.fuzzySearch, in doubles *)

Module UtilsDouble.

Local Open Scope Q_scope.

(** The value of the [includes] branch of [fuzzySearch] for a needle of
    [n] characters in a haystack of [h] characters, as the code computes
    it: [0.8 - (h - n) / h * 0.3], each literal and each operation
    rounded.  (A length is an integer below 2^53, hence a double.) *)
Definition containsScore (h n : nat) : Q :=
  Double.sub (Double.round (8 # 10))
    (Double.mul
       (Double.div (Double.sub (Utils.ofNat h) (Utils.ofNat n)) (Utils.ofNat h))
       (Double.round (3 # 10))).

(** [Utils.fuzzySearch] with the arithmetic of the code. *)
Definition fuzzySearch (needle haystack : string) : Q :=
  if negb (JsString.truthy needle) || negb (JsString.truthy haystack) then 0
  else
    let needle := JsString.toLowerCase needle in
    let haystack := JsString.toLowerCase haystack in
    if String.eqb haystack needle then 1
    else if JsString.includes haystack needle then
      Double.sub (Double.round (8 # 10))
        (Double.mul
           (Double.div
              (Double.sub (Utils.ofNat (JsString.length haystack))
                          (Utils.ofNat (JsString.length needle)))
              (Utils.ofNat (JsString.length haystack)))
           (Double.round (3 # 10)))
    else
      let '(score, needleIndex) :=
        Utils.fuzzyLoop (JsString.chars needle) (JsString.chars haystack) 0 0 in
      if (needleIndex =? JsString.length needle)%nat
      then Double.mul (Double.div (Utils.ofNat score) (Utils.ofNat (JsString.length needle)))
             (Double.round (6 # 10))
      else 0.

End UtilsDouble.

(** ** DataService.searchFeatures, in doubles *)

Module DataServiceDouble.

Local Open Scope Q_scope.

Definition calculateFuzzyScore (searchTerm title description : string) (tags : list string) : Q :=
  let titleScore := Double.mul (UtilsDouble.fuzzySearch searchTerm title) 30 in
  let descScore := Double.mul (UtilsDouble.fuzzySearch searchTerm description) 20 in
  let tagScore :=
    fold_left (λ tagScore tag,
      Qmax tagScore (Double.mul (UtilsDouble.fuzzySearch searchTerm tag) 25)) tags 0 in
  let fuzzyScore := Double.add (Double.add titleScore descScore) tagScore in
  if Qlt_le_dec 10 fuzzyScore then fuzzyScore else 0.

(** Title match (highest priority) *)
Definition titleMatch (searchTerm title : string) (score : Q) : Q :=
  if JsString.includes (JsString.toLowerCase title) searchTerm then
    let score := Double.add score 100 in
    if String.eqb (JsString.toLowerCase title) searchTerm then Double.add score 50 else score
  else score.

(** Description match *)
Definition descriptionMatch (searchTerm description : string) (score : Q) : Q :=
  if JsString.includes (JsString.toLowerCase description) searchTerm
  then Double.add score 80 else score.

(** Tags match *)
Definition tagsMatch (searchTerm : string) (tags : list string) (score : Q) : Q :=
  fold_left (λ score tag,
    if JsString.includes (JsString.toLowerCase tag) searchTerm then
      let score := Double.add score 60 in
      if String.eqb (JsString.toLowerCase tag) searchTerm then Double.add score 20 else score
    else score) tags score.

(** Examples match *)
Definition examplesMatch (searchTerm : string) (examples : list string) (score : Q) : Q :=
  fold_left (λ score example,
    if JsString.includes (JsString.toLowerCase example) searchTerm
    then Double.add score 40 else score) examples score.

(** Details match (lower priority) *)
Definition detailsMatch (searchTerm details : string) (score : Q) : Q :=
  if JsString.includes (JsString.toLowerCase details) searchTerm
  then Double.add score 20 else score.

(** Category match *)
Definition categoryMatch (this : DataService.t) (searchTerm : string) (feature : Feature.t)
    (score : Q) : Q :=
  match DataService.getCategoryById this (Feature.category feature) with
  | Some category =>
      let categoryName := JsString.toLowerCase (Category.id category) in
      if JsString.includes categoryName searchTerm then Double.add score 30 else score
  | None => score
  end.

(** The body of the loop of [searchFeatures], up to the final value of
    [score], with the arithmetic of the code. *)
Definition scoreFeature (this : DataService.t) (searchTerm language : string)
    (feature : Feature.t) : Q :=
  let score := 0 in
  let title := DataService.localized (Feature.title feature) language in
  let description := DataService.localized (Feature.description feature) language in
  let details := DataService.localized (Feature.details feature) language in
  let tags := default [] (Feature.tags feature) in
  let examples := default [] (Feature.examples feature) in
  let score := titleMatch searchTerm title score in
  let score := descriptionMatch searchTerm description score in
  let score := tagsMatch searchTerm tags score in
  let score := examplesMatch searchTerm examples score in
  let score := detailsMatch searchTerm details score in
  let score := categoryMatch this searchTerm feature score in
  let fuzzyScore := calculateFuzzyScore searchTerm title description tags in
  Double.add score fuzzyScore.

(** [b.searchScore - a.searchScore] *)
Definition byScoreDescending (a b : Scored.t) : Q :=
  Double.sub (Scored.searchScore b) (Scored.searchScore a).

(** [searchFeatures] with the arithmetic of the code. *)
Definition searchFeatures (this : DataService.t) (features : list Feature.t)
    (query language : string) : list Feature.t :=
  if negb (JsString.truthy query) || String.eqb (JsString.trim query) "" then features
  else
    let searchTerm := JsString.trim (JsString.toLowerCase query) in
    let searchResults :=
      JsArray.pushEach (DataService.positive (scoreFeature this) searchTerm language)
        (DataService.scored (scoreFeature this) searchTerm language) features in
    Scored.feature <$> JsArray.sort byScoreDescending searchResults.

(** The score of a record against a query, as [searchFeatures] computes
    it. *)
Definition totalScore (this : DataService.t) (query language : string)
    (feature : Feature.t) : Q :=
  scoreFeature this (JsString.trim (JsString.toLowerCase query)) language feature.

End DataServiceDouble.

(** ** More example data *)

Module Fixtures.

(** A storage that refuses every write. *)
Definition fullStorage : DocumentSearch.Storage :=
  {| DocumentSearch.items := ∅; DocumentSearch.writable := false |}.

Definition described (id title description : string) (tags : list string) : Feature.t :=
  {| Feature.id := id; Feature.category := "core"; Feature.tags := Some tags;
     Feature.title := {[ "en" := title ]};
     Feature.description := {[ "en" := description ]};
     Feature.details := {[ "en" := "" ]};
     Feature.examples := None; Feature.version := None;
     Feature.status := "stable" |}.

Definition tiedFirst : Feature.t := described "6" "abxx" "abxxxxxxx" ["abxxxxxxxx"].
Definition tiedSecond : Feature.t := described "7" "abxxxx" "abxxxxxxx" ["abxxx"].

Definition document (id category title : string) (priority : option Q)
    (tags : list string) : Document.t :=
  {| Document.id := id; Document.category := category; Document.priority := priority;
     Document.title := {[ "en" := title ]};
     Document.description := {[ "en" := "" ]};
     Document.overview := {[ "en" := "" ]};
     Document.sections := None;
     Document.tags := Some tags |}.

Definition quickstart : Document.t := document "quickstart" "start" "Quickstart" (Some 1%Q) [].
Definition hooks : Document.t := document "hooks" "start" "Hooks guide" (Some 2%Q) ["hooks"].
Definition memory : Document.t := document "memory" "reference" "Memory" None [].

Definition library : DocumentService.t :=
  {| DocumentService.documents := [quickstart; hooks; memory];
     DocumentService.categories :=
       [ {| Category.id := "start"; Category.name := {[ "en" := "Getting started" ]} |} ] |}.

End Fixtures.

(** * Properties *)

Example fuzzy_exact : (Utils.fuzzySearch "Slash" "slash" == 1)%Q.
Proof. reflexivity. Qed.

Example fuzzy_contains : (Utils.fuzzySearch "a" "ab" == 65 # 100)%Q.
Proof. reflexivity. Qed.

Example fuzzy_scattered : (Utils.fuzzySearch "ab" "axb" == 6 # 10)%Q.
Proof. reflexivity. Qed.

Example fuzzy_nomatch : (Utils.fuzzySearch "ba" "axb" == 0)%Q.
Proof. reflexivity. Qed.

(** ** Facts about strings *)

Module JsStringFacts.
Import JsString.

Lemma chars_ofChars l : chars (ofChars l) = l.
Proof. apply list_ascii_of_string_of_list_ascii. Qed.

Lemma ofChars_chars s : ofChars (chars s) = s.
Proof. apply string_of_list_ascii_of_string. Qed.

Lemma chars_inj s1 s2 : chars s1 = chars s2 → s1 = s2.
Proof.
  intros H. rewrite <- (ofChars_chars s1), <- (ofChars_chars s2). by rewrite H.
Qed.

Lemma chars_empty s : chars s = [] ↔ s = "".
Proof.
  split; [|by intros ->].
  intros H. by apply chars_inj.
Qed.

Lemma truthy_true s : truthy s = true ↔ s ≠ "".
Proof.
  unfold truthy. rewrite negb_true_iff. split.
  - intros H ->. by rewrite String.eqb_refl in H.
  - intros H. by apply String.eqb_neq.
Qed.

Lemma truthy_false s : truthy s = false ↔ s = "".
Proof.
  unfold truthy. rewrite negb_false_iff. apply String.eqb_eq.
Qed.

Lemma length_toLowerCase s : length (toLowerCase s) = length s.
Proof.
  unfold length, toLowerCase. by rewrite chars_ofChars, length_fmap.
Qed.

Lemma length_zero s : length s = 0 ↔ s = "".
Proof.
  unfold length. rewrite <- chars_empty. apply length_zero_iff_nil.
Qed.

Lemma toLowerCase_nonempty s : s ≠ "" → toLowerCase s ≠ "".
Proof.
  intros H E. apply H, length_zero. rewrite <- length_toLowerCase. by apply length_zero.
Qed.

Lemma startsWith_spec hay needle :
  startsWith hay needle = true ↔ ∃ after, hay = needle ++ after.
Proof.
  revert hay. induction needle as [|a needle IH]; intros hay; simpl.
  - split; [eauto | done].
  - destruct hay as [|b hay].
    + split; [done | by intros [? ?]].
    + destruct (decide (a = b)) as [->|Hne].
      * rewrite IH. split.
        -- intros [after ->]. eauto.
        -- intros [after [= ->]]. eauto.
      * split; [done | intros [after [= ? ?]]; done].
Qed.

Lemma includesChars_spec hay needle :
  includesChars hay needle = true ↔ ∃ before after, hay = before ++ needle ++ after.
Proof.
  induction hay as [|b hay IH]; simpl; rewrite orb_true_iff, startsWith_spec.
  - split.
    + intros [[after H] | ?]; [|done]. by exists [], after.
    + intros (before & after & H). left.
      destruct before; [by exists after | done].
  - rewrite IH. split.
    + intros [[after H] | (before & after & ->)].
      * by exists [], after.
      * by exists (b :: before), after.
    + intros (before & after & H). destruct before as [|c before].
      * left. by exists after.
      * right. injection H as -> ->. eauto.
Qed.

Lemma includes_spec hay needle : includes hay needle = true ↔ Substring needle hay.
Proof. apply includesChars_spec. Qed.

Lemma Substring_refl s : Substring s s.
Proof. exists [], []. by rewrite app_nil_r. Qed.

Lemma Substring_length needle hay : Substring needle hay → length needle ≤ length hay.
Proof.
  intros (before & after & H). unfold length. rewrite H, !length_app. lia.
Qed.

Lemma Substring_proper_length needle hay :
  Substring needle hay → hay ≠ needle → length needle < length hay.
Proof.
  intros (before & after & H) Hne. unfold length. rewrite H, !length_app.
  destruct before as [|? ?]; [|simpl; lia].
  destruct after as [|? ?]; [|simpl; lia].
  exfalso. apply Hne, chars_inj. by rewrite H, app_nil_r.
Qed.

Lemma Substring_Subsequence needle hay : Substring needle hay → Subsequence needle hay.
Proof.
  intros (before & after & H). unfold Subsequence. rewrite H.
  apply sublist_inserts_l, sublist_inserts_r. done.
Qed.

Lemma dropSpace_nil l : dropSpace l = [] ↔ Forall (λ c, isWhiteSpace c = true) l.
Proof.
  induction l as [|c l IH]; simpl.
  - split; [constructor | done].
  - destruct (isWhiteSpace c) eqn:E.
    + rewrite IH. split; [by constructor | by inversion 1].
    + split; [done | inversion 1; congruence].
Qed.

Lemma dropSpace_head l c l' : dropSpace l = c :: l' → isWhiteSpace c = false.
Proof.
  induction l as [|d l IH]; simpl; [done|].
  destruct (isWhiteSpace d) eqn:E; [done | by intros [= -> ->]].
Qed.

(** [trim] leaves nothing exactly when the string is blank. *)
Lemma trim_empty s : trim s = "" ↔ Blank s.
Proof.
  unfold trim, Blank. rewrite <- chars_empty, chars_ofChars, <- dropSpace_nil.
  split.
  - intros H. apply (f_equal (@rev ascii)) in H. rewrite rev_involutive in H. simpl in H.
    apply dropSpace_nil in H.
    destruct (dropSpace (chars s)) as [|c l] eqn:E; [done|].
    apply dropSpace_head in E. apply Forall_rev in H. rewrite rev_involutive in H.
    inversion H; congruence.
  - by intros ->.
Qed.

Lemma includes_empty s : includes s "" = true.
Proof.
  unfold includes. simpl. by destruct (chars s).
Qed.

(** White space has no case. *)
Lemma lowerChar_space c : isWhiteSpace c = true → lowerChar c = c.
Proof.
  destruct c as [[] [] [] [] [] [] [] []]; vm_compute; first [done | discriminate].
Qed.

Lemma Blank_toLowerCase s : Blank s → Blank (toLowerCase s).
Proof.
  unfold Blank, toLowerCase. rewrite chars_ofChars.
  induction 1 as [|c l Hc Hl IH]; [constructor|].
  rewrite fmap_cons. constructor; [|done]. by rewrite lowerChar_space.
Qed.

(** The search term of a blank query is the empty string. *)
Lemma blank_searchTerm query : Blank query → trim (toLowerCase query) = "".
Proof. intros H. by apply trim_empty, Blank_toLowerCase. Qed.

End JsStringFacts.

(** ** Facts about doubles *)

Module DoubleFacts.
Import Double.
Local Open Scope Q_scope.

Lemma round_proper x y : x == y → round x = round y.
Proof. intros E. unfold round. by rewrite (Qred_complete _ _ E). Qed.

Lemma pow2_pos e : 0 < pow2 e.
Proof. apply Qpower_0_lt. reflexivity. Qed.

Lemma pow2_plus a b : pow2 (a + b) == pow2 a * pow2 b.
Proof. apply Qpower_plus. discriminate. Qed.

Lemma pow2_Z n : (0 ≤ n)%Z → inject_Z (2 ^ n) == pow2 n.
Proof. intros H. by rewrite Zpower_Qpower. Qed.

Lemma nearestEven_near y :
  inject_Z (nearestEven y) - y <= 1 # 2 ∧ y - inject_Z (nearestEven y) <= 1 # 2.
Proof.
  unfold nearestEven.
  pose proof (Qfloor_le y) as Hl. pose proof (Qlt_floor y) as Hu.
  rewrite inject_Z_plus in Hu. change (inject_Z 1) with 1 in Hu.
  destruct (Qcompare_spec (y - inject_Z (Qfloor y)) (1 # 2)) as [E|E|E].
  - destruct (Z.even (Qfloor y)); [lra|].
    rewrite inject_Z_plus. change (inject_Z 1) with 1. lra.
  - lra.
  - rewrite inject_Z_plus. change (inject_Z 1) with 1. lra.
Qed.

(** The exponent is the one of the binade of [x]. *)
Lemma exponent_spec x :
  0 < x → pow2 52 <= x / pow2 (exponent x) ∧ x / pow2 (exponent x) < pow2 53.
Proof.
  intros Hx. unfold exponent.
  destruct x as [a d]. cbn [Qnum Qden].
  assert (0 < a)%Z as Ha by (unfold Qlt in Hx; simpl in Hx; lia).
  set (la := Z.log2 a). set (ld := Z.log2 (Z.pos d)).
  set (e := (la - ld - 52)%Z).
  destruct (Z.log2_spec a Ha) as [Ha1 Ha2]. fold la in Ha1, Ha2.
  destruct (Z.log2_spec (Z.pos d) (Pos2Z.is_pos d)) as [Hd1 Hd2]. fold ld in Hd1, Hd2.
  assert (0 ≤ la)%Z as Hla by apply Z.log2_nonneg.
  assert (0 ≤ ld)%Z as Hld by apply Z.log2_nonneg.
  rewrite Zle_Qle, pow2_Z in Ha1, Hd1 by done.
  rewrite Zlt_Qlt, pow2_Z in Ha2, Hd2 by lia.
  unfold Z.succ in Ha2, Hd2. rewrite pow2_plus in Ha2, Hd2.
  change (pow2 1) with 2 in Ha2, Hd2.
  assert (pow2 la == pow2 ld * pow2 e * pow2 52) as Hl.
  { rewrite <- !pow2_plus. apply Qpower_comp; [done | lia]. }
  pose proof (pow2_pos e) as He. pose proof (pow2_pos ld) as Hpd.
  pose proof (pow2_pos la) as Hpl.
  assert (a # d == inject_Z a / inject_Z (Z.pos d)) as Hq by apply Qmake_Qdiv.
  set (A := inject_Z a) in *. set (D := inject_Z (Z.pos d)) in *.
  assert (0 < D) as HD by lra.
  set (y := (a # d) / pow2 e).
  assert (y * (D * pow2 e) == A) as Hy.
  { unfold y. rewrite Hq. field. split; lra. }
  assert (pow2 52 == 2 * pow2 51) as H52 by reflexivity.
  assert (pow2 53 == 4 * pow2 51) as H53 by reflexivity.
  assert (0 < pow2 51) as H51 by apply pow2_pos.
  set (c := pow2 51) in *. set (E := pow2 e) in *.
  set (L := pow2 la) in *. set (M := pow2 ld) in *.
  set (W := D * E) in *. set (V := M * E).
  assert (0 < V) as HV by (unfold V; nra).
  assert (V <= W ∧ W < 2 * V) as [HW1 HW2] by (unfold W, V; nra).
  assert (L == 2 * (c * V)) as HL by (unfold V; rewrite Hl, H52; ring).
  clearbody W V c. clear Hl Hq.
  assert (c < y) as Hlow.
  { apply Qnot_le_lt. intros Hc.
    assert (y * W <= c * W) by nra.
    assert (c * W < c * (2 * V)) by nra.
    lra. }
  assert (y < 4 * c) as Hhigh.
  { apply Qnot_le_lt. intros Hc.
    assert (4 * c * W <= y * W) by nra.
    assert (4 * c * V <= 4 * c * W) by nra.
    lra. }
  destruct (Qle_bool (pow2 52) y) eqn:T.
  - apply Qle_bool_iff in T. change ((a # d) / pow2 e) with y. split; lra.
  - assert (y < pow2 52) as Hlt.
    { apply Qnot_le_lt. intros Hc. apply Qle_bool_iff in Hc. congruence. }
    assert ((a # d) / pow2 (e - 1) == 2 * y) as ->.
    { unfold y, E. replace (e - 1)%Z with (e + -1)%Z by lia. rewrite pow2_plus.
      change (pow2 (-1)) with (1 # 2). field. fold E. lra. }
    split; lra.
Qed.

Lemma roundPositive_spec x :
  0 < x →
  0 < roundPositive x ∧
  roundPositive x - x <= x * pow2 (-53) ∧ x - roundPositive x <= x * pow2 (-53).
Proof.
  intros Hx. unfold roundPositive.
  destruct (exponent_spec x Hx) as [Hl _].
  pose proof (pow2_pos (exponent x)) as He.
  set (e := exponent x) in *. set (y := x / pow2 e) in *.
  destruct (nearestEven_near y) as [H1 H2].
  set (N := inject_Z (nearestEven y)) in *.
  assert (x == y * pow2 e) as Hy.
  { unfold y. field. lra. }
  assert (pow2 52 == 4503599627370496) as H52 by reflexivity.
  assert (pow2 (-53) == 1 # 9007199254740992) as H53 by reflexivity.
  rewrite H52 in Hl. rewrite H53.
  split; [nra|]. split; nra.
Qed.

Lemma Qred_pos x : 0 < x → ∃ p, Qnum (Qred x) = Zpos p.
Proof.
  intros Hx. rewrite <- (Qred_correct x) in Hx.
  destruct (Qred x) as [[|p|p] d]; unfold Qlt in Hx; simpl in Hx; try lia.
  by exists p.
Qed.

Lemma round_pos x :
  0 < x →
  0 < round x ∧ round x - x <= x * pow2 (-53) ∧ x - round x <= x * pow2 (-53).
Proof.
  intros Hx. unfold round. destruct (Qred_pos x Hx) as [p Hp]. rewrite Hp.
  assert (0 < Qred x) as Hr by (by rewrite Qred_correct).
  pose proof (roundPositive_spec (Qred x) Hr) as (H1 & H2 & H3).
  pose proof (Qred_correct x) as Hc. cbv zeta.
  set (r := roundPositive (Qred x)) in *. set (x' := Qred x) in *.
  assert (pow2 (-53) == 1 # 9007199254740992) as H53 by reflexivity.
  rewrite H53 in *. split; [done|]. split; nra.
Qed.

Lemma round_zero x : x == 0 → round x = 0.
Proof. intros E. by rewrite (round_proper _ _ E). Qed.

Lemma round_opp x : round (- x) == - round x.
Proof.
  unfold round. rewrite Qred_opp.
  destruct (Qred x) as [[|p|p] d]; simpl; [done.. |].
  symmetry. apply Qopp_opp.
Qed.

(** Rounding keeps the sign: the sign of a rounded difference is the
    sign of the difference. *)
Lemma round_sign x : (0 < round x ↔ 0 < x) ∧ (round x == 0 ↔ x == 0).
Proof.
  destruct (Q_dec x 0) as [[Hn|Hp]|Hz].
  - assert (0 < - x) as H by lra. apply round_pos in H as [H _].
    rewrite round_opp in H. split; split; intros; lra.
  - pose proof (round_pos x Hp) as [H _]. split; split; intros; lra.
  - rewrite (round_zero x Hz). split; split; intros; lra.
Qed.

Lemma nearestEven_integer y n : y == inject_Z n → nearestEven y = n.
Proof.
  intros E. unfold nearestEven.
  assert (Qfloor y = n) as -> by (by rewrite E, Qfloor_Z).
  destruct (Qcompare_spec (y - inject_Z n) (1 # 2)) as [H|H|H]; [lra | done | lra].
Qed.

(** A number with a significand of at most 53 bits is a double. *)
Lemma roundPositive_exact x m s :
  0 < x → x == inject_Z m * pow2 s → (m < 2 ^ 53)%Z → roundPositive x == x.
Proof.
  intros Hx E Hm. unfold roundPositive.
  destruct (exponent_spec x Hx) as [Hl _].
  set (e := exponent x) in *.
  pose proof (pow2_pos e) as He. pose proof (pow2_pos s) as Hs.
  assert (0 < m)%Z as Hm0.
  { rewrite Zlt_Qlt. apply Qnot_le_lt. intros Hc. change (inject_Z 0) with 0 in Hc.
    set (M := inject_Z m) in *. set (S' := pow2 s) in *.
    assert (M * S' <= 0) by nra. lra. }
  assert (e ≤ s)%Z as Hes.
  { destruct (Z.le_gt_cases e s) as [|Hgt]; [done|]. exfalso.
    assert (pow2 s * 2 <= pow2 e) as Hp.
    { change 2 with (pow2 1). rewrite <- pow2_plus.
      apply Qpower_le_compat_l; [lia | done]. }
    assert (inject_Z m <= pow2 53 - 1) as Hm'.
    { assert (m ≤ 9007199254740991)%Z as Hle by lia.
      rewrite Zle_Qle in Hle.
      change (inject_Z 9007199254740991) with (9007199254740991 # 1) in Hle.
      change (pow2 53) with (Qpower 2 53). lra. }
    assert (x == x / pow2 e * pow2 e) as Hy by (field; lra).
    set (y := x / pow2 e) in *.
    assert (pow2 53 == 2 * pow2 52) as H53 by reflexivity.
    assert (0 < pow2 52) as H52 by apply pow2_pos.
    set (c := pow2 52) in *. set (E' := pow2 e) in *. set (S' := pow2 s) in *.
    set (M := inject_Z m) in *.
    assert (0 < M) as HM by (unfold M; rewrite <- (Zlt_Qlt 0); done).
    assert (c * E' <= y * E') by nra.
    assert (M * S' <= (2 * c - 1) * S') by nra.
    assert (c * (S' * 2) <= c * E') by nra.
    nra. }
  assert (x / pow2 e == inject_Z (m * 2 ^ (s - e))) as Hy.
  { rewrite inject_Z_mult, pow2_Z by lia. rewrite E.
    replace s with ((s - e) + e)%Z at 1 by lia. rewrite pow2_plus. field. lra. }
  rewrite (nearestEven_integer _ _ Hy), <- Hy. field. lra.
Qed.

Lemma round_exact x m s :
  0 < x → x == inject_Z m * pow2 s → (m < 2 ^ 53)%Z → round x == x.
Proof.
  intros Hx E Hm. unfold round. destruct (Qred_pos x Hx) as [p Hp]. rewrite Hp.
  pose proof (Qred_correct x) as Hc. cbv zeta.
  rewrite (roundPositive_exact (Qred x) m s); [done | by rewrite Hc | by rewrite Hc | done].
Qed.

(** The doubles 0.1 and 0.1 + 0.2 = 0.30000000000000004; a tie goes to
    the even significand: 2^53 + 1 rounds down to 2^53 and 2^53 + 3 up to
    2^53 + 4. *)
Example round_tenth : round (1 # 10) == 3602879701896397 # 36028797018963968.
Proof. vm_compute. reflexivity. Qed.

Example add_tenths :
  add (round (1 # 10)) (round (2 # 10)) == 1351079888211149 # 4503599627370496.
Proof. vm_compute. reflexivity. Qed.

Example round_ties :
  round 9007199254740993 == 9007199254740992 ∧ round 9007199254740995 == 9007199254740996.
Proof. split; vm_compute; reflexivity. Qed.

(** So is an integer below 2^53. *)
Lemma round_integer n : (0 ≤ n < 2 ^ 53)%Z → round (inject_Z n) == inject_Z n.
Proof.
  intros [H0 H1]. destruct (Z.eq_dec n 0%Z) as [->|Hn]; [reflexivity|].
  apply (round_exact _ n 0%Z); [| change (pow2 0) with 1; ring | done].
  change 0 with (inject_Z 0). rewrite <- Zlt_Qlt. lia.
Qed.

End DoubleFacts.

(** ** Facts about [Utils.fuzzySearch] *)

Module UtilsFacts.
Import JsString JsStringFacts Utils.
Local Open Scope Q_scope.

(** The loop counts one point for each character of the needle it
    consumes. *)
Lemma fuzzyLoop_score needle rest k :
  fst (fuzzyLoop needle rest k k) = snd (fuzzyLoop needle rest k k).
Proof.
  revert k. induction rest as [|c rest IH]; intros k; simpl; [done|].
  destruct (k <? List.length needle)%nat; [|done].
  destruct (decide (needle !! k = Some c)); apply IH.
Qed.

Lemma sublist_tail {A} (x : A) l k : x :: l `sublist_of` k → l `sublist_of` k.
Proof. intros H. etrans; [|exact H]. by apply sublist_cons. Qed.

(** Greedy matching finds the needle whenever it is there: the loop ends
    with the whole needle consumed exactly when what was left of it is a
    subsequence of what was left of the haystack. *)
Lemma fuzzyLoop_complete needle rest k :
  (k ≤ List.length needle)%nat →
  snd (fuzzyLoop needle rest k k) = List.length needle ↔ drop k needle `sublist_of` rest.
Proof.
  revert k. induction rest as [|c rest IH]; intros k Hk; simpl.
  - rewrite sublist_nil_r. split.
    + intros ->. by rewrite drop_all.
    + intros H. apply (f_equal (@List.length ascii)) in H.
      rewrite length_drop in H. simpl in H. lia.
  - destruct (k <? List.length needle)%nat eqn:E.
    + apply Nat.ltb_lt in E.
      destruct (lookup_lt_is_Some_2 needle k E) as [d Hd].
      rewrite (drop_S _ _ _ Hd).
      destruct (decide (needle !! k = Some c)) as [Hc|Hc].
      * assert (d = c) as -> by congruence.
        rewrite IH by lia. split.
        -- apply sublist_skip.
        -- rewrite sublist_cons_r. intros [H | (l' & [= <-] & H)]; [|done].
           by apply sublist_tail in H.
      * rewrite IH by lia. rewrite (drop_S _ _ _ Hd).
        rewrite (sublist_cons_r c). split; [by left|].
        intros [H | (l' & [= -> _] & _)]; [done|]. by destruct Hc.
    + apply Nat.ltb_ge in E. simpl.
      rewrite drop_ge by done. split; [intros _; apply sublist_nil_l | lia].
Qed.

(** So the loop decides the subsequence relation. *)
Lemma Subsequence_cases needle hay : Subsequence needle hay ∨ ¬ Subsequence needle hay.
Proof.
  pose proof (fuzzyLoop_complete (chars needle) (chars hay) 0 (Nat.le_0_l _)) as H.
  rewrite drop_0 in H. unfold Subsequence.
  destruct (decide (snd (fuzzyLoop (chars needle) (chars hay) 0 0) = List.length (chars needle)));
    [left | right]; by rewrite <- H.
Qed.

Lemma ofNat_pos n : (0 < n)%nat → 0 < ofNat n.
Proof. intros H. unfold ofNat. rewrite <- (Zlt_Qlt 0). lia. Qed.

Lemma ofNat_lt n m : (n < m)%nat → ofNat n < ofNat m.
Proof. intros H. unfold ofNat. rewrite <- Zlt_Qlt. lia. Qed.

Lemma containsScore_range h n :
  (0 < n)%nat → (n < h)%nat → (1 # 2) < containsScore h n ∧ containsScore h n < (8 # 10).
Proof.
  intros Hn Hh. unfold containsScore.
  pose proof (ofNat_pos n Hn) as HN. pose proof (ofNat_lt n h Hh) as HH.
  set (x := (ofNat h - ofNat n) / ofNat h).
  assert (x * ofNat h == ofNat h - ofNat n) as Hx.
  { unfold x. field. lra. }
  split; nra.
Qed.

Lemma containsScore_above h n :
  (0 < n)%nat → (n < h)%nat → (6 # 10) < containsScore h n ↔ (h < 3 * n)%nat.
Proof.
  intros Hn Hh. unfold containsScore.
  pose proof (ofNat_pos n Hn) as HN. pose proof (ofNat_lt n h Hh) as HH.
  set (x := (ofNat h - ofNat n) / ofNat h).
  assert (x * ofNat h == ofNat h - ofNat n) as Hx.
  { unfold x. field. lra. }
  assert (ofNat h < 3 * ofNat n ↔ (h < 3 * n)%nat) as <-.
  { unfold ofNat. change 3 with (inject_Z 3).
    rewrite <- inject_Z_mult, <- Zlt_Qlt. lia. }
  split; intros; nra.
Qed.

(** *** The five outcomes of [fuzzySearch] *)

Lemma fuzzySearch_empty needle haystack :
  needle = "" ∨ haystack = "" → fuzzySearch needle haystack = 0.
Proof.
  unfold fuzzySearch. intros [->| ->]; simpl; [done|].
  by rewrite orb_true_r.
Qed.

Lemma fuzzySearch_unfold needle haystack :
  needle ≠ "" → haystack ≠ "" →
  fuzzySearch needle haystack =
    let needle := toLowerCase needle in
    let haystack := toLowerCase haystack in
    if String.eqb haystack needle then 1
    else if includes haystack needle then containsScore (length haystack) (length needle)
    else
      let '(score, needleIndex) := fuzzyLoop (chars needle) (chars haystack) 0 0 in
      if (needleIndex =? length needle)%nat
      then ofNat score / ofNat (length needle) * (6 # 10)
      else 0.
Proof.
  intros Hn Hh. unfold fuzzySearch.
  apply truthy_true in Hn, Hh. by rewrite Hn, Hh.
Qed.

Lemma fuzzySearch_exact needle haystack :
  needle ≠ "" → haystack ≠ "" → toLowerCase haystack = toLowerCase needle →
  fuzzySearch needle haystack = 1.
Proof.
  intros Hn Hh E. rewrite fuzzySearch_unfold by done. simpl.
  by rewrite E, String.eqb_refl.
Qed.

Lemma fuzzySearch_contains needle haystack :
  needle ≠ "" → haystack ≠ "" → toLowerCase haystack ≠ toLowerCase needle →
  Substring (toLowerCase needle) (toLowerCase haystack) →
  fuzzySearch needle haystack = containsScore (length haystack) (length needle).
Proof.
  intros Hn Hh E S. rewrite fuzzySearch_unfold by done. simpl.
  apply String.eqb_neq in E. rewrite E.
  apply includes_spec in S. rewrite S. by rewrite !length_toLowerCase.
Qed.

Lemma fuzzySearch_scattered needle haystack :
  needle ≠ "" → haystack ≠ "" →
  ¬ Substring (toLowerCase needle) (toLowerCase haystack) →
  Subsequence (toLowerCase needle) (toLowerCase haystack) →
  fuzzySearch needle haystack == 6 # 10.
Proof.
  intros Hn Hh S Q. rewrite fuzzySearch_unfold by done. simpl.
  destruct (String.eqb_spec (toLowerCase haystack) (toLowerCase needle)) as [E|_].
  { destruct S. rewrite E. apply Substring_refl. }
  destruct (includes _ _) eqn:I.
  { by apply includes_spec in I. }
  pose proof (fuzzyLoop_score (chars (toLowerCase needle)) (chars (toLowerCase haystack)) 0) as Hs.
  pose proof (fuzzyLoop_complete (chars (toLowerCase needle)) (chars (toLowerCase haystack)) 0) as Hc.
  destruct (fuzzyLoop _ _ 0%nat 0%nat) as [score needleIndex]. simpl in Hs, Hc.
  subst score. apply (proj2 (Hc (Nat.le_0_l _))) in Q.
  fold (length (toLowerCase needle)) in Q. rewrite Q, Nat.eqb_refl.
  assert (0 < ofNat (length (toLowerCase needle))) as Hp.
  { apply ofNat_pos. rewrite length_toLowerCase.
    destruct (length needle) eqn:L; [by apply length_zero in L | lia]. }
  field. lra.
Qed.

Lemma fuzzySearch_nomatch needle haystack :
  ¬ Subsequence (toLowerCase needle) (toLowerCase haystack) →
  fuzzySearch needle haystack = 0.
Proof.
  intros Q.
  destruct (decide (needle = "")) as [->|Hn]; [by apply fuzzySearch_empty; left|].
  destruct (decide (haystack = "")) as [->|Hh]; [by apply fuzzySearch_empty; right|].
  rewrite fuzzySearch_unfold by done. simpl.
  destruct (String.eqb_spec (toLowerCase haystack) (toLowerCase needle)) as [E|_].
  { destruct Q. rewrite E. apply Substring_Subsequence, Substring_refl. }
  destruct (includes _ _) eqn:I.
  { destruct Q. by apply Substring_Subsequence, includes_spec. }
  pose proof (fuzzyLoop_complete (chars (toLowerCase needle)) (chars (toLowerCase haystack)) 0) as Hc.
  destruct (fuzzyLoop _ _ 0%nat 0%nat) as [score needleIndex]. simpl in Hc.
  destruct (Nat.eqb_spec needleIndex (length (toLowerCase needle))) as [E|_]; [|done].
  destruct Q. apply Hc; [lia | done].
Qed.

End UtilsFacts.

(** ** Facts about [Utils.fuzzySearch] in doubles *)

Module UtilsDoubleFacts.
Import JsString JsStringFacts Utils UtilsFacts Double DoubleFacts.
Local Open Scope Q_scope.

Lemma double_unfold needle haystack :
  needle ≠ "" → haystack ≠ "" →
  UtilsDouble.fuzzySearch needle haystack =
    let needle := toLowerCase needle in
    let haystack := toLowerCase haystack in
    if String.eqb haystack needle then 1
    else if includes haystack needle
    then UtilsDouble.containsScore (length haystack) (length needle)
    else
      let '(score, needleIndex) := fuzzyLoop (chars needle) (chars haystack) 0 0 in
      if (needleIndex =? length needle)%nat
      then Double.mul (Double.div (ofNat score) (ofNat (length needle))) (round (6 # 10))
      else 0.
Proof.
  intros Hn Hh. unfold UtilsDouble.fuzzySearch.
  apply truthy_true in Hn, Hh. by rewrite Hn, Hh.
Qed.

Lemma double_exact needle haystack :
  needle ≠ "" → haystack ≠ "" → toLowerCase haystack = toLowerCase needle →
  UtilsDouble.fuzzySearch needle haystack = 1.
Proof.
  intros Hn Hh E. rewrite double_unfold by done. simpl.
  by rewrite E, String.eqb_refl.
Qed.

Lemma double_contains needle haystack :
  needle ≠ "" → haystack ≠ "" → toLowerCase haystack ≠ toLowerCase needle →
  Substring (toLowerCase needle) (toLowerCase haystack) →
  UtilsDouble.fuzzySearch needle haystack
  = UtilsDouble.containsScore (length haystack) (length needle).
Proof.
  intros Hn Hh E S. rewrite double_unfold by done. simpl.
  apply String.eqb_neq in E. rewrite E.
  apply includes_spec in S. rewrite S. by rewrite !length_toLowerCase.
Qed.

(** A match as a scattered subsequence scores the double 0.6. *)
Lemma double_scattered needle haystack :
  needle ≠ "" → haystack ≠ "" →
  ¬ Substring (toLowerCase needle) (toLowerCase haystack) →
  Subsequence (toLowerCase needle) (toLowerCase haystack) →
  UtilsDouble.fuzzySearch needle haystack == round (6 # 10).
Proof.
  intros Hn Hh S Q. rewrite double_unfold by done. simpl.
  destruct (String.eqb_spec (toLowerCase haystack) (toLowerCase needle)) as [E|_].
  { destruct S. rewrite E. apply Substring_refl. }
  destruct (includes _ _) eqn:I.
  { by apply includes_spec in I. }
  pose proof (fuzzyLoop_score (chars (toLowerCase needle)) (chars (toLowerCase haystack)) 0) as Hs.
  pose proof (fuzzyLoop_complete (chars (toLowerCase needle)) (chars (toLowerCase haystack)) 0) as Hc.
  destruct (fuzzyLoop _ _ 0%nat 0%nat) as [score needleIndex]. simpl in Hs, Hc.
  subst score. apply (proj2 (Hc (Nat.le_0_l _))) in Q.
  fold (length (toLowerCase needle)) in Q. rewrite Q, Nat.eqb_refl.
  assert (0 < ofNat (length (toLowerCase needle))) as Hp.
  { apply ofNat_pos. rewrite length_toLowerCase.
    destruct (length needle) eqn:L; [by apply length_zero in L | lia]. }
  unfold Double.mul, Double.div.
  rewrite (round_proper (ofNat (length (toLowerCase needle))
                         / ofNat (length (toLowerCase needle))) 1) by (field; lra).
  rewrite (round_proper (round 1 * round (6 # 10)) (round (6 # 10)))
    by (vm_compute; reflexivity).
  vm_compute. reflexivity.
Qed.

(** The difference of two lengths is computed exactly. *)
Lemma double_length_sub h n :
  (n ≤ h)%nat → (Z.of_nat h < 2 ^ 53)%Z →
  Double.sub (ofNat h) (ofNat n) == ofNat h - ofNat n.
Proof.
  intros Hn Hh.
  assert (ofNat h - ofNat n == inject_Z (Z.of_nat h - Z.of_nat n)) as E.
  { unfold ofNat, Qminus, Z.sub. by rewrite inject_Z_plus, inject_Z_opp. }
  unfold Double.sub. rewrite (round_proper _ _ E), E.
  apply round_integer. lia.
Qed.

(** The substring score against the score 0.6 of a scattered match: it
    is above when the text is at most three times as long as the query,
    and below otherwise. *)
Lemma double_containsScore_above h n :
  (0 < n)%nat → (n < h)%nat → (Z.of_nat h < 2 ^ 48)%Z →
  round (6 # 10) < UtilsDouble.containsScore h n ↔ (h ≤ 3 * n)%nat.
Proof.
  intros Hn Hh Hb. unfold UtilsDouble.containsScore.
  pose proof (ofNat_pos n Hn) as HN. pose proof (ofNat_lt n h Hh) as HH.
  pose proof (double_length_sub h n ltac:(lia) ltac:(lia)) as Hd.
  assert (ofNat h <= 281474976710655) as HB.
  { unfold ofNat. change 281474976710655 with (inject_Z 281474976710655). rewrite <- Zle_Qle. lia. }
  assert (round (3 # 10) == 5404319552844595 # 18014398509481984) as E3
    by (vm_compute; reflexivity).
  assert (round (8 # 10) == 3602879701896397 # 4503599627370496) as E8
    by (vm_compute; reflexivity).
  assert (round (6 # 10) == 5404319552844595 # 9007199254740992) as E6
    by (vm_compute; reflexivity).
  assert (pow2 (-53) == 1 # 9007199254740992) as Eu by (vm_compute; reflexivity).
  destruct (lt_eq_lt_dec h (3 * n)) as [[Hlt|Heq]|Hgt].
  - split; [lia|]. intros _.
    assert (ofNat h + 1 <= 3 * ofNat n) as H3.
    { unfold ofNat. change 1 with (inject_Z 1). change 3 with (inject_Z 3).
      rewrite <- inject_Z_plus, <- inject_Z_mult, <- Zle_Qle. lia. }
    unfold Double.div, Double.mul, Double.sub at 1.
    set (x := Double.sub (ofNat h) (ofNat n) / ofNat h).
    assert (x * ofNat h == ofNat h - ofNat n) as Hx.
    { unfold x. rewrite Hd. field. lra. }
    assert (0 < x) as Hx0.
    { apply Qnot_le_lt. intros Hc. assert (x * ofNat h <= 0) by nra. lra. }
    assert (x <= (2 # 3) - (1 # 844424930131968)) as Hx1.
    { apply Qnot_lt_le. intros Hc.
      assert (((2 # 3) - (1 # 844424930131968)) * ofNat h < x * ofNat h) by nra. lra. }
    destruct (round_pos x Hx0) as (Hq0 & Hq1 & Hq2).
    set (q := round x) in *.
    assert (0 < q * round (3 # 10)) as Hp.
    { rewrite E3. lra. }
    destruct (round_pos _ Hp) as (Hp0 & Hp1 & Hp2).
    set (p := round (q * round (3 # 10))) in *.
    rewrite E3, Eu in Hp1, Hp2. rewrite Eu in Hq1, Hq2.
    assert (0 < round (8 # 10) - p) as Hs.
    { rewrite E8. lra. }
    destruct (round_pos _ Hs) as (Hs0 & Hs1 & Hs2).
    set (s := round (round (8 # 10) - p)) in *.
    rewrite E8, Eu in Hs1, Hs2. rewrite E6. lra.
  - split; [lia|]. intros _.
    assert (Double.div (Double.sub (ofNat h) (ofNat n)) (ofNat h) = round (2 # 3)) as ->.
    { unfold Double.div. apply round_proper. rewrite Hd.
      assert (ofNat h == 3 * ofNat n) as ->.
      { unfold ofNat. change 3 with (inject_Z 3).
        rewrite <- inject_Z_mult. apply inject_Z_injective. lia. }
      field. lra. }
    vm_compute. reflexivity.
  - split; [|lia]. intros Hc. exfalso.
    assert (3 * ofNat n + 1 <= ofNat h) as H3.
    { unfold ofNat. change 1 with (inject_Z 1). change 3 with (inject_Z 3).
      rewrite <- inject_Z_mult, <- inject_Z_plus, <- Zle_Qle. lia. }
    unfold Double.div, Double.mul, Double.sub at 1 in Hc.
    set (x := Double.sub (ofNat h) (ofNat n) / ofNat h) in Hc.
    assert (x * ofNat h == ofNat h - ofNat n) as Hx.
    { unfold x. rewrite Hd. field. lra. }
    assert (x < 1) as Hx0.
    { apply Qnot_le_lt. intros Hc'. assert (ofNat h <= x * ofNat h) by nra. lra. }
    assert ((2 # 3) + (1 # 844424930131968) <= x) as Hx1.
    { apply Qnot_lt_le. intros Hc'.
      assert (x * ofNat h < ((2 # 3) + (1 # 844424930131968)) * ofNat h) by nra. lra. }
    destruct (round_pos x ltac:(lra)) as (Hq0 & Hq1 & Hq2).
    set (q := round x) in *.
    assert (0 < q * round (3 # 10)) as Hp.
    { rewrite E3. lra. }
    destruct (round_pos _ Hp) as (Hp0 & Hp1 & Hp2).
    set (p := round (q * round (3 # 10))) in *.
    rewrite E3, Eu in Hp1, Hp2. rewrite Eu in Hq1, Hq2.
    assert (0 < round (8 # 10) - p) as Hs.
    { rewrite E8. lra. }
    destruct (round_pos _ Hs) as (Hs0 & Hs1 & Hs2).
    set (s := round (round (8 # 10) - p)) in *.
    rewrite E8, Eu in Hs1, Hs2. rewrite E6 in Hc. lra.
Qed.

End UtilsDoubleFacts.

Module FuzzySearchSpec.
Import JsString JsStringFacts Utils UtilsFacts Double DoubleFacts UtilsDoubleFacts.
Local Open Scope Q_scope.

Lemma Subsequence_nonempty needle hay : needle ≠ "" → Subsequence needle hay → hay ≠ "".
Proof.
  intros Hn S ->. unfold Subsequence in S. simpl in S.
  apply sublist_nil_r, chars_empty in S. done.
Qed.

Lemma fuzzySearch_contains_range needle haystack :
  needle ≠ "" → haystack ≠ "" → toLowerCase haystack ≠ toLowerCase needle →
  Substring (toLowerCase needle) (toLowerCase haystack) →
  (1 # 2) < fuzzySearch needle haystack ∧ fuzzySearch needle haystack < (8 # 10).
Proof.
  intros Hn Hh E S. rewrite fuzzySearch_contains by done.
  apply containsScore_range.
  - destruct (length needle) eqn:L; [by apply length_zero in L | lia].
  - rewrite <- (length_toLowerCase needle), <- (length_toLowerCase haystack).
    by apply Substring_proper_length.
Qed.

(** The value is one of 0, 1, 0.6 or a substring score. *)
Lemma fuzzySearch_unit_interval needle haystack :
  0 <= fuzzySearch needle haystack ∧ fuzzySearch needle haystack <= 1.
Proof.
  destruct (decide (needle = "")) as [->|Hn].
  { rewrite fuzzySearch_empty by (by left). lra. }
  destruct (decide (haystack = "")) as [->|Hh].
  { rewrite fuzzySearch_empty by (by right). lra. }
  destruct (decide (toLowerCase haystack = toLowerCase needle)) as [E|E].
  { rewrite fuzzySearch_exact by done. lra. }
  destruct (includes (toLowerCase haystack) (toLowerCase needle)) eqn:I.
  { apply includes_spec in I.
    destruct (fuzzySearch_contains_range needle haystack) as [? ?]; [done..|lra]. }
  assert (¬ Substring (toLowerCase needle) (toLowerCase haystack)) as S.
  { intros S. apply includes_spec in S. congruence. }
  destruct (Subsequence_cases (toLowerCase needle) (toLowerCase haystack)) as [Q|Q].
  - rewrite fuzzySearch_scattered by done. lra.
  - rewrite fuzzySearch_nomatch by done. lra.
Qed.

Lemma toLowerCase_empty s : toLowerCase s = "" → s = "".
Proof.
  intros E. destruct (decide (s = "")) as [|Hs]; [done|].
  by apply toLowerCase_nonempty in Hs.
Qed.

Lemma Substring_nonempty needle hay : needle ≠ "" → Substring needle hay → hay ≠ "".
Proof. intros Hn S. by apply (Subsequence_nonempty needle), Substring_Subsequence. Qed.

Lemma Substring_empty hay : Substring "" hay.
Proof. by exists [], (chars hay). Qed.

(** C10. [fuzzySearch] returns a number between 0 and 1: 1 on a
    case-insensitive exact match, a value above 0.5 and at most 0.8 on a
    substring match, at most 0.6 when the needle occurs only as a
    subsequence, and 0 when an argument is empty or the needle is not a
    subsequence of the haystack.  The cases are taken in this order, the
    empty arguments first. *)
Theorem fuzzySearch_range needle haystack :
  (0 <= fuzzySearch needle haystack ∧ fuzzySearch needle haystack <= 1) ∧
  (needle ≠ "" → toLowerCase haystack = toLowerCase needle →
     fuzzySearch needle haystack == 1) ∧
  (needle ≠ "" → toLowerCase haystack ≠ toLowerCase needle →
     Substring (toLowerCase needle) (toLowerCase haystack) →
     (1 # 2) < fuzzySearch needle haystack ∧ fuzzySearch needle haystack <= (8 # 10)) ∧
  (¬ Substring (toLowerCase needle) (toLowerCase haystack) →
     Subsequence (toLowerCase needle) (toLowerCase haystack) →
     fuzzySearch needle haystack <= (6 # 10)) ∧
  (needle = "" ∨ haystack = "" ∨ ¬ Subsequence (toLowerCase needle) (toLowerCase haystack) →
     fuzzySearch needle haystack == 0).
Proof.
  split; [apply fuzzySearch_unit_interval|].
  split; [|split; [|split]].
  - intros Hn E.
    assert (haystack ≠ "") as Hh.
    { intros ->. by apply Hn, toLowerCase_empty. }
    by rewrite fuzzySearch_exact.
  - intros Hn E S.
    assert (haystack ≠ "") as Hh.
    { intros ->. by apply (Substring_nonempty _ _ (toLowerCase_nonempty _ Hn)) in S. }
    destruct (fuzzySearch_contains_range needle haystack) as [? ?]; [done..|].
    split; [done | by apply Qlt_le_weak].
  - intros S Q.
    assert (needle ≠ "") as Hn.
    { intros ->. apply S, Substring_empty. }
    assert (haystack ≠ "") as Hh.
    { intros ->. by apply (Subsequence_nonempty _ _ (toLowerCase_nonempty _ Hn)) in Q. }
    rewrite fuzzySearch_scattered by done. lra.
  - intros [->|[->|Q]].
    + by rewrite fuzzySearch_empty by (by left).
    + by rewrite fuzzySearch_empty by (by right).
    + by rewrite fuzzySearch_nomatch.
Qed.

Lemma fuzzySearch_range_witness :
  (1 # 2) < fuzzySearch "Sl" "slash" ∧ fuzzySearch "Sl" "slash" <= (8 # 10).
Proof.
  apply (proj1 (proj2 (proj2 (fuzzySearch_range "Sl" "slash")))).
  - done.
  - done.
  - exists [], (chars "ash"). reflexivity.
Defined.

(** C5, as stated, fails: the query "ab" is a substring of "abxxxxxx" and
    only a scattered subsequence of "axb", yet the substring match scores
    0.575 and the subsequence match 0.6; in the doubles of the code,
    0.5750000000000001 and 0.6. *)
Lemma fuzzySearch_substring_below_subsequence :
  Substring (toLowerCase "ab") (toLowerCase "abxxxxxx") ∧
  Subsequence (toLowerCase "ab") (toLowerCase "axb") ∧
  ¬ Substring (toLowerCase "ab") (toLowerCase "axb") ∧
  fuzzySearch "ab" "abxxxxxx" == (575 # 1000) ∧
  fuzzySearch "ab" "axb" == (6 # 10) ∧
  ¬ (fuzzySearch "ab" "axb" < fuzzySearch "ab" "abxxxxxx") ∧
  UtilsDouble.fuzzySearch "ab" "abxxxxxx" == (5179139571476071 # 9007199254740992) ∧
  UtilsDouble.fuzzySearch "ab" "axb" == (5404319552844595 # 9007199254740992) ∧
  ¬ (UtilsDouble.fuzzySearch "ab" "axb" < UtilsDouble.fuzzySearch "ab" "abxxxxxx").
Proof.
  split; [|split; [|split; [|split; [|split; [|split; [|split; [|split]]]]]]].
  - exists [], (chars "xxxxxx"). reflexivity.
  - unfold Subsequence. vm_compute. apply sublist_skip, sublist_cons, sublist_skip, sublist_nil.
  - intros S. apply includes_spec in S. vm_compute in S. discriminate.
  - reflexivity.
  - reflexivity.
  - vm_compute. discriminate.
  - vm_compute. reflexivity.
  - vm_compute. reflexivity.
  - vm_compute. discriminate.
Qed.

(** At a text exactly three times as long as the query the exact value
    of the substring score is 0.6, the score of a scattered match; the
    code computes 0.6000000000000001, which is above the double 0.6. *)
Example fuzzy_boundary :
  fuzzySearch "ab" "abxxxx" == fuzzySearch "ab" "axb" ∧
  UtilsDouble.fuzzySearch "ab" "abxxxx" == (1351079888211149 # 2251799813685248) ∧
  UtilsDouble.fuzzySearch "ab" "axb" < UtilsDouble.fuzzySearch "ab" "abxxxx".
Proof. repeat split; vm_compute; reflexivity. Qed.

(** C5, amended.  With the scores as the code computes them, in doubles,
    a match of the query as the whole text or as a contiguous substring
    outscores a match as a scattered subsequence exactly when the text is
    at most three times as long as the query, for a text of fewer than
    2^48 characters; an exact match always is. *)
Theorem fuzzySearch_substring_vs_subsequence query text1 text2 :
  Substring (toLowerCase query) (toLowerCase text1) →
  Subsequence (toLowerCase query) (toLowerCase text2) →
  ¬ Substring (toLowerCase query) (toLowerCase text2) →
  (Z.of_nat (length text1) < 2 ^ 48)%Z →
  UtilsDouble.fuzzySearch query text2 < UtilsDouble.fuzzySearch query text1
    ↔ (length text1 ≤ 3 * length query)%nat.
Proof.
  intros S1 Q2 S2 Hb.
  assert (query ≠ "") as Hq.
  { intros ->. apply S2, Substring_empty. }
  assert (0 < length query)%nat as Hlen.
  { destruct (length query) eqn:L; [by apply length_zero in L | lia]. }
  assert (text1 ≠ "") as H1.
  { intros ->. apply Substring_length in S1. rewrite !length_toLowerCase in S1.
    simpl in S1. unfold length at 2 in S1. simpl in S1. lia. }
  assert (text2 ≠ "") as H2.
  { intros ->. apply (Subsequence_nonempty _ _ (toLowerCase_nonempty _ Hq)) in Q2. done. }
  rewrite (double_scattered query text2) by done.
  destruct (decide (toLowerCase text1 = toLowerCase query)) as [E|E].
  - rewrite double_exact by done.
    assert (length text1 = length query) as ->.
    { by rewrite <- (length_toLowerCase text1), E, length_toLowerCase. }
    split; [lia | intros _; vm_compute; reflexivity].
  - rewrite double_contains by done.
    apply double_containsScore_above; [done | | done].
    rewrite <- (length_toLowerCase query), <- (length_toLowerCase text1).
    by apply Substring_proper_length.
Qed.

Lemma fuzzySearch_substring_vs_subsequence_witness :
  UtilsDouble.fuzzySearch "ab" "axb" < UtilsDouble.fuzzySearch "ab" "abxxxx"
  ↔ (length "abxxxx" ≤ 3 * length "ab")%nat.
Proof.
  apply (fuzzySearch_substring_vs_subsequence "ab" "abxxxx" "axb").
  - exists [], (chars "xxxx"). reflexivity.
  - unfold Subsequence. vm_compute. apply sublist_skip, sublist_cons, sublist_skip, sublist_nil.
  - intros S. apply includes_spec in S. vm_compute in S. discriminate.
  - reflexivity.
Defined.

End FuzzySearchSpec.

(** ** Facts about arrays: the stable sort *)

Module JsArrayFacts.
Import JsArray.
Local Open Scope Q_scope.

Section Generic.
Context {A : Type}.
Implicit Types (l : list A) (compare : A → A → Q).

Lemma insertBy_perm compare x l : insertBy compare x l ≡ₚ x :: l.
Proof.
  induction l as [|y l IH]; simpl; [done|].
  destruct (Qlt_le_dec 0 (compare x y)); [|done].
  rewrite IH. apply perm_swap.
Qed.

Lemma sort_perm compare l : sort compare l ≡ₚ l.
Proof.
  induction l as [|x l IH]; simpl; [done|].
  by rewrite insertBy_perm, IH.
Qed.

Lemma pushEach_from {B} (keep : A → bool) (make : A → B) l acc :
  fold_left (λ acc x, if keep x then acc ++ [make x] else acc) l acc
  = acc ++ (make <$> List.filter keep l).
Proof.
  revert acc. induction l as [|x l IH]; intros acc; simpl.
  - by rewrite app_nil_r.
  - rewrite IH. destruct (keep x); [|done].
    by rewrite <- app_assoc.
Qed.

(** The loop that pushes the kept elements builds the filtered, mapped
    array, in the order of the input. *)
Lemma pushEach_filter {B} (keep : A → bool) (make : A → B) l :
  pushEach keep make l = make <$> List.filter keep l.
Proof. unfold pushEach. by rewrite pushEach_from. Qed.

Lemma indexFrom_snd n l : snd <$> indexFrom n l = l.
Proof.
  revert n. induction l as [|x l IH]; intros n; simpl; [done|]. by rewrite IH.
Qed.

Lemma indexFrom_lookup n l p x : (p, x) ∈ indexFrom n l → (n ≤ p)%nat ∧ l !! (p - n)%nat = Some x.
Proof.
  revert n. induction l as [|y l IH]; intros n; simpl.
  - by intros ?%elem_of_nil.
  - rewrite elem_of_cons. intros [[= -> ->] | H].
    + split; [lia|]. by rewrite Nat.sub_diag.
    + apply IH in H as [Hle Hl]. split; [lia|].
      replace (p - n)%nat with (S (p - S n)) by lia. done.
Qed.

Lemma indexFrom_increasing n l :
  StronglySorted (λ x y : nat * A, (fst x < fst y)%nat) (indexFrom n l).
Proof.
  revert n. induction l as [|y l IH]; intros n; simpl; constructor; [apply IH|].
  apply Forall_forall. intros [p x] H%indexFrom_lookup. simpl. lia.
Qed.

Lemma indexFrom_filter (keep : A → bool) n l :
  snd <$> List.filter (λ x, keep (snd x)) (indexFrom n l) = List.filter keep l.
Proof.
  revert n. induction l as [|y l IH]; intros n; simpl; [done|].
  destruct (keep y); simpl; by rewrite IH.
Qed.

End Generic.

Section Projection.
Context {A B : Type} (f : A → B) (compareA : A → A → Q) (compareB : B → B → Q).
Hypothesis compare_f : ∀ x y, compareA x y = compareB (f x) (f y).

Lemma insertBy_fmap x l :
  f <$> insertBy compareA x l = insertBy compareB (f x) (f <$> l).
Proof.
  induction l as [|y l IH]; [done|].
  rewrite fmap_cons. cbn [insertBy]. rewrite <- compare_f.
  destruct (Qlt_le_dec 0 (compareA x y)); rewrite !fmap_cons; [by rewrite IH | done].
Qed.

(** Sorting commutes with a projection that the comparator factors
    through. *)
Lemma sort_fmap l : f <$> sort compareA l = sort compareB (f <$> l).
Proof.
  induction l as [|x l IH]; [done|].
  rewrite fmap_cons. cbn [sort]. by rewrite insertBy_fmap, IH.
Qed.

End Projection.

Section Ranking.
Context {A : Type} (key : A → Q).

Lemma insertBy_ranked x sorted :
  StronglySorted (rankedBefore key) sorted →
  Forall (λ y, (fst x < fst y)%nat) sorted →
  StronglySorted (rankedBefore key) (insertBy (descending key) x sorted).
Proof.
  induction sorted as [|y sorted IH]; intros Hs Hx; simpl.
  - repeat constructor.
  - apply StronglySorted_inv in Hs as [Hs Hy].
    apply Forall_cons in Hx as [Hxy Hx].
    destruct (Qlt_le_dec 0 (descending key x y)) as [Hlt|Hle]; unfold descending in *.
    + constructor; [by apply IH|].
      rewrite insertBy_perm. constructor; [|done].
      left. simpl. lra.
    + constructor; [by constructor|].
      constructor.
      * destruct (Qlt_le_dec (key (snd y)) (key (snd x))); [by left|].
        right. split; [lra | done].
      * rewrite Forall_forall in Hy, Hx |- *. intros z Hz.
        specialize (Hy z Hz). specialize (Hx z Hz).
        destruct (Qlt_le_dec (key (snd z)) (key (snd x))); [by left|].
        right. split; [|done].
        destruct Hy as [?|[? ?]]; lra.
Qed.

(** Stability: sorting an array whose elements carry their positions
    puts a larger key first and, among equal keys, the earlier
    position first. *)
Lemma sort_ranked l :
  StronglySorted (λ x y : nat * A, (fst x < fst y)%nat) l →
  StronglySorted (rankedBefore key) (sort (descending key) l).
Proof.
  induction l as [|x l IH]; intros Hl; simpl; [constructor|].
  apply StronglySorted_inv in Hl as [Hl Hx].
  apply insertBy_ranked; [by apply IH|].
  by rewrite sort_perm.
Qed.

End Ranking.

Lemma StronglySorted_lookup {A} (R : A → A → Prop) (l : list A) i j x y :
  StronglySorted R l → (i < j)%nat → l !! i = Some x → l !! j = Some y → R x y.
Proof.
  intros Hl. revert i j. induction Hl as [|z l Hl IH Hz]; intros i j Hij Hi Hj; [done|].
  destruct j as [|j]; [lia|]. simpl in Hj.
  destruct i as [|i]; simpl in Hi.
  - injection Hi as ->. rewrite Forall_forall in Hz. apply Hz.
    by eapply list_elem_of_lookup_2.
  - apply (IH i j); [lia | done..].
Qed.

Lemma StronglySorted_filter {A} (R : A → A → Prop) (keep : A → bool) (l : list A) :
  StronglySorted R l → StronglySorted R (List.filter keep l).
Proof.
  induction 1 as [|x l Hl IH Hx]; simpl; [constructor|].
  destruct (keep x); [|done]. constructor; [done|].
  rewrite Forall_forall in Hx |- *. intros y Hy. apply Hx.
  apply list_elem_of_In in Hy. apply filter_In in Hy as [Hy _]. by apply list_elem_of_In.
Qed.

Lemma StronglySorted_fmap {A B} (R : B → B → Prop) (f : A → B) (l : list A) :
  StronglySorted (λ x y, R (f x) (f y)) l → StronglySorted R (f <$> l).
Proof.
  induction 1 as [|x l Hl IH Hx]; simpl; constructor; [done|].
  by apply Forall_fmap.
Qed.

End JsArrayFacts.

(** ** DataService.searchFeatures *)

Module SearchFacts.
Import JsString JsStringFacts JsArray JsArrayFacts DataService.
Local Open Scope Q_scope.

Section WithScorer.
Variable scorer : string → string → Feature.t → Q.
Variables (features : list Feature.t) (query language : string).

Abbreviation searchTerm := (trim (toLowerCase query)).

Lemma positive_true feature :
  positive scorer searchTerm language feature = true ↔ 0 < scorer searchTerm language feature.
Proof.
  unfold positive. destruct (Qlt_le_dec 0 _); split; try done. intros ?. lra.
Qed.

Lemma blank_guard : Blank query →
  negb (truthy query) || String.eqb (trim query) "" = true.
Proof.
  intros H. apply trim_empty in H. rewrite H, String.eqb_refl. apply orb_true_r.
Qed.

Lemma nonblank_guard : ¬ Blank query →
  negb (truthy query) || String.eqb (trim query) "" = false.
Proof.
  intros H. apply orb_false_iff. split.
  - apply negb_false_iff, truthy_true. intros ->. apply H. constructor.
  - apply String.eqb_neq. intros E. by apply H, trim_empty.
Qed.

(** The early return. *)
Lemma searchFeaturesWith_blank : Blank query →
  searchFeaturesWith scorer features query language = features.
Proof. intros H. unfold searchFeaturesWith. by rewrite (blank_guard H). Qed.

(** Without the early return, the function is filter, sort, project. *)
Lemma searchFeaturesWith_ranked : ¬ Blank query →
  searchFeaturesWith scorer features query language
  = Scored.feature
      <$> sort byScoreDescending
            (scored scorer searchTerm language
               <$> List.filter (positive scorer searchTerm language) features).
Proof.
  intros H. unfold searchFeaturesWith. rewrite (nonblank_guard H).
  by rewrite pushEach_filter.
Qed.

(** The same array, computed with the positions carried along. *)
Lemma rankedWith_snd :
  snd <$> rankedWith scorer features query language
  = sort byScoreDescending
      (scored scorer searchTerm language
         <$> List.filter (positive scorer searchTerm language) features).
Proof.
  unfold rankedWith.
  rewrite (sort_fmap snd _ byScoreDescending) by done.
  rewrite pushEach_filter. f_equal.
  rewrite <- list_fmap_compose.
  rewrite <- (indexFrom_filter (positive scorer searchTerm language) 0 features).
  by rewrite <- list_fmap_compose.
Qed.

Lemma searchFeaturesWith_positions : ¬ Blank query →
  searchFeaturesWith scorer features query language
  = (λ x, Scored.feature (snd x)) <$> rankedWith scorer features query language.
Proof.
  intros H. rewrite (searchFeaturesWith_ranked H), <- rankedWith_snd.
  by rewrite <- list_fmap_compose.
Qed.

Lemma rankedWith_elem p s :
  (p, s) ∈ rankedWith scorer features query language →
  features !! p = Some (Scored.feature s) ∧
  Scored.searchScore s = scorer searchTerm language (Scored.feature s) ∧
  0 < Scored.searchScore s.
Proof.
  unfold rankedWith. rewrite sort_perm, pushEach_filter.
  intros ([r f] & [= -> ->] & Hin)%list_elem_of_fmap. simpl in *.
  apply list_elem_of_In, filter_In in Hin as [Hin Hpos]. simpl in Hpos.
  apply list_elem_of_In, indexFrom_lookup in Hin as [_ Hin].
  rewrite Nat.sub_0_r in Hin. repeat split; [done|].
  by apply positive_true.
Qed.

Lemma rankedWith_sorted :
  StronglySorted (rankedBefore Scored.searchScore) (rankedWith scorer features query language).
Proof.
  unfold rankedWith. apply (sort_ranked Scored.searchScore).
  rewrite pushEach_filter. apply StronglySorted_fmap. simpl.
  apply StronglySorted_filter, indexFrom_increasing.
Qed.

(** The result holds the records of positive score, each as often as
    the input has it. *)
Lemma searchFeaturesWith_perm : ¬ Blank query →
  searchFeaturesWith scorer features query language
  ≡ₚ List.filter (positive scorer searchTerm language) features.
Proof.
  intros H. rewrite (searchFeaturesWith_ranked H), sort_perm, <- list_fmap_compose.
  by rewrite list_fmap_id.
Qed.

Lemma searchFeaturesWith_elem feature : ¬ Blank query →
  feature ∈ searchFeaturesWith scorer features query language
  ↔ feature ∈ features ∧ 0 < scorer searchTerm language feature.
Proof.
  intros H. rewrite (searchFeaturesWith_perm H), <- positive_true.
  rewrite !list_elem_of_In. apply filter_In.
Qed.

(** Ranking, with positions: of two results, the earlier one has the
    larger score, or the same score and the earlier place in the
    input. *)
Lemma searchFeaturesWith_stable i j a b : ¬ Blank query →
  (i < j)%nat →
  searchFeaturesWith scorer features query language !! i = Some a →
  searchFeaturesWith scorer features query language !! j = Some b →
  ∃ p r, features !! p = Some a ∧ features !! r = Some b ∧
    (scorer searchTerm language b < scorer searchTerm language a
     ∨ (scorer searchTerm language a == scorer searchTerm language b ∧ (p < r)%nat)).
Proof.
  intros H Hij Ha Hb. rewrite (searchFeaturesWith_positions H) in Ha, Hb.
  apply list_lookup_fmap_Some in Ha as ([p sa] & -> & Ha).
  apply list_lookup_fmap_Some in Hb as ([r sb] & -> & Hb).
  pose proof (StronglySorted_lookup _ _ _ _ _ _ rankedWith_sorted Hij Ha Hb) as Hr.
  apply list_elem_of_lookup_2, rankedWith_elem in Ha as (Ha & Hsa & _).
  apply list_elem_of_lookup_2, rankedWith_elem in Hb as (Hb & Hsb & _).
  exists p, r. simpl. repeat split; [done..|].
  unfold rankedBefore in Hr. simpl in Hr. by rewrite Hsa, Hsb in Hr.
Qed.

End WithScorer.

End SearchFacts.

(** ** The scorer *)

Module ScoringFacts.
Import JsString JsStringFacts UtilsFacts DataService.
Local Open Scope Q_scope.

Lemma fold_left_increasing {A} (step : Q → A → Q) (l : list A) (score : Q) :
  (∀ score x, score <= step score x) → score <= fold_left step l score.
Proof.
  intros Hstep. revert score. induction l as [|x l IH]; intros score; simpl; [lra|].
  eapply Qle_trans; [apply (Hstep score x) | apply IH].
Qed.

(** No step of the loop lowers the score. *)
Lemma titleMatch_increasing searchTerm title score :
  score <= titleMatch searchTerm title score.
Proof. unfold titleMatch. repeat case_match; lra. Qed.

Lemma titleMatch_includes searchTerm title score :
  includes (toLowerCase title) searchTerm = true →
  score + 100 <= titleMatch searchTerm title score.
Proof. unfold titleMatch. intros ->. case_match; lra. Qed.

Lemma descriptionMatch_increasing searchTerm description score :
  score <= descriptionMatch searchTerm description score.
Proof. unfold descriptionMatch. case_match; lra. Qed.

Lemma tagsMatch_increasing searchTerm tags score :
  score <= tagsMatch searchTerm tags score.
Proof.
  apply fold_left_increasing. intros s tag. cbv zeta. repeat case_match; lra.
Qed.

Lemma examplesMatch_increasing searchTerm examples score :
  score <= examplesMatch searchTerm examples score.
Proof.
  apply fold_left_increasing. intros s example. cbv zeta. case_match; lra.
Qed.

Lemma detailsMatch_increasing searchTerm details score :
  score <= detailsMatch searchTerm details score.
Proof. unfold detailsMatch. case_match; lra. Qed.

Lemma categoryMatch_increasing this searchTerm feature score :
  score <= categoryMatch this searchTerm feature score.
Proof. unfold categoryMatch. repeat case_match; lra. Qed.

Lemma calculateFuzzyScore_nonneg searchTerm title description tags :
  0 <= calculateFuzzyScore searchTerm title description tags.
Proof.
  unfold calculateFuzzyScore. destruct (Qlt_le_dec 10 _); lra.
Qed.

(** The score is at least what the title earns. *)
Lemma scoreFeature_title this searchTerm language feature :
  titleMatch searchTerm (localized (Feature.title feature) language) 0
  <= scoreFeature this searchTerm language feature.
Proof.
  unfold scoreFeature. cbv zeta.
  pose proof (calculateFuzzyScore_nonneg searchTerm
    (localized (Feature.title feature) language)
    (localized (Feature.description feature) language)
    (default [] (Feature.tags feature))) as Hfuzzy.
  set (s1 := titleMatch _ _ _).
  set (s2 := descriptionMatch _ _ _).
  set (s3 := tagsMatch _ _ _).
  set (s4 := examplesMatch _ _ _).
  set (s5 := detailsMatch _ _ _).
  set (s6 := categoryMatch _ _ _ _).
  pose proof (descriptionMatch_increasing searchTerm
    (localized (Feature.description feature) language) s1) as H2.
  pose proof (tagsMatch_increasing searchTerm (default [] (Feature.tags feature)) s2) as H3.
  pose proof (examplesMatch_increasing searchTerm (default [] (Feature.examples feature)) s3) as H4.
  pose proof (detailsMatch_increasing searchTerm
    (localized (Feature.details feature) language) s4) as H5.
  pose proof (categoryMatch_increasing this searchTerm feature s5) as H6.
  fold s2 in H2. fold s3 in H3. fold s4 in H4. fold s5 in H5. fold s6 in H6.
  lra.
Qed.

(** Against the empty search term every record scores, by its title
    alone, 100 or more. *)
Lemma scoreFeature_empty_term this language feature :
  100 <= scoreFeature this "" language feature.
Proof.
  eapply Qle_trans; [|apply scoreFeature_title].
  eapply Qle_trans; [|apply titleMatch_includes, includes_empty]. lra.
Qed.

End ScoringFacts.

(** ** DataService.searchFeatures in doubles *)

Module DoubleSearchFacts.
Import JsString JsArray JsArrayFacts DataService Double DoubleFacts.
Local Open Scope Q_scope.

(** The sort looks at the sign of the comparator only. *)
Lemma sort_sign {A} (c1 c2 : A → A → Q) (l : list A) :
  (∀ x y, 0 < c1 x y ↔ 0 < c2 x y) → sort c1 l = sort c2 l.
Proof.
  intros Hc. induction l as [|x l IH]; [done|]. cbn [sort]. rewrite IH.
  generalize (sort c2 l). intros s. induction s as [|y s IHs]; [done|]. cbn [insertBy].
  pose proof (Hc x y) as [H1 H2].
  destruct (Qlt_le_dec 0 (c1 x y)) as [L1|L1], (Qlt_le_dec 0 (c2 x y)) as [L2|L2].
  - by rewrite IHs.
  - apply H1 in L1. lra.
  - apply H2 in L2. lra.
  - done.
Qed.

(** The rounded difference of two scores has the sign of their
    difference, so that the search in doubles is the search by the scores
    in doubles. *)
Lemma double_searchFeatures this features query language :
  DataServiceDouble.searchFeatures this features query language
  = searchFeaturesWith (DataServiceDouble.scoreFeature this) features query language.
Proof.
  unfold DataServiceDouble.searchFeatures, searchFeaturesWith.
  destruct (negb (truthy query) || String.eqb (trim query) ""); [done|]. cbv zeta.
  f_equal. apply sort_sign. intros x y.
  unfold DataServiceDouble.byScoreDescending, byScoreDescending, Double.sub.
  apply round_sign.
Qed.

End DoubleSearchFacts.

Module SearchSpec.
Import JsString JsStringFacts JsArray JsArrayFacts DataService SearchFacts ScoringFacts.
Import DoubleSearchFacts.
Local Open Scope Q_scope.

(** The scenario of the specification: "command" finds both records, in
    the order of the store, and "slash" finds the first only. *)
Example search_command :
  searchFeatures Scenario.loaded Scenario.store "command" "en" = Scenario.store.
Proof. vm_compute. reflexivity. Qed.

Example search_slash :
  searchFeatures Scenario.loaded Scenario.store "slash" "en" = [Scenario.slash].
Proof. vm_compute. reflexivity. Qed.

Lemma Blank_cases query : Blank query ∨ ¬ Blank query.
Proof.
  destruct (decide (trim query = "")) as [E|E].
  - left. by apply trim_empty.
  - right. intros H. by apply E, trim_empty.
Qed.

(** Against a blank query every record has a positive total score. *)
Lemma totalScore_blank this query language feature :
  Blank query → 0 < totalScore this query language feature.
Proof.
  intros H. unfold totalScore. rewrite (blank_searchTerm _ H).
  pose proof (scoreFeature_empty_term this language feature). lra.
Qed.

(** C1, as stated, fails for a query of white space, which is not empty:
    the records come back in the order of the input, here the one of total
    score 230 before the one of total score 290 (the same numbers in the
    doubles of the code). *)
Lemma searchFeatures_space_unranked :
  " " ≠ "" ∧
  searchFeatures Scenario.loaded [Scenario.memory; Scenario.slashCli] " " "en" !! 0%nat
    = Some Scenario.memory ∧
  searchFeatures Scenario.loaded [Scenario.memory; Scenario.slashCli] " " "en" !! 1%nat
    = Some Scenario.slashCli ∧
  totalScore Scenario.loaded " " "en" Scenario.memory == 230 ∧
  totalScore Scenario.loaded " " "en" Scenario.slashCli == 290 ∧
  totalScore Scenario.loaded " " "en" Scenario.memory
    < totalScore Scenario.loaded " " "en" Scenario.slashCli ∧
  DataServiceDouble.searchFeatures Scenario.loaded [Scenario.memory; Scenario.slashCli] " " "en"
    = [Scenario.memory; Scenario.slashCli] ∧
  DataServiceDouble.totalScore Scenario.loaded " " "en" Scenario.memory == 230 ∧
  DataServiceDouble.totalScore Scenario.loaded " " "en" Scenario.slashCli == 290.
Proof.
  split; [done|]. split; [reflexivity|]. split; [reflexivity|].
  split; [reflexivity|]. split; [reflexivity|]. split; [reflexivity|].
  split; [reflexivity|]. split; vm_compute; reflexivity.
Qed.

(** Two records whose exact scores are equal, 1709/6, score
    284.8333333333333 and 284.83333333333337 in the doubles of the code:
    the code returns the second before the first. *)
Example rounding_decides :
  totalScore Scenario.loaded "ab" "en" Fixtures.tiedFirst
    == totalScore Scenario.loaded "ab" "en" Fixtures.tiedSecond ∧
  DataServiceDouble.totalScore Scenario.loaded "ab" "en" Fixtures.tiedFirst
    == (5010840991651157 # 17592186044416) ∧
  DataServiceDouble.totalScore Scenario.loaded "ab" "en" Fixtures.tiedSecond
    == (2505420495825579 # 8796093022208) ∧
  DataServiceDouble.searchFeatures Scenario.loaded [Fixtures.tiedFirst; Fixtures.tiedSecond]
    "ab" "en" = [Fixtures.tiedSecond; Fixtures.tiedFirst].
Proof. repeat split; vm_compute; reflexivity. Qed.

(** C1, amended.  With the scores as the code computes them, in doubles,
    the result of a search for a query that is neither empty nor all white
    space is ranked: of two returned records the earlier one has the
    strictly greater total score, or the same score and a place in the
    input no later than the other's. *)
Theorem searchFeatures_ordered this features query language i j a b :
  ¬ Blank query →
  (i < j)%nat →
  DataServiceDouble.searchFeatures this features query language !! i = Some a →
  DataServiceDouble.searchFeatures this features query language !! j = Some b →
  ∃ p r, features !! p = Some a ∧ features !! r = Some b ∧
    (DataServiceDouble.totalScore this query language b
       < DataServiceDouble.totalScore this query language a
     ∨ (DataServiceDouble.totalScore this query language a
          == DataServiceDouble.totalScore this query language b ∧ (p ≤ r)%nat)).
Proof.
  intros H Hij Ha Hb. rewrite double_searchFeatures in Ha, Hb.
  destruct (searchFeaturesWith_stable _ _ _ _ i j a b H Hij Ha Hb) as (p & r & Hp & Hr & Hs).
  exists p, r. repeat split; [done..|].
  unfold DataServiceDouble.totalScore.
  destruct Hs as [?|[? ?]]; [by left | right; split; [done | lia]].
Qed.

Lemma nonblank_command : ¬ Blank "command".
Proof. intros H. inversion H as [|? ? Hc _]. discriminate Hc. Qed.

Lemma searchFeatures_ordered_witness :
  ∃ p r, Scenario.store !! p = Some Scenario.slash ∧
         Scenario.store !! r = Some Scenario.background ∧
    (DataServiceDouble.totalScore Scenario.loaded "command" "en" Scenario.background
       < DataServiceDouble.totalScore Scenario.loaded "command" "en" Scenario.slash
     ∨ (DataServiceDouble.totalScore Scenario.loaded "command" "en" Scenario.slash
          == DataServiceDouble.totalScore Scenario.loaded "command" "en" Scenario.background
        ∧ (p ≤ r)%nat)).
Proof.
  apply (searchFeatures_ordered Scenario.loaded Scenario.store "command" "en" 0 1).
  - apply nonblank_command.
  - lia.
  - vm_compute. reflexivity.
  - vm_compute. reflexivity.
Defined.

(** C2. Every record returned for a query that is not empty has a total
    score above 0, and a record whose total score is 0 is not returned.
    (For a query of white space all records are returned, and all score
    against its search term, the empty string.) *)
Theorem searchFeatures_positive this features query language :
  query ≠ "" →
  (∀ feature, feature ∈ searchFeatures this features query language →
              0 < totalScore this query language feature) ∧
  (∀ feature, totalScore this query language feature == 0 →
              feature ∉ searchFeatures this features query language).
Proof.
  intros _.
  assert (∀ feature, feature ∈ searchFeatures this features query language →
                     0 < totalScore this query language feature) as Hpos.
  { intros feature Hin. destruct (Blank_cases query) as [H|H].
    - by apply totalScore_blank.
    - by apply (searchFeaturesWith_elem _ _ _ _ _ H) in Hin as [_ ?]. }
  split; [done|].
  intros feature Hz Hin. apply Hpos in Hin. lra.
Qed.

Lemma searchFeatures_positive_witness :
  0 < totalScore Scenario.loaded "command" "en" Scenario.slash.
Proof.
  apply (proj1 (searchFeatures_positive Scenario.loaded Scenario.store "command" "en"
                  ltac:(done))).
  vm_compute. apply list_elem_of_here.
Defined.

(** C3. A query that is empty or all white space gives back the input,
    in its order: whatever the scorer, it has no part in the result, and
    the service, its cache included, is as it was. *)
Theorem searchFeatures_blank this features query language :
  Blank query →
  searchFeatures this features query language = features ∧
  (∀ scorer, searchFeaturesWith scorer features query language = features) ∧
  invoke (λ this, searchFeatures this features query language) this = (Normal features, this).
Proof.
  intros H.
  split; [by apply searchFeaturesWith_blank|].
  split; [by intros scorer; apply searchFeaturesWith_blank|].
  unfold invoke, searchFeatures. by rewrite searchFeaturesWith_blank.
Qed.

Lemma searchFeatures_blank_witness :
  searchFeatures Scenario.loaded Scenario.store "  " "en" = Scenario.store.
Proof.
  apply (searchFeatures_blank Scenario.loaded Scenario.store "  " "en").
  repeat constructor.
Defined.

(** C9. For a query that is not empty, the returned records are the
    projections of the scored objects: each is a record of the input,
    with its fields and no score, and the scores stay behind.  (For a
    query of white space no scored object is built and the input itself
    is returned.) *)
Theorem searchFeatures_strips_score this features query language :
  query ≠ "" →
  Forall (λ feature, feature ∈ features) (searchFeatures this features query language) ∧
  (searchFeatures this features query language = features ∨
   ∃ ranked : list Scored.t,
     searchFeatures this features query language = Scored.feature <$> ranked ∧
     Forall (λ s, Scored.searchScore s = totalScore this query language (Scored.feature s))
       ranked).
Proof.
  intros _. destruct (Blank_cases query) as [H|H].
  - unfold searchFeatures. rewrite (searchFeaturesWith_blank _ _ _ _ H).
    split; [by apply Forall_forall | by left].
  - split.
    + apply Forall_forall. intros feature Hin.
      by apply (searchFeaturesWith_elem _ _ _ _ _ H) in Hin as [? _].
    + right. exists (snd <$> rankedWith (scoreFeature this) features query language).
      split.
      * unfold searchFeatures. rewrite (searchFeaturesWith_positions _ _ _ _ H).
        by rewrite <- list_fmap_compose.
      * apply Forall_fmap, Forall_forall. intros [p s] Hin. simpl.
        by apply rankedWith_elem in Hin as (_ & ? & _).
Qed.

Lemma searchFeatures_strips_score_witness :
  Forall (λ feature, feature ∈ Scenario.store)
    (searchFeatures Scenario.loaded Scenario.store "command" "en").
Proof.
  apply (searchFeatures_strips_score Scenario.loaded Scenario.store "command" "en").
  done.
Defined.

End SearchSpec.

(** ** Readiness *)

Module ReadinessSpec.
Import JsString JsStringFacts JsArrayFacts DataService SearchFacts.

(** C4, as stated, fails: a service that was only constructed, and one
    whose [init] failed after the features had arrived, both answer a
    search with a value. *)
Lemma searchFeatures_unloaded_returns :
  (initialized constructor = false ∧
   invoke (λ this, searchFeatures this (getAllFeatures this) "slash" "en") constructor
     = (Normal [], constructor)) ∧
  (fst Scenario.halfLoaded = Throw Rejected ∧
   initialized (snd Scenario.halfLoaded) = false ∧
   fst (invoke (λ this, searchFeatures this (getAllFeatures this) "slash" "en")
          (snd Scenario.halfLoaded))
     = Normal [Scenario.slash]) ∧
  ¬ (∀ this features query language,
       initialized this = false →
       fst (invoke (λ this, searchFeatures this features query language) this)
         = Throw NotReadyError).
Proof.
  split; [|split].
  - split; reflexivity.
  - split; [|split]; reflexivity.
  - intros H. specialize (H constructor [] "slash" "en" eq_refl). discriminate H.
Qed.

(** C4, amended.  Search has no readiness check: in every state of the
    service it returns a value and leaves the service as it was, the
    value does not depend on [initialized], and over the store of a
    service that was only constructed it is the empty sequence. *)
Theorem searchFeatures_no_readiness_check this features query language :
  (∃ result,
     invoke (λ this, searchFeatures this features query language) this = (Normal result, this)) ∧
  (∀ b, searchFeatures (setInitialized b this) features query language
        = searchFeatures this features query language) ∧
  searchFeatures constructor (getAllFeatures constructor) query language = [].
Proof.
  split; [|split].
  - by eexists.
  - done.
  - unfold searchFeatures, searchFeaturesWith. simpl.
    by destruct (negb (truthy query) || String.eqb (trim query) "").
Qed.

End ReadinessSpec.

(** ** DataService.filterFeatures *)

Module FilterFacts.
Import JsString JsStringFacts DataService Facet.

Lemma filter_all {A} (P : A → Prop) `{∀ x, Decision (P x)} (l : list A) :
  (∀ x, P x) → filter P l = l.
Proof.
  intros HP. induction l as [|x l IH]; [done|].
  rewrite filter_cons_True by done. by rewrite IH.
Qed.

(** One step of [filterFeatures]: a filter that is applied or skipped. *)
Lemma stage_filter {A} (active : bool) (P : A → Prop) `{∀ x, Decision (P x)} (l : list A) :
  (if active then filter P l else l) = filter (λ x, active = true → P x) l.
Proof.
  destruct active.
  - apply list_filter_iff. intros x. split; [by intros ? _ | by intros HP; apply HP].
  - by rewrite filter_all.
Qed.

Lemma selected_wildcard facet : selected facet = false ↔ wildcard facet.
Proof.
  unfold selected, wildcard. destruct facet as [value|]; [|split; [by left | done]].
  rewrite andb_false_iff, negb_false_iff, truthy_false, String.eqb_eq.
  split.
  - intros [->| ->]; [by right; left | by right; right].
  - intros [?|[[= ->]|[= ->]]]; [done | by left | by right].
Qed.

Lemma selected_holds facet value : (selected facet = true → value = facet) ↔ holds facet value.
Proof.
  unfold holds. rewrite <- selected_wildcard.
  destruct (selected facet); intuition congruence.
Qed.

Lemma hasAnyTag_true wanted feature :
  hasAnyTag wanted feature = true
  ↔ Exists (λ tag, tag ∈ default [] (Feature.tags feature)) wanted.
Proof.
  unfold hasAnyTag. rewrite existsb_exists, Exists_exists.
  split; intros (tag & Hin & H); exists tag; (split; [by apply list_elem_of_In|]).
  - destruct (Feature.tags feature); [by apply bool_decide_eq_true in H | done].
  - destruct (Feature.tags feature); [by apply bool_decide_eq_true | by apply elem_of_nil in H].
Qed.

Lemma tags_stage (wanted : option (list string)) (l : list Feature.t) :
  match wanted with
  | Some wanted =>
      if (0 <? List.length wanted)%nat
      then filter (λ feature, hasAnyTag wanted feature = true) l
      else l
  | None => l
  end = filter (λ feature, tagsHold wanted (Feature.tags feature)) l.
Proof.
  unfold tagsHold. destruct wanted as [[|tag wanted]|].
  - simpl. rewrite filter_all; [done | by right; left].
  - change (0 <? List.length (tag :: wanted))%nat with true. cbv iota.
    apply list_filter_iff. intros feature. rewrite hasAnyTag_true.
    split; [by right; right | by intros [?|[?|?]]].
  - rewrite filter_all; [done | by left].
Qed.

(** [filterFeatures] is one filter, by the conjunction of the facets. *)
Lemma filterFeatures_filter features filters :
  filterFeatures features filters = filter (passes filters) features.
Proof.
  unfold filterFeatures.
  rewrite (stage_filter (selected (Filters.category filters))).
  rewrite (stage_filter (selected (Filters.status filters))).
  rewrite tags_stage.
  rewrite (stage_filter (selected (Filters.version filters))).
  rewrite !list_filter_filter.
  apply list_filter_iff. intros feature. unfold passes.
  rewrite <- !selected_holds. tauto.
Qed.

End FilterFacts.

Module FilterSpec.
Import JsString JsStringFacts DataService Facet FilterFacts.

(** The scenario of the specification: one status facet, no category. *)
Example filter_by_status :
  filterFeatures Scenario.store (Scenario.facets None (Some "beta")) = [Scenario.background].
Proof. reflexivity. Qed.

(** C6, as stated, fails.  An empty category facet is not "all", yet it
    narrows nothing; and the version and tags facets, which the claim
    does not count, narrow too. *)
Lemma filterFeatures_other_facets :
  (Scenario.slash ∈ filterFeatures Scenario.store (Scenario.facets (Some "") (Some "all")) ∧
   ¬ passesCategoryStatus (Scenario.facets (Some "") (Some "all")) Scenario.slash) ∧
  (Scenario.slash ∈ Scenario.store ∧
   passesCategoryStatus (Scenario.byVersion "2024.9") Scenario.slash ∧
   filterFeatures Scenario.store (Scenario.byVersion "2024.9") = []) ∧
  (Scenario.slash ∈ [Scenario.slash; Scenario.tagged] ∧
   passesCategoryStatus (Scenario.byTags ["automation"]) Scenario.slash ∧
   filterFeatures [Scenario.slash; Scenario.tagged] (Scenario.byTags ["automation"])
     = [Scenario.tagged]).
Proof.
  split; [|split].
  - split.
    + apply list_elem_of_here.
    + intros [H _]. by specialize (H "" eq_refl ltac:(done)).
  - split; [apply list_elem_of_here|]. split; [|reflexivity].
    split; intros v [= <-] Hv; by destruct Hv.
  - split; [apply list_elem_of_here|]. split; [|reflexivity].
    split; intros v [= <-] Hv; by destruct Hv.
Qed.

(** C6, amended.  [filterFeatures] keeps, in their order, exactly the
    records that satisfy every facet that is not a wildcard, a wildcard
    being an absent, empty or "all" facet: category, status and version
    by equality with the record's field, and tags by sharing at least
    one tag with the record. *)
Theorem filterFeatures_facets features filters :
  filterFeatures features filters = filter (passes filters) features.
Proof. apply filterFeatures_filter. Qed.

(** C7. Filtering twice by the same filter state is filtering once. *)
Theorem filterFeatures_idempotent features filters :
  filterFeatures (filterFeatures features filters) filters = filterFeatures features filters.
Proof.
  rewrite !filterFeatures_filter, list_filter_filter.
  apply list_filter_iff. tauto.
Qed.

End FilterSpec.

(** ** The search history *)

Module HistorySpec.
Import DocumentSearch.

Lemma maxHistorySize_constructor storage : maxHistorySize (constructor storage) = 10.
Proof.
  unfold constructor, loadSearchHistory. simpl.
  by destruct (items storage !! "docs-search-history") as [[?|]|].
Qed.

Lemma maxHistorySize_add query this :
  maxHistorySize (addToSearchHistory query this) = maxHistorySize this.
Proof.
  unfold addToSearchHistory, saveSearchHistory. simpl.
  by repeat (case_match; simpl).
Qed.

Lemma saveSearchHistory_history this :
  searchHistory (saveSearchHistory this) = searchHistory this.
Proof. unfold saveSearchHistory. by destruct (writable (localStorage this)). Qed.

Lemma saveSearchHistory_stored this :
  writable (localStorage this) = true →
  items (localStorage (saveSearchHistory this)) !! "docs-search-history"
  = Some (Json (searchHistory this)).
Proof.
  intros Hw. unfold saveSearchHistory. rewrite Hw. simpl. by rewrite lookup_insert_eq.
Qed.

(** What a push leaves in memory: the query, then the other terms, cut at
    the capacity. *)
Lemma searchHistory_add query this :
  searchHistory (addToSearchHistory query this)
  = take (maxHistorySize this) (query :: filter (λ term, term ≠ query) (searchHistory this)).
Proof.
  unfold addToSearchHistory. rewrite saveSearchHistory_history.
  cbn [setHistory searchHistory maxHistorySize].
  destruct (Nat.ltb_spec (maxHistorySize this)
              (List.length (query :: filter (λ term, term ≠ query) (searchHistory this))))
    as [Hlt|Hge]; [done|].
  by rewrite take_ge.
Qed.

(** And what it writes to the storage, when the storage takes it. *)
Lemma stored_add query this :
  writable (localStorage this) = true →
  items (localStorage (addToSearchHistory query this)) !! "docs-search-history"
  = Some (Json (searchHistory (addToSearchHistory query this))).
Proof.
  intros Hw. unfold addToSearchHistory at 1.
  rewrite saveSearchHistory_stored.
  - unfold addToSearchHistory. by rewrite saveSearchHistory_history.
  - cbn [setHistory searchHistory maxHistorySize localStorage].
    by destruct (_ <? _).
Qed.

Lemma filter_ne_length (query : string) (h : list string) :
  query ∈ h → List.length (filter (λ term, term ≠ query) h) < List.length h.
Proof.
  induction h as [|x h IH]; [by intros ?%elem_of_nil|].
  rewrite elem_of_cons. intros Hin.
  destruct (decide (x = query)) as [->|Hne].
  - rewrite filter_cons_False by (by intros ?). simpl.
    pose proof (length_filter (λ term, term ≠ query) h). lia.
  - rewrite filter_cons_True by done. simpl.
    destruct Hin as [->|Hin]; [done|]. apply IH in Hin. lia.
Qed.

Lemma filter_ne_absent (query : string) (h : list string) :
  query ∉ h → filter (λ term, term ≠ query) h = h.
Proof.
  induction h as [|x h IH]; [done|].
  rewrite not_elem_of_cons. intros [Hne Hn].
  rewrite filter_cons_True by done. by rewrite IH.
Qed.

Lemma filter_ne_gone (query : string) (h : list string) :
  query ∉ filter (λ term, term ≠ query) h.
Proof. rewrite list_elem_of_filter. tauto. Qed.

(** C8. The history is a recency list of capacity 10.  A push puts the
    query in front and leaves it nowhere else, and never leaves more than
    10 terms; pushing a term that is there keeps all the others; pushing
    a new term onto a full history drops the last, oldest term; and "a",
    "b", "a", "c" pushed onto the empty history leave "c", "a", "b", in
    memory and in the storage. *)
Theorem searchHistory_recency :
  (∀ storage, maxHistorySize (constructor storage) = 10) ∧
  (∀ query this, maxHistorySize (addToSearchHistory query this) = maxHistorySize this) ∧
  (∀ query this, maxHistorySize this = 10 →
     ∃ older, searchHistory (addToSearchHistory query this) = (query :: older) ∧
              (query ∉ older) ∧
              List.length (query :: older) ≤ 10 ∧
              older `prefix_of` filter (λ term, term ≠ query) (searchHistory this)) ∧
  (∀ query this, maxHistorySize this = 10 →
     List.length (searchHistory this) ≤ 10 → query ∈ searchHistory this →
     searchHistory (addToSearchHistory query this)
     = query :: filter (λ term, term ≠ query) (searchHistory this)) ∧
  (∀ query this, maxHistorySize this = 10 →
     List.length (searchHistory this) = 10 → query ∉ searchHistory this →
     searchHistory (addToSearchHistory query this) = query :: removelast (searchHistory this)) ∧
  (let final :=
     addToSearchHistory "c" (addToSearchHistory "a" (addToSearchHistory "b"
       (addToSearchHistory "a" (constructor emptyStorage)))) in
   searchHistory final = ["c"; "a"; "b"] ∧
   items (localStorage final) !! "docs-search-history" = Some (Json ["c"; "a"; "b"])).
Proof.
  split; [apply maxHistorySize_constructor|].
  split; [apply maxHistorySize_add|].
  split; [|split; [|split]].
  - intros query this Hmax. rewrite searchHistory_add, Hmax.
    exists (take 9 (filter (λ term, term ≠ query) (searchHistory this))).
    split; [done|]. split; [|split].
    + intros Hin. apply (filter_ne_gone query (searchHistory this)).
      by apply (subseteq_take 9 _ query).
    + simpl. rewrite length_take. lia.
    + apply prefix_take.
  - intros query this Hmax Hlen Hin. rewrite searchHistory_add, Hmax.
    apply take_ge. simpl. apply filter_ne_length in Hin. lia.
  - intros query this Hmax Hlen Hn. rewrite searchHistory_add, Hmax.
    rewrite (filter_ne_absent _ _ Hn). simpl. f_equal.
    rewrite removelast_firstn_len, Hlen. done.
  - split; [reflexivity|]. vm_compute. reflexivity.
Qed.

Lemma searchHistory_recency_witness :
  searchHistory (addToSearchHistory "a" (addToSearchHistory "b"
    (addToSearchHistory "a" (constructor emptyStorage))))
  = "a" :: filter (λ term, term ≠ "a") (searchHistory (addToSearchHistory "b"
    (addToSearchHistory "a" (constructor emptyStorage)))).
Proof.
  apply (proj1 (proj2 (proj2 (proj2 searchHistory_recency)))).
  - reflexivity.
  - vm_compute. lia.
  - vm_compute. apply list_elem_of_further, list_elem_of_here.
Defined.

End HistorySpec.

(** * Further properties of the code *)

(** ** Sorting and filtering *)

Module SortFilterFacts.
Import JsArray JsArrayFacts.
Local Open Scope Q_scope.

Lemma filter_bool {A} (f : A → bool) (l : list A) :
  List.filter f l = filter (λ x, f x = true) l.
Proof.
  induction l as [|x l IH]; [done|]. simpl. rewrite IH.
  destruct (f x) eqn:E.
  - by rewrite filter_cons_True.
  - by rewrite filter_cons_False by (by rewrite E).
Qed.

Lemma filter_fmap {A B} (f : A → B) (P : B → Prop) `{∀ y, Decision (P y)} (l : list A) :
  filter P (f <$> l) = f <$> filter (λ x, P (f x)) l.
Proof.
  induction l as [|x l IH]; [done|]. rewrite fmap_cons.
  destruct (decide (P (f x))).
  - rewrite !filter_cons_True by done. by rewrite fmap_cons, IH.
  - by rewrite !filter_cons_False.
Qed.

Section ByKey.
Context {A : Type} (key : A → Q).

Abbreviation descendingKey := (λ a b : A, key b - key a).

Lemma insertBy_front x l :
  Forall (λ y, key y <= key x) l → insertBy descendingKey x l = x :: l.
Proof.
  destruct l as [|y l]; [done|]. intros [Hy _]%Forall_cons. simpl.
  destruct (Qlt_le_dec 0 (key y - key x)); [lra | done].
Qed.

Lemma insertBy_sorted x sorted :
  StronglySorted (λ a b, key b <= key a) sorted →
  StronglySorted (λ a b, key b <= key a) (insertBy descendingKey x sorted).
Proof.
  induction sorted as [|y sorted IH]; intros Hs; simpl.
  - repeat constructor.
  - apply StronglySorted_inv in Hs as [Hs Hy].
    destruct (Qlt_le_dec 0 (key y - key x)) as [Hlt|Hle].
    + constructor; [by apply IH|].
      rewrite insertBy_perm. constructor; [lra | done].
    + constructor; [by constructor|].
      constructor; [lra|].
      eapply Forall_impl; [exact Hy|]. simpl. intros z Hz. lra.
Qed.

(** The sort by a key, largest first, gives a list in that order. *)
Lemma sort_sorted l : StronglySorted (λ a b, key b <= key a) (sort descendingKey l).
Proof.
  induction l as [|x l IH]; simpl; [constructor | by apply insertBy_sorted].
Qed.

Lemma filter_insertBy (P : A → Prop) `{∀ x, Decision (P x)} x sorted :
  StronglySorted (λ a b, key b <= key a) sorted →
  filter P (insertBy descendingKey x sorted)
  = if decide (P x) then insertBy descendingKey x (filter P sorted) else filter P sorted.
Proof.
  induction sorted as [|y sorted IH]; intros Hs.
  - simpl. destruct (decide (P x)).
    + by rewrite filter_cons_True.
    + by rewrite filter_cons_False.
  - apply StronglySorted_inv in Hs as [Hs Hy]. cbn [insertBy].
    destruct (Qlt_le_dec 0 (key y - key x)) as [Hlt|Hle].
    + destruct (decide (P y)).
      * rewrite !(filter_cons_True P y) by done. rewrite IH by done.
        destruct (decide (P x)); [|done]. cbn [insertBy].
        by destruct (Qlt_le_dec 0 (key y - key x)); [|lra].
      * rewrite !(filter_cons_False P y) by done. by apply IH.
    + assert (Forall (λ z, key z <= key x) (filter P (y :: sorted))) as Hall.
      { apply Forall_forall. intros z [_ Hz]%list_elem_of_filter.
        apply elem_of_cons in Hz as [->|Hz]; [lra|].
        rewrite Forall_forall in Hy. specialize (Hy z Hz). simpl in Hy. lra. }
      destruct (decide (P x)).
      * rewrite (filter_cons_True P x) by done. by rewrite insertBy_front.
      * by rewrite (filter_cons_False P x).
Qed.

(** Filtering commutes with the stable sort by a key. *)
Lemma filter_sort (P : A → Prop) `{∀ x, Decision (P x)} l :
  filter P (sort descendingKey l) = sort descendingKey (filter P l).
Proof.
  induction l as [|x l IH]; [done|]. cbn [sort].
  rewrite filter_insertBy by apply sort_sorted. rewrite IH.
  destruct (decide (P x)).
  - by rewrite filter_cons_True.
  - by rewrite filter_cons_False.
Qed.

End ByKey.

End SortFilterFacts.

(** ** Search, filters and the grid *)

Module CompositionSpec.
Import JsString JsStringFacts JsArray JsArrayFacts DataService SearchFacts SortFilterFacts.
Import FilterFacts.
Local Open Scope Q_scope.

Lemma searchFeaturesWith_filter scorer (P : Feature.t → Prop) `{∀ x, Decision (P x)}
    features query language :
  searchFeaturesWith scorer (filter P features) query language
  = filter P (searchFeaturesWith scorer features query language).
Proof.
  destruct (decide (trim query = "")) as [E|E].
  - apply trim_empty in E. by rewrite !(searchFeaturesWith_blank _ _ _ _ E).
  - assert (¬ Blank query) as Hq by (by rewrite <- trim_empty).
    rewrite !(searchFeaturesWith_ranked _ _ _ _ Hq).
    rewrite filter_fmap.
    rewrite (filter_sort Scored.searchScore).
    rewrite filter_fmap. simpl.
    do 3 f_equal. rewrite !filter_bool, !list_filter_filter.
    apply list_filter_iff. tauto.
Qed.

Lemma searchFeatures_filterFeatures this features filters query language :
  searchFeatures this (filterFeatures features filters) query language
  = filterFeatures (searchFeatures this features query language) filters.
Proof.
  rewrite !filterFeatures_filter. unfold searchFeatures.
  apply searchFeaturesWith_filter.
Qed.

(** X1. Searching and filtering commute: a search over the filtered
    records gives the same sequence as the filter applied to the result of
    the search. *)
Theorem searchFeatures_filterFeatures_commute this features filters query language :
  searchFeatures this (filterFeatures features filters) query language
  = filterFeatures (searchFeatures this features query language) filters.
Proof. apply searchFeatures_filterFeatures. Qed.

Lemma filterFeatures_no_keys features filters :
  App.keys filters = 0%nat → filterFeatures features filters = features.
Proof.
  unfold App.keys. destruct filters as [[?|] [?|] [?|] [?|] [?|]]; simpl; try lia.
  done.
Qed.

Lemma applyCurrentFilters_filtered app :
  App.filteredFeatures (App.applyCurrentFilters app)
  = filterFeatures (App.filteredFeatures app) (App.filters app).
Proof.
  unfold App.applyCurrentFilters.
  destruct (Nat.ltb_spec 0 (App.keys (App.filters app))); [done|].
  rewrite filterFeatures_no_keys; [done | lia].
Qed.

(** X2. The grid shows the same records whether the query or the filter
    state changed last: the search handler, run on the current query, and
    the filter handler, run on the current filter state, leave the same
    [filteredFeatures]. *)
Theorem handleSearch_handleFilter_agree app :
  App.filteredFeatures (App.handleSearch (App.currentQuery app) app)
  = App.filteredFeatures (App.handleFilter (App.filters app) app).
Proof.
  unfold App.handleSearch. rewrite applyCurrentFilters_filtered.
  unfold App.handleFilter.
  destruct (truthy (trim (App.currentQuery app))) eqn:Et; cbn [negb].
  - assert (truthy (App.currentQuery app) = true) as Hq.
    { apply truthy_true. intros Hq. rewrite Hq in Et. discriminate Et. }
    cbn [App.setFiltered App.filteredFeatures App.filters App.features App.dataService
         App.currentLanguage App.currentQuery].
    rewrite Hq.
    cbn [App.setFiltered App.filteredFeatures App.filters App.features App.dataService
         App.currentLanguage App.currentQuery].
    by rewrite searchFeatures_filterFeatures.
  - apply truthy_false, trim_empty in Et.
    cbn [App.setFiltered App.filteredFeatures App.filters App.features App.dataService
         App.currentLanguage App.currentQuery].
    destruct (truthy (App.currentQuery app));
      cbn [App.setFiltered App.filteredFeatures App.filters App.features App.dataService
           App.currentLanguage App.currentQuery]; [|done].
    unfold searchFeatures. by rewrite (searchFeaturesWith_blank _ _ _ _ Et).
Qed.

End CompositionSpec.

(** ** Loading the catalog *)

Module LoadingSpec.
Import DataService DataServiceQueries.

Lemma loadFeatures_initialized response this :
  initialized (snd (loadFeatures response this)) = initialized this.
Proof.
  unfold loadFeatures. destruct (featureCache this !! _); [done|].
  by destruct response.
Qed.

Lemma loadCategories_initialized response this :
  initialized (snd (loadCategories response this)) = initialized this.
Proof.
  unfold loadCategories. destruct (categoryCache this !! _); [done|].
  by destruct response.
Qed.

Lemma loadCategories_features response this :
  features (snd (loadCategories response this)) = features this.
Proof.
  unfold loadCategories. destruct (categoryCache this !! _); [done|].
  by destruct response.
Qed.

Lemma loadFeatures_features response this fs :
  fst (loadFeatures response this) = Normal fs →
  features (snd (loadFeatures response this)) = fs.
Proof.
  unfold loadFeatures. destruct (featureCache this !! _); [by intros [= ->]|].
  destruct response; simpl; [done.. | by intros [= ->]].
Qed.

Lemma init_initialized forFeatures forCategories this :
  initialized (snd (init forFeatures forCategories this)) = true
  ↔ fst (init forFeatures forCategories this) = Normal ().
Proof.
  unfold init. destruct (initialized this) eqn:Ei; [done|].
  pose proof (loadFeatures_initialized forFeatures this) as H1.
  destruct (loadFeatures forFeatures this) as [r1 this1]. simpl in H1.
  pose proof (loadCategories_initialized forCategories this1) as H2.
  destruct (loadCategories forCategories this1) as [r2 this2]. simpl in H2.
  destruct r1, r2; simpl; split; try done; congruence.
Qed.

(** X3. [init] returns normally exactly when it leaves the service
    initialized, and after an [init] that returned normally every further
    [init] returns at once and changes nothing, whatever the network would
    answer. *)
Theorem init_once forFeatures forCategories this :
  (initialized (snd (init forFeatures forCategories this)) = true
   ↔ fst (init forFeatures forCategories this) = Normal ()) ∧
  (fst (init forFeatures forCategories this) = Normal () →
   ∀ again1 again2,
     init again1 again2 (snd (init forFeatures forCategories this))
     = (Normal (), snd (init forFeatures forCategories this))).
Proof.
  split; [apply init_initialized|].
  intros Hok again1 again2. apply init_initialized in Hok.
  unfold init at 1. by rewrite Hok.
Qed.

Lemma init_once_witness :
  init FetchRejected FetchRejected Scenario.loaded = (Normal (), Scenario.loaded).
Proof.
  apply (proj2 (init_once (FetchJson (Some Scenario.store))
    (FetchJson (Some [ {| Category.id := "core"; Category.name := ∅ |} ]))
    constructor)).
  reflexivity.
Defined.

(** X4. The cache makes a load stick: once [loadFeatures] has returned a
    list, every later [loadFeatures] returns that list and leaves the
    service as it is, even when the network fails. *)
Theorem loadFeatures_cached response this fs :
  fst (loadFeatures response this) = Normal fs →
  ∀ later,
    loadFeatures later (snd (loadFeatures response this))
    = (Normal fs, snd (loadFeatures response this)).
Proof.
  intros Hok later. unfold loadFeatures in *. cbv zeta in *.
  destruct (featureCache this !! "features-data") as [cached|] eqn:Ec.
  - injection Hok as ->. cbn [snd setFeatures featureCache]. by rewrite Ec.
  - destruct response as [| |field]; [done..|]. injection Hok as <-.
    cbn [snd featureCache cacheFeatures setFeatures].
    by rewrite lookup_insert_eq.
Qed.

Lemma loadFeatures_cached_witness :
  loadFeatures FetchRejected
    (snd (loadFeatures (FetchJson (Some Scenario.store)) constructor))
  = (Normal Scenario.store, snd (loadFeatures (FetchJson (Some Scenario.store)) constructor)).
Proof.
  apply (loadFeatures_cached (FetchJson (Some Scenario.store)) constructor).
  reflexivity.
Defined.

(** X5. [init] does not roll back: when it throws although the features
    were loaded, the service is left not initialized with those features
    in its store. *)
Theorem init_partial forFeatures forCategories this fs error :
  initialized this = false →
  fst (loadFeatures forFeatures this) = Normal fs →
  fst (init forFeatures forCategories this) = Throw error →
  initialized (snd (init forFeatures forCategories this)) = false ∧
  getAllFeatures (snd (init forFeatures forCategories this)) = fs.
Proof.
  intros Hi Hf He. split.
  - destruct (initialized (snd (init forFeatures forCategories this))) eqn:E; [|done].
    apply init_initialized in E. congruence.
  - unfold init in *. rewrite Hi in *.
    pose proof (loadFeatures_features forFeatures this fs Hf) as H1.
    destruct (loadFeatures forFeatures this) as [r1 this1]. simpl in Hf, H1. subst r1.
    pose proof (loadCategories_features forCategories this1) as H2.
    destruct (loadCategories forCategories this1) as [r2 this2]. simpl in H2.
    destruct r2; simpl in *; [done|]. unfold getAllFeatures. congruence.
Qed.

Lemma init_partial_witness :
  initialized (snd Scenario.halfLoaded) = false ∧
  getAllFeatures (snd Scenario.halfLoaded) = Scenario.store.
Proof.
  apply (init_partial (FetchJson (Some Scenario.store)) FetchRejected constructor
           Scenario.store Rejected); reflexivity.
Defined.

(** X6. For a category id that is neither empty nor "all",
    [getFeaturesByCategory] is [filterFeatures] by that category alone
    over the store. *)
Theorem getFeaturesByCategory_filterFeatures this categoryId :
  categoryId ≠ "" → categoryId ≠ "all" →
  getFeaturesByCategory this categoryId
  = filterFeatures (features this) (onlyCategory categoryId).
Proof.
  intros H1 H2. unfold getFeaturesByCategory, filterFeatures, onlyCategory, selected.
  cbn [Filters.category Filters.status Filters.tags Filters.version].
  apply JsStringFacts.truthy_true in H1. apply String.eqb_neq in H2.
  rewrite H1, H2. simpl. apply list_filter_iff. intros x. split; congruence.
Qed.

Lemma getFeaturesByCategory_filterFeatures_witness :
  getFeaturesByCategory Scenario.loaded "core"
  = filterFeatures (features Scenario.loaded) (onlyCategory "core").
Proof.
  apply (getFeaturesByCategory_filterFeatures Scenario.loaded "core"); done.
Defined.

End LoadingSpec.

(** ** The search history, again *)

Module HistoryMoreSpec.
Import DocumentSearch HistorySpec.

(** X7. A push keeps the history free of duplicates, and adds no term but
    the query. *)
Theorem addToSearchHistory_NoDup query this :
  NoDup (searchHistory this) →
  NoDup (searchHistory (addToSearchHistory query this)) ∧
  ∀ term, term ∈ searchHistory (addToSearchHistory query this) →
          term = query ∨ term ∈ searchHistory this.
Proof.
  intros Hn. rewrite searchHistory_add. split.
  - eapply sublist_NoDup; [|apply sublist_take].
    apply NoDup_cons. split; [apply filter_ne_gone | by apply NoDup_filter].
  - intros term Hin. apply subseteq_take in Hin.
    apply elem_of_cons in Hin as [->|Hin]; [by left|].
    right. by apply list_elem_of_filter in Hin as [_ ?].
Qed.

Lemma addToSearchHistory_NoDup_witness :
  NoDup (searchHistory (addToSearchHistory "a" (constructor emptyStorage))).
Proof.
  apply (addToSearchHistory_NoDup "a" (constructor emptyStorage)).
  apply NoDup_nil_2.
Defined.

(** X8. The history survives a reload: when the storage takes the write,
    a controller constructed over the storage that a push has left starts
    with the history that the push has left. *)
Theorem searchHistory_reload query this :
  writable (localStorage this) = true →
  searchHistory (constructor (localStorage (addToSearchHistory query this)))
  = searchHistory (addToSearchHistory query this).
Proof.
  intros Hw. unfold constructor, loadSearchHistory. cbn [localStorage].
  by rewrite (stored_add _ _ Hw).
Qed.

Lemma searchHistory_reload_witness :
  searchHistory (constructor
    (localStorage (addToSearchHistory "a" (constructor emptyStorage))))
  = searchHistory (addToSearchHistory "a" (constructor emptyStorage)).
Proof.
  apply (searchHistory_reload "a" (constructor emptyStorage)). reflexivity.
Defined.

(** X9. A storage that refuses the write costs nothing but persistence:
    the push still updates the history in memory, and the storage is left
    as it was. *)
Theorem addToSearchHistory_unwritable query this :
  writable (localStorage this) = false →
  localStorage (addToSearchHistory query this) = localStorage this ∧
  searchHistory (addToSearchHistory query this)
  = take (maxHistorySize this) (query :: filter (λ term, term ≠ query) (searchHistory this)).
Proof.
  intros Hw. split; [|apply searchHistory_add].
  unfold addToSearchHistory, saveSearchHistory.
  cbn [setHistory searchHistory maxHistorySize localStorage].
  destruct (_ <? _)%nat; cbn [setHistory searchHistory maxHistorySize localStorage];
    by rewrite Hw.
Qed.

Lemma addToSearchHistory_unwritable_witness :
  localStorage (addToSearchHistory "a" (constructor Fixtures.fullStorage))
  = localStorage (constructor Fixtures.fullStorage).
Proof.
  apply (addToSearchHistory_unwritable "a" (constructor Fixtures.fullStorage)).
  reflexivity.
Defined.

End HistoryMoreSpec.

(** ** DataService.getSearchSuggestions *)

Module SuggestionFacts.
Import JsString JsStringFacts JsArray JsArrayFacts SortFilterFacts DataService DataServiceViews.
Local Open Scope Q_scope.

Lemma add_elem {A} `{EqDecision A} (x y : A) (s : list A) :
  x ∈ JsSet.add y s ↔ x ∈ s ∨ x = y.
Proof.
  unfold JsSet.add. destruct (decide (y ∈ s)) as [Hy|Hy].
  - split; [by left | intros [?| ->]; done].
  - rewrite elem_of_app, list_elem_of_singleton. done.
Qed.

Lemma add_NoDup {A} `{EqDecision A} (y : A) (s : list A) :
  NoDup s → NoDup (JsSet.add y s).
Proof.
  intros Hs. unfold JsSet.add. destruct (decide (y ∈ s)) as [Hy|Hy]; [done|].
  apply NoDup_app. split; [done|]. split; [|apply NoDup_singleton].
  intros x Hx ->%list_elem_of_singleton. done.
Qed.

Lemma collect_elem queryLower suggestions text x :
  x ∈ collect queryLower suggestions text
  ↔ x ∈ suggestions ∨ (x = text ∧ includes (toLowerCase text) queryLower = true).
Proof.
  unfold collect. destruct (includes (toLowerCase text) queryLower).
  - rewrite add_elem. intuition (subst; auto).
  - intuition congruence.
Qed.

Lemma collect_NoDup queryLower suggestions text :
  NoDup suggestions → NoDup (collect queryLower suggestions text).
Proof. unfold collect. destruct (includes _ _); [apply add_NoDup | done]. Qed.

Lemma collect_all_elem queryLower texts suggestions x :
  x ∈ fold_left (collect queryLower) texts suggestions
  ↔ x ∈ suggestions ∨ (x ∈ texts ∧ includes (toLowerCase x) queryLower = true).
Proof.
  revert suggestions. induction texts as [|text texts IH]; intros suggestions; simpl.
  - split; [by left | intros [?|[?%elem_of_nil _]]; done].
  - rewrite IH, collect_elem, elem_of_cons. intuition (subst; auto).
Qed.

Lemma collect_all_NoDup queryLower texts suggestions :
  NoDup suggestions → NoDup (fold_left (collect queryLower) texts suggestions).
Proof.
  revert suggestions. induction texts as [|text texts IH]; intros suggestions Hs; simpl.
  - done.
  - by apply IH, collect_NoDup.
Qed.

Section Gather.
Variables (texts : Feature.t → list string) (queryLower : string).

Lemma gather_elem features suggestions x :
  x ∈ fold_left (λ suggestions feature,
         fold_left (collect queryLower) (texts feature) suggestions) features suggestions
  ↔ x ∈ suggestions
    ∨ (∃ feature, feature ∈ features ∧ x ∈ texts feature)
      ∧ includes (toLowerCase x) queryLower = true.
Proof.
  revert suggestions. induction features as [|feature features IH]; intros suggestions; simpl.
  - split; [by left|]. intros [?|[(f & ?%elem_of_nil & _) _]]; done.
  - rewrite IH, collect_all_elem. split.
    + intros [[?|[? ?]]|[(f & Hf & Hx) ?]].
      * by left.
      * right. split; [|done]. exists feature. split; [apply list_elem_of_here | done].
      * right. split; [|done]. exists f. split; [by apply list_elem_of_further | done].
    + intros [?|[(f & Hf & Hx) ?]]; [by left; left|].
      apply elem_of_cons in Hf as [->|Hf].
      * left. by right.
      * right. split; [|done]. by exists f.
Qed.

Lemma gather_NoDup features suggestions :
  NoDup suggestions →
  NoDup (fold_left (λ suggestions feature,
           fold_left (collect queryLower) (texts feature) suggestions) features suggestions).
Proof.
  revert suggestions. induction features as [|feature features IH]; intros suggestions Hs; simpl.
  - done.
  - by apply IH, collect_all_NoDup.
Qed.

End Gather.

Lemma sort_ext {A} (c1 c2 : A → A → Q) (l : list A) :
  (∀ x y, c1 x y == c2 x y) → sort c1 l = sort c2 l.
Proof.
  intros Hc. induction l as [|x l IH]; [done|]. cbn [sort]. rewrite IH.
  generalize (sort c2 l). intros s. induction s as [|y s IHs]; [done|]. cbn [insertBy].
  pose proof (Hc x y).
  destruct (Qlt_le_dec 0 (c1 x y)), (Qlt_le_dec 0 (c2 x y)); try lra; by rewrite ?IHs.
Qed.

Lemma ofNat_le n m : Utils.ofNat n <= Utils.ofNat m ↔ (n ≤ m)%nat.
Proof. unfold Utils.ofNat. rewrite <- Zle_Qle. lia. Qed.

Lemma StronglySorted_weaken {A} (R1 R2 : A → A → Prop) (l : list A) :
  (∀ x y, R1 x y → R2 x y) → StronglySorted R1 l → StronglySorted R2 l.
Proof.
  intros HR. induction 1 as [|x l Hl IH Hx]; constructor; [done|].
  eapply Forall_impl; [exact Hx | apply HR].
Qed.

Lemma StronglySorted_take {A} (R : A → A → Prop) (l : list A) n :
  StronglySorted R l → StronglySorted R (take n l).
Proof.
  intros Hl. revert n. induction Hl as [|x l Hl IH Hx]; intros [|n]; simpl; try constructor.
  - apply IH.
  - rewrite Forall_forall in Hx |- *. intros y Hy. by apply Hx, (subseteq_take n).
Qed.

(** The sort of the suggestions puts the shorter text first. *)
Lemma sort_shorterFirst l :
  StronglySorted (λ a b, (length a ≤ length b)%nat) (sort shorterFirst l).
Proof.
  rewrite (sort_ext shorterFirst
             (λ a b, - Utils.ofNat (length b) - - Utils.ofNat (length a))).
  - pose proof (sort_sorted (λ s, - Utils.ofNat (length s)) l) as Hs.
    eapply StronglySorted_weaken; [|exact Hs].
    intros a b Hab. simpl in Hab. apply ofNat_le. lra.
  - intros x y. unfold shorterFirst. ring.
Qed.

End SuggestionFacts.

Module SuggestionSpec.
Import JsString JsStringFacts JsArray JsArrayFacts DataService DataServiceViews SuggestionFacts.

Lemma fold_left_ext {A B} (f g : A → B → A) (l : list B) (a : A) :
  (∀ a x, f a x = g a x) → fold_left f l a = fold_left g l a.
Proof.
  intros Hfg. revert a. induction l as [|x l IH]; intros a; simpl; [done|].
  by rewrite Hfg, IH.
Qed.

(** The set of suggestions, before the query itself is dropped. *)
Lemma gathered this queryLower :
  let suggestions :=
    fold_left (λ suggestions feature,
      match Feature.tags feature with
      | Some tags => fold_left (collect queryLower) tags suggestions
      | None => suggestions
      end) (features this)
      (fold_left (λ suggestions feature,
         fold_left (collect queryLower) (titlesOf feature) suggestions) (features this) []) in
  NoDup suggestions ∧
  ∀ x, x ∈ suggestions ↔ Offered this x ∧ includes (toLowerCase x) queryLower = true.
Proof.
  cbv zeta.
  rewrite (fold_left_ext _ (λ suggestions feature,
    fold_left (collect queryLower) (default [] (Feature.tags feature)) suggestions)).
  2:{ intros a x. by destruct (Feature.tags x). }
  split.
  - apply gather_NoDup, gather_NoDup, NoDup_nil_2.
  - intros x. rewrite !gather_elem. unfold Offered. split.
    + intros [[?%elem_of_nil|[(f & Hf & Hx) Hi]]|[(f & Hf & Hx) Hi]]; [done|..].
      * split; [exists f; split; [done | by left] | done].
      * split; [exists f; split; [done | by right] | done].
    + intros [(f & Hf & [Hx|Hx]) Hi].
      * left. right. split; [by exists f | done].
      * right. split; [by exists f | done].
Qed.

Lemma allSuggestions_elem this query x :
  x ∈ allSuggestions this query
  ↔ Offered this x ∧ Substring (toLowerCase query) (toLowerCase x)
    ∧ toLowerCase x ≠ toLowerCase query.
Proof.
  unfold allSuggestions. cbv zeta. rewrite sort_perm, list_elem_of_filter.
  destruct (gathered this (toLowerCase query)) as [_ Hg]. cbv zeta in Hg.
  rewrite Hg, includes_spec. tauto.
Qed.

Lemma allSuggestions_NoDup this query : NoDup (allSuggestions this query).
Proof.
  unfold allSuggestions. cbv zeta. rewrite sort_perm. apply NoDup_filter.
  by destruct (gathered this (toLowerCase query)) as [Hn _].
Qed.

Lemma short_query this query limit :
  (length query < 2)%nat → getSearchSuggestions this query limit = [].
Proof.
  intros H. unfold getSearchSuggestions.
  apply Nat.ltb_lt in H. rewrite H. by rewrite orb_true_r.
Qed.

Lemma long_query this query limit :
  (2 ≤ length query)%nat →
  getSearchSuggestions this query limit = take limit (allSuggestions this query).
Proof.
  intros H. unfold getSearchSuggestions.
  assert (truthy query = true) as ->.
  { apply truthy_true. intros ->. unfold length in H. simpl in H. lia. }
  apply Nat.ltb_ge in H. by rewrite H.
Qed.

Lemma suggestions_cases this query limit :
  getSearchSuggestions this query limit = []
  ∨ getSearchSuggestions this query limit = take limit (allSuggestions this query).
Proof.
  destruct (Nat.lt_ge_cases (length query) 2); [left | right].
  - by apply short_query.
  - by apply long_query.
Qed.

(** X10. [getSearchSuggestions] gives nothing for a query of fewer than
    two characters; otherwise it gives at most [limit] suggestions, no
    suggestion twice, and never a longer one before a shorter one. *)
Theorem getSearchSuggestions_shape this query limit :
  ((length query < 2)%nat → getSearchSuggestions this query limit = []) ∧
  List.length (getSearchSuggestions this query limit) ≤ limit ∧
  NoDup (getSearchSuggestions this query limit) ∧
  (∀ i j a b, i < j →
     getSearchSuggestions this query limit !! i = Some a →
     getSearchSuggestions this query limit !! j = Some b →
     length a ≤ length b).
Proof.
  split; [apply short_query|].
  destruct (suggestions_cases this query limit) as [-> | ->].
  - split; [simpl; lia|]. split; [apply NoDup_nil_2 | done].
  - split; [rewrite length_take; lia|]. split.
    + eapply sublist_NoDup; [apply allSuggestions_NoDup | apply sublist_take].
    + intros i j a b Hij Ha Hb.
      apply (StronglySorted_lookup (λ a b, length a ≤ length b)
               (take limit (allSuggestions this query)) i j); [|done..].
      apply StronglySorted_take, sort_shorterFirst.
Qed.

(** X11. Every suggestion is a title or a tag of the store that contains
    the query, letter case apart, and is not the query itself; and for a
    query of two characters or more, every such text is suggested unless
    the limit is reached. *)
Theorem getSearchSuggestions_content this query limit :
  (∀ text, text ∈ getSearchSuggestions this query limit →
     Offered this text ∧ Substring (toLowerCase query) (toLowerCase text)
     ∧ toLowerCase text ≠ toLowerCase query) ∧
  (∀ text, (2 ≤ length query)%nat →
     Offered this text → Substring (toLowerCase query) (toLowerCase text) →
     toLowerCase text ≠ toLowerCase query →
     text ∈ getSearchSuggestions this query limit
     ∨ List.length (getSearchSuggestions this query limit) = limit).
Proof.
  split.
  - intros text Hin. destruct (suggestions_cases this query limit) as [E|E];
      rewrite E in Hin; [by apply elem_of_nil in Hin|].
    apply subseteq_take in Hin. by apply allSuggestions_elem.
  - intros text Hq Ho Hs Hne. rewrite (long_query _ _ _ Hq).
    destruct (Nat.le_gt_cases (List.length (allSuggestions this query)) limit) as [Hl|Hl].
    + left. rewrite take_ge by done. by apply allSuggestions_elem.
    + right. rewrite length_take. lia.
Qed.

End SuggestionSpec.

(** ** DataService.sortFeatures *)

Module SortSpec.
Import JsString JsArray JsArrayFacts DataService DataServiceViews.
Local Open Scope Q_scope.

Lemma sort_all_equal {A} (compare : A → A → Q) (l : list A) :
  (∀ x y, compare x y == 0) → sort compare l = l.
Proof.
  intros Hc. induction l as [|x l IH]; [done|]. cbn [sort]. rewrite IH.
  destruct l as [|y l]; [done|]. cbn [insertBy].
  pose proof (Hc x y). destruct (Qlt_le_dec 0 (compare x y)); [lra | done].
Qed.

(** X12. Whatever [localeCompare] does, [sortFeatures] returns the records
    it was given, each as often as it was given; and for a sort key other
    than "name", "category", "status" and "version" it returns them in the
    order in which it was given them. *)
Theorem sortFeatures_permutation localeCompare features sortBy language :
  sortFeatures localeCompare features sortBy language ≡ₚ features ∧
  (sortBy ≠ "name" → sortBy ≠ "category" → sortBy ≠ "status" → sortBy ≠ "version" →
   sortFeatures localeCompare features sortBy language = features).
Proof.
  split; [apply sort_perm|].
  intros H1 H2 H3 H4. unfold sortFeatures. apply sort_all_equal.
  intros x y. unfold compareFeatures.
  apply String.eqb_neq in H1, H2, H3, H4. by rewrite H1, H2, H3, H4.
Qed.

Section ByRank.
Context {A : Type} (compare : A → A → Q) (rank : A → Z) (Good : A → Prop).
Hypothesis compare_rank : ∀ x y, Good x → Good y →
  (0 < compare x y → (rank y ≤ rank x)%Z) ∧ (compare x y <= 0 → (rank x ≤ rank y)%Z).

Lemma insertBy_by_rank x sorted :
  Good x → Forall Good sorted →
  StronglySorted (λ a b, (rank a ≤ rank b)%Z) sorted →
  StronglySorted (λ a b, (rank a ≤ rank b)%Z) (insertBy compare x sorted).
Proof.
  intros Hx. induction sorted as [|y sorted IH]; intros Hg Hs; simpl.
  - repeat constructor.
  - apply Forall_cons in Hg as [Hy Hg].
    apply StronglySorted_inv in Hs as [Hs Hall].
    destruct (compare_rank x y Hx Hy) as [Hgt Hle].
    destruct (Qlt_le_dec 0 (compare x y)) as [H|H].
    + constructor; [by apply IH|].
      rewrite insertBy_perm. constructor; [by apply Hgt | done].
    + constructor; [by constructor|].
      specialize (Hle H). constructor; [done|].
      eapply Forall_impl; [exact Hall|]. simpl. intros z Hz. lia.
Qed.

Lemma sort_by_rank l :
  Forall Good l → StronglySorted (λ a b, (rank a ≤ rank b)%Z) (sort compare l).
Proof.
  induction l as [|x l IH]; intros Hg; simpl; [constructor|].
  apply Forall_cons in Hg as [Hx Hg].
  apply insertBy_by_rank; [done | by rewrite sort_perm | by apply IH].
Qed.

End ByRank.

Lemma statusRank_ranked feature :
  Feature.status feature ∉ objectPrototypeKeys →
  statusRank (Feature.status feature) = Ranked (rankOf feature).
Proof.
  intros Hk. unfold rankOf.
  destruct (statusRank (Feature.status feature)) as [n|key] eqn:E; [done|].
  unfold statusRank in E. repeat case_match; try discriminate.
  by apply bool_decide_eq_true in H2.
Qed.

(** X13. Sorted by "status", the records with status "new" come first,
    then those with "beta", then those with "stable", then all others,
    whatever [localeCompare] does, provided that no status is a name
    that objects inherit ("constructor", "toString" and the like). *)
Theorem sortFeatures_status localeCompare features language (i j : nat) a b :
  Forall (λ feature, Feature.status feature ∉ objectPrototypeKeys) features →
  (i < j)%nat →
  sortFeatures localeCompare features "status" language !! i = Some a →
  sortFeatures localeCompare features "status" language !! j = Some b →
  (rankOf a ≤ rankOf b)%Z.
Proof.
  intros Hg Hij Ha Hb.
  apply (StronglySorted_lookup (λ a b, (rankOf a ≤ rankOf b)%Z)
           (sortFeatures localeCompare features "status" language) i j); [|done..].
  apply (sort_by_rank _ rankOf (λ feature, Feature.status feature ∉ objectPrototypeKeys));
    [|done].
  intros x y Hx Hy. unfold compareFeatures. simpl.
  rewrite (statusRank_ranked x Hx), (statusRank_ranked y Hy).
  destruct (decide (Ranked (rankOf x) ≠ Ranked (rankOf y))) as [Hne|He].
  - assert (rankOf x ≠ rankOf y) by congruence.
    split; intros Hc.
    + change 0 with (inject_Z 0) in Hc. rewrite <- Zlt_Qlt in Hc. lia.
    + change 0 with (inject_Z 0) in Hc. rewrite <- Zle_Qle in Hc. lia.
  - assert (rankOf x = rankOf y) as Heq.
    { destruct (decide (rankOf x = rankOf y)); [done|]. destruct He. congruence. }
    split; intros _; lia.
Qed.

Lemma sortFeatures_status_witness :
  (rankOf Scenario.background ≤ rankOf Scenario.slash)%Z.
Proof.
  apply (sortFeatures_status (λ _ _, 0) Scenario.store "en" 0 1).
  - repeat constructor; vm_compute; intros H; by repeat (inversion H as [|? ? ? H']; clear H; rename H' into H).
  - lia.
  - vm_compute. reflexivity.
  - vm_compute. reflexivity.
Defined.

End SortSpec.

(** ** Keyboard navigation *)

Module NavigationSpec.
Import SuggestionKeys.

Lemma navigate_down n cur :
  cur < n → navigateSuggestions "down" n (Some cur)
            = Some (if cur <? n - 1 then cur + 1 else 0).
Proof.
  intros H. unfold navigateSuggestions.
  destruct (Nat.eqb_spec n 0); [lia | done].
Qed.

Lemma navigate_up direction n cur :
  direction ≠ "down" → cur < n →
  navigateSuggestions direction n (Some cur)
  = Some (if 0 <? cur then cur - 1 else n - 1).
Proof.
  intros Hd H. unfold navigateSuggestions.
  destruct (Nat.eqb_spec n 0); [lia|].
  apply String.eqb_neq in Hd. by rewrite Hd.
Qed.

(** X14. The arrow keys move the active suggestion in a circle: with at
    least one suggestion the new index is in range; the first key press
    activates the first suggestion, whichever the direction; "down" and
    then "up" (or the other way round) lead back to the suggestion that
    was active. *)
Theorem navigateSuggestions_circular direction n cur :
  cur < n →
  (∃ next, navigateSuggestions direction n (Some cur) = Some next ∧ next < n) ∧
  navigateSuggestions direction n None = Some 0 ∧
  (direction ≠ "down" →
   navigateSuggestions direction n (navigateSuggestions "down" n (Some cur)) = Some cur ∧
   navigateSuggestions "down" n (navigateSuggestions direction n (Some cur)) = Some cur).
Proof.
  intros H. split; [|split].
  - destruct (decide (direction = "down")) as [->|Hd].
    + rewrite navigate_down by done. eexists. split; [done|].
      destruct (Nat.ltb_spec cur (n - 1)); lia.
    + rewrite navigate_up by done. eexists. split; [done|].
      destruct (Nat.ltb_spec 0 cur); lia.
  - unfold navigateSuggestions. destruct (Nat.eqb_spec n 0); [lia | done].
  - intros Hd. split.
    + rewrite navigate_down by done.
      destruct (Nat.ltb_spec cur (n - 1)).
      * rewrite navigate_up by (done || lia).
        destruct (Nat.ltb_spec 0 (cur + 1)); [f_equal; lia | lia].
      * rewrite navigate_up by (done || lia). simpl. f_equal. lia.
    + rewrite navigate_up by done.
      destruct (Nat.ltb_spec 0 cur).
      * rewrite navigate_down by lia.
        destruct (Nat.ltb_spec (cur - 1) (n - 1)); [f_equal; lia | lia].
      * rewrite navigate_down by lia.
        destruct (Nat.ltb_spec (n - 1) (n - 1)); [lia | f_equal; lia].
Qed.

Lemma navigateSuggestions_circular_witness :
  navigateSuggestions "up" 3 None = Some 0.
Proof.
  apply (navigateSuggestions_circular "up" 3 2). lia.
Defined.

(** X15. In the search box of the feature grid the selection moves in a
    circle too, but from no selection (-1) the up key goes to the last
    suggestion and the down key to the first; an up after a down, or a
    down after an up, restores a selection. *)
Theorem navigateSelected_circular (n : nat) (selected : Z) :
  (0 < n)%nat → (-1 ≤ selected < Z.of_nat n)%Z →
  (0 ≤ navigateSelected 1 n selected < Z.of_nat n)%Z ∧
  (0 ≤ navigateSelected (-1) n selected < Z.of_nat n)%Z ∧
  navigateSelected 1 n (-1) = 0%Z ∧
  navigateSelected (-1) n (-1) = (Z.of_nat n - 1)%Z ∧
  ((0 ≤ selected)%Z →
   navigateSelected (-1) n (navigateSelected 1 n selected) = selected ∧
   navigateSelected 1 n (navigateSelected (-1) n selected) = selected).
Proof.
  intros Hn Hs. unfold navigateSelected. cbv zeta.
  repeat split; try (intros H0; split);
    repeat match goal with
           | |- context [(?a <? ?b)%Z] => destruct (Z.ltb_spec a b)
           | H : context [(?a <? ?b)%Z] |- _ => destruct (Z.ltb_spec a b)
           end; lia.
Qed.

Lemma navigateSelected_circular_witness :
  navigateSelected 1 3 (-1) = 0%Z.
Proof.
  apply (navigateSelected_circular 3 (-1)); lia.
Defined.

End NavigationSpec.

(** ** Utils.removeDuplicates *)

Module RemoveDuplicatesSpec.
Import UtilsArray SuggestionFacts.

Section ByKey.
Context {A K : Type} `{EqDecision K} (key : A → K).

Lemma unseen_sublist seen array : unseen key seen array `sublist_of` array.
Proof.
  revert seen. induction array as [|x array IH]; intros seen; simpl; [done|].
  destruct (decide (key x ∈ seen)); [by apply sublist_cons | by apply sublist_skip].
Qed.

Lemma unseen_keys seen array k :
  k ∈ (key <$> unseen key seen array) ↔ (k ∉ seen) ∧ k ∈ (key <$> array).
Proof.
  revert seen. induction array as [|x array IH]; intros seen; cbn [unseen].
  - rewrite fmap_nil, elem_of_nil. tauto.
  - cbv zeta. rewrite (fmap_cons key x array), (elem_of_cons _ k (key x)).
    destruct (decide (key x ∈ seen)) as [Hs|Hs].
    + rewrite IH. split; [tauto|].
      intros [Hk [->|?]]; done.
    + rewrite fmap_cons, elem_of_cons, IH, add_elem.
      destruct (decide (k = key x)) as [->|Hne]; tauto.
Qed.

Lemma unseen_NoDup seen array : NoDup (key <$> unseen key seen array).
Proof.
  revert seen. induction array as [|x array IH]; intros seen; cbn [unseen]; [constructor|].
  cbv zeta. destruct (decide (key x ∈ seen)) as [Hs|Hs]; [apply IH|].
  rewrite fmap_cons. constructor; [|apply IH].
  rewrite unseen_keys, add_elem. tauto.
Qed.

Lemma unseen_first seen array i x :
  array !! i = Some x → key x ∉ seen →
  (∀ j y, j < i → array !! j = Some y → key y ≠ key x) →
  x ∈ unseen key seen array.
Proof.
  revert seen i. induction array as [|z array IH]; intros seen i Hi Hs Hfirst; [done|].
  simpl. destruct i as [|i]; simpl in Hi.
  - injection Hi as ->. destruct (decide (key x ∈ seen)); [done | apply list_elem_of_here].
  - assert (key z ≠ key x) as Hz by (apply (Hfirst 0 z); [lia | done]).
    assert (x ∈ unseen key (JsSet.add (key z) seen) array ∧ x ∈ unseen key seen array) as [? ?].
    { split; apply (IH _ i); try done.
      - rewrite add_elem. intros [?|?]; congruence.
      - intros j y Hj Hy. apply (Hfirst (S j) y); [lia | done].
      - intros j y Hj Hy. apply (Hfirst (S j) y); [lia | done]. }
    destruct (decide (key z ∈ seen)); [done | by apply list_elem_of_further].
Qed.

Lemma unseen_fixed seen array :
  NoDup (key <$> array) → (∀ x, x ∈ array → key x ∉ seen) →
  unseen key seen array = array.
Proof.
  revert seen. induction array as [|x array IH]; intros seen Hn Hs; [done|].
  simpl. rewrite fmap_cons in Hn. apply NoDup_cons in Hn as [Hx Hn].
  destruct (decide (key x ∈ seen)) as [Hin|_].
  { destruct (Hs x); [apply list_elem_of_here | done]. }
  f_equal. apply IH; [done|]. intros y Hy. rewrite add_elem. intros [?|Hk].
  - by apply (Hs y (list_elem_of_further _ _ _ Hy)).
  - apply Hx. rewrite <- Hk. by apply list_elem_of_fmap_2.
Qed.

(** X16. [removeDuplicates] by a key keeps, in their order, the first
    element of each key and no other: the result is a subsequence of the
    array, its keys are pairwise different and are the keys of the array,
    an element before which no element has its key is kept, and removing
    duplicates once more changes nothing. *)
Theorem removeDuplicates_first array :
  removeDuplicates array key `sublist_of` array ∧
  NoDup (key <$> removeDuplicates array key) ∧
  (∀ k, k ∈ (key <$> removeDuplicates array key) ↔ k ∈ (key <$> array)) ∧
  (∀ i x, array !! i = Some x →
     (∀ j y, j < i → array !! j = Some y → key y ≠ key x) →
     x ∈ removeDuplicates array key) ∧
  removeDuplicates (removeDuplicates array key) key = removeDuplicates array key.
Proof.
  unfold removeDuplicates. cbv zeta.
  split; [apply unseen_sublist|]. split; [apply unseen_NoDup|].
  split; [|split].
  - intros k. rewrite unseen_keys. split; [tauto|]. intros ?. split; [apply not_elem_of_nil | done].
  - intros i x Hi Hfirst. apply (unseen_first [] array i); [done | apply not_elem_of_nil | done].
  - apply unseen_fixed; [apply unseen_NoDup|]. intros x _. apply not_elem_of_nil.
Qed.

End ByKey.

End RemoveDuplicatesSpec.

(** ** DocumentService.searchDocuments *)

Module DocumentServiceFacts.
Import JsString JsStringFacts JsArray JsArrayFacts SortFilterFacts DocumentService.
Local Open Scope Q_scope.

(** A step of the scoring loop never lowers the score, and lifts it
    above 0 exactly when its text mentions the term. *)
Abbreviation Adds step P :=
  (∀ score : Q, 0 <= score → 0 <= step score ∧ (0 < step score ↔ 0 < score ∨ P)).

Ltac adds :=
  (split; [lra|]); split;
  try (intros; by right); try (intros; lra); try (by left);
  try (intros [?|?]; [done | discriminate]).

Lemma fold_adds {A} (step : Q → A → Q) (P : A → Prop) (l : list A) :
  (∀ x, Adds (λ score, step score x) (P x)) →
  Adds (λ score, fold_left step l score) (∃ x, x ∈ l ∧ P x).
Proof.
  intros Hstep. induction l as [|x l IH]; intros score Hs; simpl.
  - split; [done|]. split; [by left|].
    intros [?|(x & ?%elem_of_nil & _)]; done.
  - destruct (Hstep x score Hs) as [H0 Hx].
    destruct (IH _ H0) as [H1 Hl]. split; [done|].
    rewrite Hl, Hx. split.
    + intros [[?|?]|(y & ? & ?)]; [by left | right; exists x | right; exists y].
      * split; [apply list_elem_of_here | done].
      * split; [by apply list_elem_of_further | done].
    + intros [?|(y & [->|?]%elem_of_cons & ?)]; [by left; left | by left; right |].
      right. by exists y.
Qed.

Section Score.
Context (this : t) (searchTerm language : string).

Abbreviation mentioned := (λ text : string, includes (toLowerCase text) searchTerm = true).

Lemma titleMatch_adds title :
  Adds (DataService.titleMatch searchTerm title) (mentioned title).
Proof.
  intros score Hs. unfold DataService.titleMatch. cbv zeta.
  destruct (includes (toLowerCase title) searchTerm);
    [destruct (String.eqb (toLowerCase title) searchTerm)|];
    adds.
Qed.

Lemma descriptionMatch_adds description :
  Adds (DataService.descriptionMatch searchTerm description) (mentioned description).
Proof.
  intros score Hs. unfold DataService.descriptionMatch.
  destruct (includes (toLowerCase description) searchTerm);
    adds.
Qed.

Lemma overviewMatch_adds overview :
  Adds (overviewMatch searchTerm overview) (mentioned overview).
Proof.
  intros score Hs. unfold overviewMatch.
  destruct (includes (toLowerCase overview) searchTerm);
    adds.
Qed.

Lemma tagsMatch_adds tags :
  Adds (tagsMatch searchTerm tags) (∃ tag, tag ∈ tags ∧ mentioned tag).
Proof.
  unfold tagsMatch. apply (fold_adds _ (λ tag, mentioned tag)).
  intros tag score Hs. cbv zeta.
  destruct (includes (toLowerCase tag) searchTerm);
    [destruct (String.eqb (toLowerCase tag) searchTerm)|];
    adds.
Qed.

Lemma sectionsMatch_adds sections :
  Adds (sectionsMatch searchTerm language sections)
       (∃ section, section ∈ default [] sections
                   ∧ mentioned (DataService.localized section language)).
Proof.
  destruct sections as [sections|]; simpl.
  - apply (fold_adds _ (λ section, mentioned (DataService.localized section language))).
    intros section score Hs. cbv zeta.
    destruct (includes (toLowerCase (DataService.localized section language)) searchTerm);
      adds.
  - intros score Hs. split; [done|]. split; [by left|].
    intros [?|(x & ?%elem_of_nil & _)]; done.
Qed.

Lemma categoryMatch_adds doc :
  Adds (categoryMatch this searchTerm language doc)
       (∃ category, getCategoryById this (Document.category doc) = Some category
                    ∧ mentioned (DataService.localized (Category.name category) language)).
Proof.
  intros score Hs. unfold categoryMatch.
  destruct (getCategoryById this (Document.category doc)) as [category|].
  - cbv zeta.
    destruct (includes (toLowerCase (DataService.localized (Category.name category) language))
                searchTerm) eqn:E; (split; [lra|]); split; try (intros; lra).
    + intros _. right. by exists category.
    + intros [?|(c & [= <-] & Hc)]; [done|]. rewrite E in Hc. discriminate Hc.
  - split; [done|]. split; [by left|]. intros [?|(c & ? & _)]; done.
Qed.

(** A document scores above 0 exactly when one of its texts mentions
    the term. *)
Lemma scoreDocument_positive doc :
  0 < scoreDocument this searchTerm language doc ↔ Mentions this searchTerm language doc.
Proof.
  unfold scoreDocument, Mentions. cbv zeta.
  destruct (titleMatch_adds (DataService.localized (Document.title doc) language) 0)
    as [H1 E1]; [lra|].
  destruct (descriptionMatch_adds
              (DataService.localized (Document.description doc) language) _ H1) as [H2 E2].
  destruct (overviewMatch_adds
              (DataService.localized (Document.overview doc) language) _ H2) as [H3 E3].
  destruct (tagsMatch_adds (default [] (Document.tags doc)) _ H3) as [H4 E4].
  destruct (sectionsMatch_adds (Document.sections doc) _ H4) as [H5 E5].
  destruct (categoryMatch_adds doc _ H5) as [H6 E6].
  rewrite E6, E5, E4, E3, E2, E1.
  assert (¬ 0 < 0) by lra. tauto.
Qed.

End Score.

Section Search.
Context (this : t) (query language : string).

Abbreviation searchTerm := (trim (toLowerCase query)).
Abbreviation score := (scoreDocument this searchTerm language).

Lemma sort_equal_keys {A} (key : A → Q) (v : Q) (l : list A) :
  Forall (λ x, key x == v) l → sort (λ a b, key b - key a) l = l.
Proof.
  induction 1 as [|x l Hx Hl IH]; [done|]. cbn [sort]. rewrite IH.
  apply (insertBy_front key). eapply Forall_impl; [exact Hl|].
  simpl. intros y Hy. lra.
Qed.

(** Without the early return, the function is a filter and a sort. *)
Lemma searchDocuments_sort : ¬ Blank query →
  searchDocuments this query language
  = sort (λ a b, score b - score a)
      (List.filter (λ doc, if Qlt_le_dec 0 (score doc) then true else false)
         (documents this)).
Proof.
  intros H. unfold searchDocuments. rewrite (SearchFacts.nonblank_guard _ H).
  cbv zeta. rewrite pushEach_filter.
  rewrite <- (sort_fmap _ (λ a b, score b - score a) byScoreDescending) by done.
  rewrite <- list_fmap_compose. by rewrite list_fmap_id.
Qed.

Lemma searchDocuments_elem doc : ¬ Blank query →
  doc ∈ searchDocuments this query language ↔ doc ∈ documents this ∧ 0 < score doc.
Proof.
  intros H. rewrite (searchDocuments_sort H), sort_perm.
  rewrite !list_elem_of_In, filter_In.
  destruct (Qlt_le_dec 0 (score doc)); split; intros [? ?]; split; try done. lra.
Qed.

End Search.

End DocumentServiceFacts.

Module DocumentServiceSpec.
Import JsString JsStringFacts JsArray JsArrayFacts SortFilterFacts DocumentService.
Import DocumentServiceFacts.
Local Open Scope Q_scope.

(** X17. For a query that is not blank, [searchDocuments] returns exactly
    the documents of the service of which a text mentions the search
    term: the title, the description, the overview, a tag, the content
    of a section, or the name of the category, in the language asked for
    (or in English, when the text is missing in that language). *)
Theorem searchDocuments_mentions this query language doc :
  ¬ Blank query →
  doc ∈ searchDocuments this query language
  ↔ doc ∈ documents this ∧ Mentions this (trim (toLowerCase query)) language doc.
Proof.
  intros H. rewrite (searchDocuments_elem _ _ _ _ H).
  by rewrite scoreDocument_positive.
Qed.

Lemma searchDocuments_mentions_witness :
  Fixtures.hooks ∈ searchDocuments Fixtures.library "Hooks" "en"
  ↔ Fixtures.hooks ∈ documents Fixtures.library
    ∧ Mentions Fixtures.library (trim (toLowerCase "Hooks")) "en" Fixtures.hooks.
Proof.
  apply (searchDocuments_mentions Fixtures.library "Hooks" "en" Fixtures.hooks).
  intros H. inversion H as [|? ? Hc _]. discriminate Hc.
Defined.

(** X18. For a query that is not blank, the documents come in the order
    of their scores, the highest first; and documents of one score come
    in the order in which the service holds them. *)
Theorem searchDocuments_order this query language :
  ¬ Blank query →
  StronglySorted
    (λ a b, totalScore this query language b <= totalScore this query language a)
    (searchDocuments this query language) ∧
  ∀ v, 0 < v →
    filter (λ doc, totalScore this query language doc == v)
      (searchDocuments this query language)
    = filter (λ doc, totalScore this query language doc == v) (documents this).
Proof.
  intros H. rewrite (searchDocuments_sort _ _ _ H).
  change (scoreDocument this (trim (toLowerCase query)) language)
    with (totalScore this query language).
  split; [apply (sort_sorted (totalScore this query language))|].
  intros v Hv. rewrite (filter_sort (totalScore this query language)).
  rewrite filter_bool, list_filter_filter.
  rewrite (sort_equal_keys (totalScore this query language) v).
  - apply list_filter_iff. intros doc. split; [tauto|].
    intros E. split; [done|].
    destruct (Qlt_le_dec 0 (totalScore this query language doc)); [done | lra].
  - apply Forall_forall. by intros doc [[? _] _]%list_elem_of_filter.
Qed.

Lemma searchDocuments_order_witness :
  StronglySorted
    (λ a b, totalScore Fixtures.library "Start" "en" b
            <= totalScore Fixtures.library "Start" "en" a)
    (searchDocuments Fixtures.library "Start" "en") ∧
  ∀ v, 0 < v →
    filter (λ doc, totalScore Fixtures.library "Start" "en" doc == v)
      (searchDocuments Fixtures.library "Start" "en")
    = filter (λ doc, totalScore Fixtures.library "Start" "en" doc == v)
        (documents Fixtures.library).
Proof.
  apply (searchDocuments_order Fixtures.library "Start" "en").
  intros H. inversion H as [|? ? Hc _]. discriminate Hc.
Defined.

End DocumentServiceSpec.

(** ** DocumentService.getAdjacentDocuments *)

Module AdjacentSpec.
Import JsArray JsArrayFacts SortFilterFacts DocumentService.
Local Open Scope Q_scope.

Lemma findIndexFrom_first {A} (f : A → bool) (l : list A) (i : Z) (n : nat) x :
  l !! n = Some x → f x = true →
  (∀ m y, (m < n)%nat → l !! m = Some y → f y = false) →
  findIndexFrom f i l = (i + Z.of_nat n)%Z.
Proof.
  revert i n. induction l as [|y l IH]; intros i n Hn Hx Hfirst; [done|].
  destruct n as [|n]; simpl in *.
  - injection Hn as ->. rewrite Hx. lia.
  - rewrite (Hfirst 0%nat y) by (done || lia).
    rewrite (IH (i + 1)%Z n); [lia | done..|].
    intros m z Hm Hz. apply (Hfirst (S m) z); [lia | done].
Qed.

Section Unique.
Context (this : t).
Hypothesis unique : NoDup (Document.id <$> documents this).

Abbreviation categoryDocs c := (sort byPriority (getDocumentsByCategory this c)).

Lemma categoryDocs_elem c doc :
  doc ∈ categoryDocs c ↔ doc ∈ documents this ∧ Document.category doc = c.
Proof.
  rewrite sort_perm. unfold getDocumentsByCategory. rewrite list_elem_of_filter. tauto.
Qed.

Lemma categoryDocs_unique c : NoDup (Document.id <$> categoryDocs c).
Proof.
  rewrite sort_perm. unfold getDocumentsByCategory.
  eapply sublist_NoDup; [exact unique|].
  apply fmap_sublist, sublist_filter.
Qed.

Lemma categoryDocs_sorted c :
  StronglySorted (λ a b, priorityOr a <= priorityOr b) (categoryDocs c).
Proof.
  rewrite (SuggestionFacts.sort_ext byPriority (λ a b, - priorityOr b - - priorityOr a)).
  - pose proof (sort_sorted (λ doc, - priorityOr doc) (getDocumentsByCategory this c)) as Hs.
    eapply SuggestionFacts.StronglySorted_weaken; [|exact Hs].
    intros a b Hab. simpl in Hab. lra.
  - intros x y. unfold byPriority. ring.
Qed.

Lemma findIndex_unique (l : list Document.t) n doc :
  NoDup (Document.id <$> l) → l !! n = Some doc →
  findIndex (λ other, bool_decide (Document.id other = Document.id doc)) l = Z.of_nat n.
Proof.
  intros Hl Hn. unfold findIndex.
  rewrite (findIndexFrom_first _ l 0 n doc); [lia | done | by apply bool_decide_eq_true |].
  intros m other Hm Hother. apply bool_decide_eq_false. intros E.
  assert (m = n); [|lia].
  apply (NoDup_lookup _ m n (Document.id doc) Hl).
  - by rewrite list_lookup_fmap, Hother, <- E.
  - by rewrite list_lookup_fmap, Hn.
Qed.

Lemma getDocumentById_elem id doc :
  getDocumentById this id = Some doc → doc ∈ documents this ∧ Document.id doc = id.
Proof.
  unfold getDocumentById. intros [Hin Hid]%find_some.
  split; [by apply list_elem_of_In | by apply bool_decide_eq_true in Hid].
Qed.

Lemma find_unique (l : list Document.t) doc :
  NoDup (Document.id <$> l) → doc ∈ l →
  List.find (λ other, bool_decide (Document.id other = Document.id doc)) l = Some doc.
Proof.
  induction l as [|y l IH]; [by intros _ ?%elem_of_nil|].
  rewrite fmap_cons. intros [Hy Hl]%NoDup_cons [->|Hin]%elem_of_cons; simpl.
  - by rewrite bool_decide_eq_true_2.
  - rewrite bool_decide_eq_false_2; [by apply IH|].
    intros E. apply Hy. rewrite E. by apply list_elem_of_fmap_2.
Qed.

Lemma getDocumentById_unique doc :
  doc ∈ documents this → getDocumentById this (Document.id doc) = Some doc.
Proof. intros Hin. by apply find_unique. Qed.

(** With unique ids, the neighbours of a document are the documents next
    to it in the sorted array of its category. *)
Lemma getAdjacentDocuments_at doc n :
  categoryDocs (Document.category doc) !! n = Some doc →
  getAdjacentDocuments this (Document.id doc)
  = {| prev := match n with
               | O => None
               | S m => categoryDocs (Document.category doc) !! m
               end;
       next := categoryDocs (Document.category doc) !! S n |}.
Proof.
  intros Hn. unfold getAdjacentDocuments.
  assert (doc ∈ documents this) as Hin.
  { by eapply categoryDocs_elem, list_elem_of_lookup_2. }
  rewrite (getDocumentById_unique _ Hin). cbv zeta.
  rewrite (findIndex_unique _ n doc (categoryDocs_unique _) Hn).
  f_equal.
  - destruct n as [|m]; [done|].
    destruct (Z.ltb_spec 0 (Z.of_nat (S m))); [|lia].
    unfold at_. destruct (Z.ltb_spec (Z.of_nat (S m) - 1) 0); [lia|].
    f_equal. lia.
  - destruct (Z.ltb_spec (Z.of_nat n)
                (Z.of_nat (List.length (categoryDocs (Document.category doc))) - 1)).
    + unfold at_. destruct (Z.ltb_spec (Z.of_nat n + 1) 0); [lia|].
      f_equal. lia.
    + symmetry. apply lookup_ge_None. lia.
Qed.

Lemma getAdjacentDocuments_found id doc :
  getDocumentById this id = Some doc →
  ∃ n, categoryDocs (Document.category doc) !! n = Some doc ∧ Document.id doc = id.
Proof.
  intros [Hin Hid]%getDocumentById_elem.
  assert (doc ∈ categoryDocs (Document.category doc)) as [n Hn]%list_elem_of_lookup_1.
  { by apply categoryDocs_elem. }
  by exists n.
Qed.

End Unique.

Lemma library_unique : NoDup (Document.id <$> documents Fixtures.library).
Proof. apply (bool_decide_unpack _). vm_compute. exact I. Qed.

(** X19. When the ids of the documents are unique, the neighbours that
    [getAdjacentDocuments] gives for a document are documents of its
    category; the one before has no larger priority number than the
    document, and the one after no smaller one (a document without a
    priority counting as 999). *)
Theorem getAdjacentDocuments_neighbours this id doc :
  NoDup (Document.id <$> documents this) →
  getDocumentById this id = Some doc →
  (∀ other, prev (getAdjacentDocuments this id) = Some other →
     other ∈ documents this ∧ Document.category other = Document.category doc
     ∧ priorityOr other <= priorityOr doc) ∧
  (∀ other, next (getAdjacentDocuments this id) = Some other →
     other ∈ documents this ∧ Document.category other = Document.category doc
     ∧ priorityOr doc <= priorityOr other).
Proof.
  intros Hu Hdoc.
  destruct (getAdjacentDocuments_found this id doc Hdoc) as (n & Hn & <-).
  rewrite (getAdjacentDocuments_at this Hu doc n Hn). cbn [prev next].
  pose proof (categoryDocs_sorted this (Document.category doc)) as Hs.
  split; intros other Hother.
  - destruct n as [|m]; [done|].
    pose proof (list_elem_of_lookup_2 _ _ _ Hother) as [? ?]%categoryDocs_elem.
    repeat split; [done..|].
    apply (StronglySorted_lookup _ _ m (S m) _ _ Hs); [lia | done..].
  - pose proof (list_elem_of_lookup_2 _ _ _ Hother) as [? ?]%categoryDocs_elem.
    repeat split; [done..|].
    apply (StronglySorted_lookup _ _ n (S n) _ _ Hs); [lia | done..].
Qed.

Lemma getAdjacentDocuments_neighbours_witness :
  (∀ other, prev (getAdjacentDocuments Fixtures.library "hooks") = Some other →
     other ∈ documents Fixtures.library
     ∧ Document.category other = Document.category Fixtures.hooks
     ∧ priorityOr other <= priorityOr Fixtures.hooks) ∧
  (∀ other, next (getAdjacentDocuments Fixtures.library "hooks") = Some other →
     other ∈ documents Fixtures.library
     ∧ Document.category other = Document.category Fixtures.hooks
     ∧ priorityOr Fixtures.hooks <= priorityOr other).
Proof.
  apply (getAdjacentDocuments_neighbours Fixtures.library "hooks" Fixtures.hooks).
  - apply library_unique.
  - reflexivity.
Defined.

(** X20. When the ids of the documents are unique, stepping to the next
    document and back, or to the previous one and forth, leads to the
    document one started from. *)
Theorem getAdjacentDocuments_round_trip this id other :
  NoDup (Document.id <$> documents this) →
  (next (getAdjacentDocuments this id) = Some other →
   prev (getAdjacentDocuments this (Document.id other)) = getDocumentById this id) ∧
  (prev (getAdjacentDocuments this id) = Some other →
   next (getAdjacentDocuments this (Document.id other)) = getDocumentById this id).
Proof.
  intros Hu.
  destruct (getDocumentById this id) as [doc|] eqn:Hdoc.
  - destruct (getAdjacentDocuments_found this id doc Hdoc) as (n & Hn & <-).
    rewrite (getAdjacentDocuments_at this Hu doc n Hn). cbn [prev next].
    split; intros Hother.
    + pose proof (list_elem_of_lookup_2 _ _ _ Hother) as [_ Hc]%categoryDocs_elem.
      rewrite <- Hc in Hother, Hn.
      by rewrite (getAdjacentDocuments_at this Hu other (S n) Hother).
    + destruct n as [|m]; [done|].
      pose proof (list_elem_of_lookup_2 _ _ _ Hother) as [_ Hc]%categoryDocs_elem.
      rewrite <- Hc in Hother, Hn.
      by rewrite (getAdjacentDocuments_at this Hu other m Hother).
  - unfold getAdjacentDocuments. rewrite Hdoc. by split.
Qed.

Lemma getAdjacentDocuments_round_trip_witness :
  (next (getAdjacentDocuments Fixtures.library "quickstart") = Some Fixtures.hooks →
   prev (getAdjacentDocuments Fixtures.library (Document.id Fixtures.hooks))
   = getDocumentById Fixtures.library "quickstart") ∧
  (prev (getAdjacentDocuments Fixtures.library "quickstart") = Some Fixtures.hooks →
   next (getAdjacentDocuments Fixtures.library (Document.id Fixtures.hooks))
   = getDocumentById Fixtures.library "quickstart").
Proof.
  apply (getAdjacentDocuments_round_trip Fixtures.library "quickstart" Fixtures.hooks).
  apply library_unique.
Defined.

End AdjacentSpec.

(** ** DocumentSearch.performSearch and its cache *)

Module SearchCacheSpec.
Import JsString JsStringFacts DocumentSearchCache.

Lemma append_length (s t : string) :
  String.length (s +:+ t) = String.length s + String.length t.
Proof. induction s as [|c s IH]; simpl; [done | by rewrite IH]. Qed.

(** Under one language, different queries have different cache keys. *)
Lemma cacheKeyOf_inj language query1 query2 :
  cacheKeyOf query1 language = cacheKeyOf query2 language → query1 = query2.
Proof.
  unfold cacheKeyOf. generalize ("-" +:+ language). intros suffix.
  revert query2. induction query1 as [|c query1 IH]; intros [|d query2] E; simpl in E.
  - done.
  - apply (f_equal String.length) in E. simpl in E. rewrite !append_length in E.
    simpl in E. lia.
  - apply (f_equal String.length) in E. simpl in E. rewrite !append_length in E.
    simpl in E. lia.
  - injection E as -> E. f_equal. by apply IH.
Qed.

(** Every entry of the cache holds the result of the search for its
    query in the current language. *)
Abbreviation Coherent this :=
  (∀ key results, searchCache this !! key = Some results →
     ∃ query, key = cacheKeyOf query (currentLanguage this)
              ∧ results = DocumentService.searchDocuments (documentService this) query
                            (currentLanguage this)).

Lemma ignored_short query :
  2 ≤ length query → negb (truthy query) || (length query <? 2) = false.
Proof.
  intros Hl. apply orb_false_iff. split.
  - apply negb_false_iff, truthy_true. intros ->. vm_compute in Hl. lia.
  - apply Nat.ltb_ge. lia.
Qed.

Lemma performSearch_service query this :
  documentService (snd (performSearch query this)) = documentService this
  ∧ currentLanguage (snd (performSearch query this)) = currentLanguage this.
Proof.
  unfold performSearch. destruct (_ || _); [done|]. cbv zeta.
  by destruct (searchCache this !! _).
Qed.

Lemma performSearch_keeps query this :
  Coherent this → Coherent (snd (performSearch query this)).
Proof.
  intros Hc. unfold performSearch. destruct (_ || _); [done|]. cbv zeta.
  destruct (searchCache this !! cacheKeyOf query (currentLanguage this)) eqn:E; [done|].
  cbn [snd searchCache currentLanguage documentService].
  intros key results Hk. destruct (decide (key = cacheKeyOf query (currentLanguage this)))
    as [->|Hne].
  - rewrite lookup_insert_eq in Hk. injection Hk as <-. by exists query.
  - rewrite lookup_insert_ne in Hk by done. by apply Hc.
Qed.

Lemma call_service this c : documentService (call this c) = documentService this.
Proof. destruct c; simpl; [apply performSearch_service | done..]. Qed.

Lemma call_keeps this c : Coherent this → Coherent (call this c).
Proof.
  destruct c; simpl; [apply performSearch_keeps | | done].
  intros _ key results Hk. by rewrite lookup_empty in Hk.
Qed.

Lemma after_keeps calls this :
  Coherent this →
  Coherent (after calls this) ∧ documentService (after calls this) = documentService this.
Proof.
  unfold after. revert this. induction calls as [|c calls IH]; intros this Hc; [done|].
  simpl. destruct (IH (call this c)) as [H1 H2]; [by apply call_keeps|].
  split; [done|]. by rewrite H2, call_service.
Qed.

(** What a search hands to the display, in a coherent state. *)
Lemma performSearch_results query this :
  Coherent this → 2 ≤ length query →
  fst (performSearch query this)
  = Some (DocumentService.searchDocuments (documentService this) query (currentLanguage this)).
Proof.
  intros Hc Hl. unfold performSearch. rewrite (ignored_short _ Hl). cbv zeta.
  destruct (searchCache this !! cacheKeyOf query (currentLanguage this)) eqn:E; [|done].
  destruct (Hc _ _ E) as (query' & Hk & ->). simpl.
  by apply cacheKeyOf_inj in Hk as <-.
Qed.

(** X21. The cache never changes what a search shows: after any sequence
    of searches, changes of language and clearings of the history, a
    search for a query of two characters or more hands to the display the
    result of [searchDocuments] for that query in the current language,
    whether it is served from the cache or not. *)
Theorem performSearch_coherent documentService storage calls query :
  2 ≤ length query →
  fst (performSearch query (after calls (constructor documentService storage)))
  = Some (DocumentService.searchDocuments documentService query
            (currentLanguage (after calls (constructor documentService storage)))).
Proof.
  intros Hl.
  destruct (after_keeps calls (constructor documentService storage)) as [Hc Hs].
  { intros key results Hk. simpl in Hk. by rewrite lookup_empty in Hk. }
  rewrite (performSearch_results _ _ Hc Hl). by rewrite Hs.
Qed.

Lemma performSearch_coherent_witness :
  fst (performSearch "hooks"
         (after [PerformSearch "hooks"; SetLanguage "zh"; PerformSearch "memory"]
            (constructor Fixtures.library DocumentSearch.emptyStorage)))
  = Some (DocumentService.searchDocuments Fixtures.library "hooks"
            (currentLanguage
               (after [PerformSearch "hooks"; SetLanguage "zh"; PerformSearch "memory"]
                  (constructor Fixtures.library DocumentSearch.emptyStorage)))).
Proof.
  apply (performSearch_coherent Fixtures.library DocumentSearch.emptyStorage
           [PerformSearch "hooks"; SetLanguage "zh"; PerformSearch "memory"] "hooks").
  vm_compute. lia.
Defined.

(** X22. A search repeated at once is served from the cache: it hands
    the same results to the display and leaves the component, its cache
    and its history, as the first search left them. *)
Theorem performSearch_repeated query this :
  performSearch query (snd (performSearch query this)) = performSearch query this.
Proof.
  unfold performSearch at 2 3.
  destruct (negb (truthy query) || (length query <? 2)) eqn:Eq; cbv zeta.
  - simpl. unfold performSearch. by rewrite Eq.
  - destruct (searchCache this !! cacheKeyOf query (currentLanguage this)) eqn:E.
    + simpl. unfold performSearch. by rewrite Eq, E.
    + cbn [snd]. unfold performSearch. rewrite Eq.
      cbn [searchCache currentLanguage documentService history].
      by rewrite lookup_insert_eq.
Qed.

(** X23. A query served from the cache is not recorded again: after a
    search for one query, a search for another and the first search once
    more, the head of the history is the second query, not the first. *)
Theorem performSearch_cached_unrecorded this query other :
  searchCache this = ∅ →
  0 < DocumentSearch.maxHistorySize (history this) →
  2 ≤ length query → 2 ≤ length other → query ≠ other →
  head (DocumentSearch.searchHistory
          (history (after [PerformSearch query; PerformSearch other; PerformSearch query]
                      this)))
  = Some other.
Proof.
  intros Hempty Hmax Hq Ho Hne. unfold after. cbn [fold_left call].
  assert (∀ s, searchCache s !! cacheKeyOf query (currentLanguage s) = None →
            snd (performSearch query s)
            = {| documentService := documentService s;
                 currentLanguage := currentLanguage s;
                 searchCache :=
                   <[cacheKeyOf query (currentLanguage s) :=
                       DocumentService.searchDocuments (documentService s) query
                         (currentLanguage s)]> (searchCache s);
                 history := DocumentSearch.addToSearchHistory query (history s) |})
    as Hmiss.
  { intros s E. unfold performSearch. rewrite (ignored_short _ Hq). cbv zeta.
    by rewrite E. }
  rewrite (Hmiss this) by (by rewrite Hempty, lookup_empty).
  set (s1 := {| documentService := _ |}).
  assert (searchCache s1 !! cacheKeyOf other (currentLanguage s1) = None) as E1.
  { subst s1. cbn [searchCache currentLanguage].
    rewrite lookup_insert_ne, Hempty, lookup_empty; [done|].
    intros E. by apply cacheKeyOf_inj in E. }
  unfold performSearch at 2. rewrite (ignored_short _ Ho). cbv zeta. rewrite E1.
  cbn [snd]. set (s2 := {| documentService := _ |}).
  unfold performSearch. rewrite (ignored_short _ Hq). cbv zeta.
  assert (searchCache s2 !! cacheKeyOf query (currentLanguage s2)
          = Some (DocumentService.searchDocuments (documentService this) query
                    (currentLanguage this))) as E2.
  { subst s2 s1. cbn [searchCache currentLanguage documentService].
    rewrite lookup_insert_ne by (intros E; by apply cacheKeyOf_inj in E).
    by rewrite lookup_insert_eq. }
  rewrite E2. cbn [snd]. subst s2 s1. cbn [history].
  rewrite HistorySpec.searchHistory_add.
  rewrite HistorySpec.maxHistorySize_add.
  destruct (DocumentSearch.maxHistorySize (history this)) as [|n]; [lia | done].
Qed.

Lemma performSearch_cached_unrecorded_witness :
  head (DocumentSearch.searchHistory
          (history (after [PerformSearch "hooks"; PerformSearch "memory"; PerformSearch "hooks"]
                      (constructor Fixtures.library DocumentSearch.emptyStorage))))
  = Some "memory".
Proof.
  apply (performSearch_cached_unrecorded
           (constructor Fixtures.library DocumentSearch.emptyStorage) "hooks" "memory").
  - reflexivity.
  - vm_compute. lia.
  - vm_compute. lia.
  - vm_compute. lia.
  - discriminate.
Defined.

End SearchCacheSpec.

(** ** DataService.searchFeatures: which records are returned *)

Module SearchMatchSpec.
Import JsString JsStringFacts DataService DataServiceMatches DocumentServiceFacts.
Local Open Scope Q_scope.

Section Score.
Context (this : t) (searchTerm language : string).

Abbreviation mentioned := (λ text : string, includes (toLowerCase text) searchTerm = true).

Lemma featureTags_adds tags :
  Adds (tagsMatch searchTerm tags) (∃ tag, tag ∈ tags ∧ mentioned tag).
Proof.
  unfold tagsMatch. apply (fold_adds _ (λ tag, mentioned tag)).
  intros tag score Hs. cbv zeta.
  destruct (includes (toLowerCase tag) searchTerm);
    [destruct (String.eqb (toLowerCase tag) searchTerm)|];
    adds.
Qed.

Lemma examplesMatch_adds examples :
  Adds (examplesMatch searchTerm examples)
       (∃ example, example ∈ examples ∧ mentioned example).
Proof.
  unfold examplesMatch. apply (fold_adds _ (λ example, mentioned example)).
  intros example score Hs.
  destruct (includes (toLowerCase example) searchTerm); adds.
Qed.

Lemma detailsMatch_adds details :
  Adds (detailsMatch searchTerm details) (mentioned details).
Proof.
  intros score Hs. unfold detailsMatch.
  destruct (includes (toLowerCase details) searchTerm); adds.
Qed.

Lemma featureCategory_adds feature :
  Adds (categoryMatch this searchTerm feature)
       (∃ category, getCategoryById this (Feature.category feature) = Some category
                    ∧ mentioned (Category.id category)).
Proof.
  intros score Hs. unfold categoryMatch.
  destruct (getCategoryById this (Feature.category feature)) as [category|].
  - cbv zeta.
    destruct (includes (toLowerCase (Category.id category)) searchTerm) eqn:E;
      (split; [lra|]); split; try (intros; lra).
    + intros _. right. by exists category.
    + intros [?|(c & [= <-] & Hc)]; [done|]. rewrite E in Hc. discriminate Hc.
  - split; [done|]. split; [by left|]. intros [?|(c & ? & _)]; done.
Qed.

(** The fuzzy part of the score is 0 or above 10. *)
Lemma calculateFuzzyScore_gap title description tags :
  0 <= calculateFuzzyScore searchTerm title description tags ∧
  (0 < calculateFuzzyScore searchTerm title description tags
   ↔ 10 < calculateFuzzyScore searchTerm title description tags).
Proof.
  unfold calculateFuzzyScore. cbv zeta.
  destruct (Qlt_le_dec 10 _); (split; [lra | split; lra]).
Qed.

(** A record scores above 0 exactly when one of its texts mentions the
    term or its fuzzy score is above 10. *)
Lemma scoreFeature_positive feature :
  0 < scoreFeature this searchTerm language feature
  ↔ Mentions this searchTerm language feature ∨ 10 < fuzzyScore searchTerm language feature.
Proof.
  unfold scoreFeature, Mentions, fuzzyScore. cbv zeta.
  destruct (titleMatch_adds searchTerm (localized (Feature.title feature) language) 0)
    as [H1 E1]; [lra|].
  destruct (descriptionMatch_adds searchTerm
              (localized (Feature.description feature) language) _ H1) as [H2 E2].
  destruct (featureTags_adds (default [] (Feature.tags feature)) _ H2) as [H3 E3].
  destruct (examplesMatch_adds (default [] (Feature.examples feature)) _ H3) as [H4 E4].
  destruct (detailsMatch_adds (localized (Feature.details feature) language) _ H4)
    as [H5 E5].
  destruct (featureCategory_adds feature _ H5) as [H6 E6].
  destruct (calculateFuzzyScore_gap (localized (Feature.title feature) language)
              (localized (Feature.description feature) language)
              (default [] (Feature.tags feature))) as [H7 E7].
  set (F := calculateFuzzyScore _ _ _ _) in *.
  set (L := categoryMatch _ _ _ _) in *.
  assert (0 < L ↔ Mentions this searchTerm language feature) as EL.
  { unfold Mentions. cbv zeta. rewrite E6, E5, E4, E3, E2, E1.
    assert (¬ 0 < 0) by lra. tauto. }
  unfold Mentions in EL. cbv zeta in EL. rewrite <- EL, <- E7.
  split; [|intros [?|?]; lra].
  intros Hpos. destruct (Qlt_le_dec 0 F); [by right|]. left. lra.
Qed.

End Score.

(** X24. For a query that is not blank, [searchFeatures] returns exactly
    the records it was given of which a text mentions the search term
    (the title, the description, a tag, an example, the details, or the
    id of the category) or of which the fuzzy score is above 10. *)
Theorem searchFeatures_returned this features query language feature :
  ¬ Blank query →
  feature ∈ searchFeatures this features query language
  ↔ feature ∈ features
    ∧ (Mentions this (trim (toLowerCase query)) language feature
       ∨ 10 < fuzzyScore (trim (toLowerCase query)) language feature).
Proof.
  intros H. unfold searchFeatures.
  rewrite (SearchFacts.searchFeaturesWith_elem _ _ _ _ _ H).
  by rewrite scoreFeature_positive.
Qed.

Lemma searchFeatures_returned_witness :
  Scenario.slash ∈ searchFeatures Scenario.loaded Scenario.store "Slash" "en"
  ↔ Scenario.slash ∈ Scenario.store
    ∧ (Mentions Scenario.loaded (trim (toLowerCase "Slash")) "en" Scenario.slash
       ∨ 10 < fuzzyScore (trim (toLowerCase "Slash")) "en" Scenario.slash).
Proof.
  apply (searchFeatures_returned Scenario.loaded Scenario.store "Slash" "en" Scenario.slash).
  intros H. inversion H as [|? ? Hc _]. discriminate Hc.
Defined.

End SearchMatchSpec.

(** ** DataService.clearCache *)

Module ClearCacheSpec.
Import DataService DataServiceQueries.

(** X25. [clearCache] empties the cache and leaves the store alone, so
    that the next load goes to the network: when the request brings
    records, these replace the store; when it fails, the load throws and
    the store keeps the records it had.  On an initialized service,
    however, [init] still returns at once: clearing the cache does not
    make [init] load again. *)
Theorem clearCache_reload this :
  getAllFeatures (clearCache this) = getAllFeatures this ∧
  (∀ fs, fst (loadFeatures (FetchJson (Some fs)) (clearCache this)) = Normal fs
         ∧ getAllFeatures (snd (loadFeatures (FetchJson (Some fs)) (clearCache this))) = fs) ∧
  (∀ response error,
     fst (loadFeatures response (clearCache this)) = Throw error →
     getAllFeatures (snd (loadFeatures response (clearCache this))) = getAllFeatures this) ∧
  (initialized this = true →
   ∀ forFeatures forCategories,
     init forFeatures forCategories (clearCache this) = (Normal (), clearCache this)).
Proof.
  split; [done|]. split; [|split].
  - intros fs. unfold loadFeatures, clearCache. cbn [featureCache].
    by rewrite lookup_empty.
  - intros response error. unfold loadFeatures, clearCache. cbn [featureCache].
    rewrite lookup_empty. by destruct response.
  - intros Hi forFeatures forCategories. unfold init, clearCache. cbn [initialized].
    by rewrite Hi.
Qed.

End ClearCacheSpec.
